(** * Stratified sampling of article UIDs: a shallow embedding

    This development embeds [sampling_articles.py] and states the properties
    of the sampler ([sample_impresso_uids]), of the refreshing client
    accessor ([get_client]) and of the campaign loop
    ([run_all_newsagencies]).

    The remote API, the clock, the pseudo-random generator, the session
    provider, the file system and the [DateRange] class of the impresso
    library are the outside world.  They are taken as
    oracles over an abstract world type: every theorem holds for every
    behaviour of them.  What the program does to them is recorded in the
    state, call by call. *)

From Stdlib Require Import List String Ascii ZArith QArith Bool Lia.
From Stdlib Require Import Sorted Permutation.
Import ListNotations.

Local Open Scope Z_scope.
Local Open Scope list_scope.

(* ================================================================== *)
(** ** Data *)

(** A [DateRange(start, end)] of the impresso library that was built: its
    two bounds.  The constructor parses them and refuses what is not a
    date; see [new_DateRange]. *)
Record DateRange := mkDateRange {
  dr_start : option string;
  dr_end : option string
}.

(** One facet bucket of a raw response.  The code reads it with
    [b.get("value")]: a missing key and a null both give [None]. *)
Record Bucket := mkBucket {
  value : option string;
  count : Z
}.

(** One search hit; only [hit.get("uid")] is read. *)
Record Hit := mkHit {
  uid : option string
}.

(** The [.raw] dictionary of a response, as far as the program reads it:
    the value of [raw.get("data", [])], which is a list (the empty one
    when the key is missing) or [None] (a JSON null under the key). *)
Record Raw (A : Type) := mkRaw {
  data : option (list A)
}.
Arguments mkRaw {A} _.
Arguments data {A} _.

(** What a loop over [raw.get("data", [])] runs through once the test
    [if not ...] has passed: [None] is falsy like the empty list. *)
Definition get_data {A : Type} (r : Raw A) : list A :=
  match data r with
  | Some l => l
  | None => []
  end.

(** Python truthiness of an optional string: [None] and the empty string
    are falsy. *)
Definition truthy (s : option string) : bool :=
  match s with
  | Some EmptyString => false
  | Some (String _ _) => true
  | None => false
  end.

(** The error taxonomy of the gateway.  Whatever the client library raises
    on a [facet] or [find] call is a query error; the sampler handles all
    of them alike ([except Exception]). *)
Inductive QueryError :=
| TransientQueryError (msg : string)
| PermanentQueryError (msg : string).

(** Exceptions that travel through the program. *)
Inductive PyExn :=
| ValueError_limit (limit_per_query : Z)   (* "Invalid limit_per_query: ..." *)
| ValueError_date (msg : string)           (* DateRange refuses a bound *)
| ValueError_sleep                         (* time.sleep of a negative length *)
| TypeError_compare                        (* '<' between None and a key *)
| TypeError_len                            (* len(None) *)
| Query (e : QueryError)
| ProviderError (msg : string)             (* import of / call to get_impresso_client *)
| ImportError_client (cause : PyExn)       (* raised by _get_impresso_client_lazy *)
| OSError (msg : string).                  (* open / write of the result file *)

Inductive Level := INFO | WARNING | ERROR.

(** The log lines of level INFO and above, one constructor per call site. *)
Inductive Msg :=
| MStartSampling (keyword : string)
| MInvalidLimit (limit_per_query : Z)
| MUsingDateRange (dr : DateRange)
| MNoDateRange
| MFailedYearFacets (e : PyExn)
| MNoHits (keyword : string)
| MFoundYears (n : nat) (keyword : string)
| MYearsFound (years : list (option string))
| MFetchingNewspapers (year : string)
| MNewspaperFacets (year : string) (raw : Raw Bucket)
| MNoNewspapers (year : string)
| MMissingNewspaperId (paper : Bucket)
| MProgress (found max_hits : Z)
| MReachedMax (max_hits : Z)
| MErrorProcessing (newspaper_id year : string) (e : PyExn)
| MSamplingCompleted (n : nat) (keyword : string)
| MImported
| MImportFailed (e : PyExn)
| MNoAgencies
| MStartProcessing (n : nat)
| MTimeToRecreation (hrs mins secs : Z)
| MRefreshing
| MRefreshed
| MRefreshFailed (e : PyExn)
| MSkipping (agency : string) (n : nat)
| MProcessing (idx : nat) (total : nat) (agency : string)
| MCollected (n : nat) (agency : string)
| MFailedProcessing (agency : string) (e : PyExn)
| MSaved
| MWriteFailed (e : PyExn)
| MAllProcessed.

(** What the program does to the outside world, in order. *)
Inductive Call :=
| CProvider          (* one import of, and call to, get_impresso_client *)
| CFacet (dim term : string) (date_range : option DateRange) (limit : Z)
| CFind (term newspaper_id : string) (date_range : DateRange)
        (with_text_contents : bool) (limit : Z)
| CSleep (delay : Q)
| CWrite (content : string).                 (* open(out_path, "w") + json.dump *)

(** Result of a computation: a value or a raised exception. *)
Inductive Res (A : Type) :=
| Ok (a : A)
| Raise (e : PyExn).
Arguments Ok {A} _.
Arguments Raise {A} _.

(** How one attempt of the session provider ends. *)
Inductive ProviderResult (Client : Type) :=
| ImportFails (msg : string)
| CallFails (msg : string)
| Acquired (c : Client).
Arguments ImportFails {Client} _.
Arguments CallFails {Client} _.
Arguments Acquired {Client} _.

(** How one rewrite of the result file ends. *)
Inductive WriteOutcome :=
| WriteOk
| OpenFails (msg : string)
| WriteFails (written : nat) (msg : string).

(** [results]: a Python dict from agency to its list of UIDs, in insertion
    order (the order [json.dump] writes it in). *)
Definition Dict := list (string * list string).

Fixpoint dict_get (k : string) (d : Dict) : option (list string) :=
  match d with
  | [] => None
  | (k', v) :: d' => if String.eqb k k' then Some v else dict_get k d'
  end.

(** [d[k] = v]: replaces in place, or appends a new key. *)
Fixpoint dict_set (k : string) (v : list string) (d : Dict) : Dict :=
  match d with
  | [] => [(k, v)]
  | (k', v') :: d' =>
      if String.eqb k k' then (k, v) :: d' else (k', v') :: dict_set k v d'
  end.

(* ================================================================== *)
(** ** [sorted(buckets, key=lambda b: b.get("value"))] *)

Definition value_ltb (a b : Bucket) : bool :=
  match value a, value b with
  | Some x, Some y => String.ltb x y
  | _, _ => false
  end.

(** Stable insertion: [x] stood before every element of [l], so it goes
    before the first element that is not smaller than it. *)
Fixpoint insert_bucket (x : Bucket) (l : list Bucket) : list Bucket :=
  match l with
  | [] => [x]
  | y :: l' => if value_ltb y x then y :: insert_bucket x l' else x :: y :: l'
  end.

Fixpoint stable_sort (l : list Bucket) : list Bucket :=
  match l with
  | [] => []
  | x :: l' => insert_bucket x (stable_sort l')
  end.

Definition has_none_value (l : list Bucket) : bool :=
  existsb (fun b => match value b with None => true | Some _ => false end) l.

(** Python's [sorted] is a stable sort; on keys that are all strings its
    result is the one stable ascending arrangement, which [stable_sort]
    computes.  A list of fewer than two elements is returned without any
    comparison.  With two or more elements every key takes part in at
    least one [<], and [<] raises TypeError as soon as one side is [None]. *)
Definition sorted_by_value (l : list Bucket) : Res (list Bucket) :=
  match l with
  | [] => Ok []
  | [b] => Ok [b]
  | _ => if has_none_value l then Raise TypeError_compare else Ok (stable_sort l)
  end.

(* ================================================================== *)
(** ** [json.dump(results, f, ensure_ascii=False, indent=2)] *)

Definition quote_char : ascii := ascii_of_nat 34.
Definition backslash_char : ascii := ascii_of_nat 92.
Definition newline_char : ascii := ascii_of_nat 10.

Definition str1 (c : ascii) : string := String c EmptyString.

Definition hex_digit (n : nat) : ascii :=
  if Nat.ltb n 10 then ascii_of_nat (48 + n) else ascii_of_nat (87 + n).

(** The escapes of [json.encoder.py_encode_basestring]. *)
Definition json_escape_char (c : ascii) : string :=
  let n := nat_of_ascii c in
  if Nat.eqb n 34 then String backslash_char (str1 quote_char)
  else if Nat.eqb n 92 then String backslash_char (str1 backslash_char)
  else if Nat.eqb n 8 then String backslash_char "b"
  else if Nat.eqb n 12 then String backslash_char "f"
  else if Nat.eqb n 10 then String backslash_char "n"
  else if Nat.eqb n 13 then String backslash_char "r"
  else if Nat.eqb n 9 then String backslash_char "t"
  else if Nat.ltb n 32 then
    String backslash_char
      ("u00" ++ String (hex_digit (Nat.div n 16))
                      (str1 (hex_digit (Nat.modulo n 16))))%string
  else str1 c.

Fixpoint json_escape (s : string) : string :=
  match s with
  | EmptyString => EmptyString
  | String c s' => (json_escape_char c ++ json_escape s')%string
  end.

Definition json_string (s : string) : string :=
  String quote_char (json_escape s ++ str1 quote_char)%string.

Fixpoint json_join (sep : string) (items : list string) : string :=
  match items with
  | [] => EmptyString
  | [x] => x
  | x :: rest => (x ++ sep ++ json_join sep rest)%string
  end.

Definition json_list (uids : list string) : string :=
  match uids with
  | [] => "[]"%string
  | _ =>
      let nl4 := String newline_char "    " in
      let nl2 := String newline_char "  " in
      ("[" ++ nl4 ++ json_join ("," ++ nl4) (map json_string uids) ++ nl2 ++ "]")%string
  end.

Definition json_item (kv : string * list string) : string :=
  (json_string (fst kv) ++ ": " ++ json_list (snd kv))%string.

Definition json_dumps (results : Dict) : string :=
  match results with
  | [] => "{}"%string
  | _ =>
      let nl2 := String newline_char "  " in
      ("{" ++ nl2 ++ json_join ("," ++ nl2) (map json_item results)
           ++ str1 newline_char ++ "}")%string
  end.

(** ** Clock readings

    [time.time()] gives a binary64 float.  A finite float is taken as the
    rational it denotes; comparisons and [int()] are exact on it, and the
    one operation of the program that rounds is the subtraction of two
    readings.  Readings are finite and their differences far from
    overflow, so infinities and NaN do not occur. *)

(** The integer nearest to [n / d] for [0 <= n] and [0 < d], ties to
    even. *)
Definition round_half_even (n d : Z) : Z :=
  let q := n / d in
  match 2 * (n mod d) ?= d with
  | Lt => q
  | Gt => q + 1
  | Eq => if Z.even q then q else q + 1
  end.

(** The binary64 value nearest to [n / d], for [0 < n] and [0 < d]: 53
    significant bits, or fewer below the smallest normal number. *)
Definition binary64_of_pos (n d : Z) : Q :=
  let e0 := Z.log2 n - Z.log2 d in
  let e := if (if 0 <=? e0 then d * 2 ^ e0 <=? n else d <=? n * 2 ^ (- e0))
           then e0 else e0 - 1 in
  let k := Z.max (e - 52) (-1074) in
  if 0 <=? k
  then inject_Z (round_half_even n (d * 2 ^ k) * 2 ^ k)
  else Qmake (round_half_even (n * 2 ^ (- k)) d) (Z.to_pos (2 ^ (- k))).

Definition binary64_round (x : Q) : Q :=
  match Qnum x with
  | Z0 => 0%Q
  | Zpos n => binary64_of_pos (Zpos n) (Zpos (Qden x))
  | Zneg n => Qopp (binary64_of_pos (Zpos n) (Zpos (Qden x)))
  end.

(** [a - b] on floats. *)
Definition float_sub (a b : Q) : Q := binary64_round (a - b).

(** [int(x)] on a float: truncation toward zero. *)
Definition py_int (x : Q) : Z := Z.quot (Qnum x) (Zpos (Qden x)).

Definition CLIENT_REFRESH_INTERVAL_SECONDS : Z := 27000.
Definition CLIENT_REFRESH_HINT_INTERVAL_SECONDS : Z := 900.

(** [a >= n] for a float [a] and an integer constant [n]. *)
Definition q_geb (a : Q) (n : Z) : bool := Qle_bool (inject_Z n) a.

(* ================================================================== *)
(** ** The program state and its monad *)

(** The outside world, as the program meets it.  Each oracle takes the
    world and gives it back, so answers may depend on everything that
    happened before. *)
Record Oracles (World Client : Type) := mkOracles {
  (** [get_impresso_client()] of getting_client.py, import included *)
  provider : World -> ProviderResult Client * World;
  (** [client.search.facet(dim, term=, date_range=, limit=).raw] *)
  search_facet :
    Client -> string -> string -> option DateRange -> Z -> World ->
    (QueryError + Raw Bucket) * World;
  (** [client.search.find(term=, newspaper_id=, date_range=,
      with_text_contents=, limit=).raw] *)
  search_find :
    Client -> string -> string -> DateRange -> bool -> Z -> World ->
    (QueryError + Raw Hit) * World;
  (** [time.time()], a float, and the passing of time in [time.sleep] *)
  clock : World -> Q * World;
  sleeping : Q -> World -> World;
  (** the index drawn by [random.choice] in a list of the given length *)
  rand_below : nat -> World -> nat * World;
  (** the fate of one rewrite of the result file *)
  write_outcome : World -> WriteOutcome * World;
  (** the message of the ValueError with which [DateRange(start, end)]
      refuses its bounds, if it does *)
  date_range_error : option string -> option string -> option string
}.
Arguments mkOracles {World Client} _ _ _ _ _ _ _ _.
Arguments provider {World Client} _ _.
Arguments search_facet {World Client} _ _ _ _ _ _ _.
Arguments search_find {World Client} _ _ _ _ _ _ _ _.
Arguments clock {World Client} _ _.
Arguments sleeping {World Client} _ _ _.
Arguments rand_below {World Client} _ _ _.
Arguments write_outcome {World Client} _ _.
Arguments date_range_error {World Client} _ _ _.

Section Program.

Variables World Client : Type.
Variable E : Oracles World Client.

(** The variables [client], [last_refresh] and [last_hint] that
    [get_client] shares with [run_all_newsagencies] ([nonlocal]). *)
Record Proxy := mkProxy {
  client : Client;
  last_refresh : Q;
  last_hint : Q
}.

Record State := mkState {
  world : World;
  calls : list Call;               (* effects so far, oldest first *)
  logs : list (Level * Msg);       (* log records so far, oldest first *)
  disk : option string;            (* content of out_path, if it exists *)
  proxy : Proxy
}.

Definition M (A : Type) : Type := State -> Res A * State.

Definition ret {A : Type} (a : A) : M A := fun st => (Ok a, st).

Definition raise {A : Type} (e : PyExn) : M A := fun st => (Raise e, st).

Definition bind {A B : Type} (m : M A) (k : A -> M B) : M B :=
  fun st =>
    match m st with
    | (Ok a, st') => k a st'
    | (Raise e, st') => (Raise e, st')
    end.

(** [try: m  except Exception as e: h e] *)
Definition try_except {A : Type} (m : M A) (h : PyExn -> M A) : M A :=
  fun st =>
    match m st with
    | (Ok a, st') => (Ok a, st')
    | (Raise e, st') => h e st'
    end.

Notation "x <- m ;; k" := (bind m (fun x => k))
  (at level 61, m at next level, right associativity).
Notation "m ;; k" := (bind m (fun _ => k))
  (at level 61, right associativity).

Definition with_world (w : World) (st : State) : State :=
  mkState w (calls st) (logs st) (disk st) (proxy st).
Definition with_disk (d : option string) (st : State) : State :=
  mkState (world st) (calls st) (logs st) d (proxy st).
Definition with_proxy (p : Proxy) (st : State) : State :=
  mkState (world st) (calls st) (logs st) (disk st) p.

Definition record (c : Call) : M unit :=
  fun st =>
    (Ok tt, mkState (world st) (calls st ++ [c]) (logs st) (disk st) (proxy st)).

Definition log (lvl : Level) (m : Msg) : M unit :=
  fun st =>
    (Ok tt,
     mkState (world st) (calls st) (logs st ++ [(lvl, m)]) (disk st) (proxy st)).

Definition get_proxy : M Proxy := fun st => (Ok (proxy st), st).
Definition set_proxy (p : Proxy) : M unit := fun st => (Ok tt, with_proxy p st).

(** A world oracle lifted into the monad. *)
Definition ask {A : Type} (f : World -> A * World) : M A :=
  fun st => let (a, w) := f (world st) in (Ok a, with_world w st).

Definition lift_query {A : Type} (r : QueryError + A) : M A :=
  match r with
  | inl e => raise (Query e)
  | inr a => ret a
  end.

Definition api_facet (c : Client) (dim term : string)
    (date_range : option DateRange) (limit : Z) : M (Raw Bucket) :=
  record (CFacet dim term date_range limit) ;;
  r <- ask (search_facet E c dim term date_range limit) ;;
  lift_query r.

Definition api_find (c : Client) (term newspaper_id : string)
    (date_range : DateRange) (with_text_contents : bool) (limit : Z)
    : M (Raw Hit) :=
  record (CFind term newspaper_id date_range with_text_contents limit) ;;
  r <- ask (search_find E c term newspaper_id date_range with_text_contents limit) ;;
  lift_query r.

Definition time_time : M Q := ask (clock E).

(** [time.sleep(delay)]: a negative length is a ValueError. *)
Definition time_sleep (delay : Q) : M unit :=
  if Qle_bool 0 delay then
    record (CSleep delay) ;;
    ask (fun w => (tt, sleeping E delay w))
  else raise ValueError_sleep.

(** [random.choice(hits)] on a non-empty list. *)
Definition random_choice (first : Hit) (others : list Hit) : M Hit :=
  let hits := first :: others in
  i <- ask (rand_below E (List.length hits)) ;;
  ret (nth (Nat.modulo i (List.length hits)) hits first).

(** [DateRange(start, end)]: raises when the library refuses a bound. *)
Definition new_DateRange (start_date end_date : option string) : M DateRange :=
  match date_range_error E start_date end_date with
  | Some msg => raise (ValueError_date msg)
  | None => ret (mkDateRange start_date end_date)
  end.

(* ================================================================== *)
(** ** [sample_impresso_uids] *)

(** The [client] argument: a client, or a callable returning the current
    one. *)
Inductive ClientArg :=
| Instance (c : Client)
| Callable (f : M Client).

(** A loop body either goes on with the accumulated [sampled_uids] and
    [found], or has executed [return sampled_uids]. *)
Inductive Flow :=
| Next (sampled_uids : list string) (found : Z)
| Return (sampled_uids : list string).

Section Loops.

Variable client_arg : ClientArg.
Variable keyword : string.
Variable limit_per_query : Z.
Variable max_hits : Z.
Variable delay : Q.

Definition get_c : M Client :=
  match client_arg with
  | Callable f => f
  | Instance c => ret c
  end.

(** The [try] block of one (year, newspaper) cell, lines 180-216. *)
Definition try_cell (newspaper_id : string) (date_range : DateRange)
    (sampled_uids : list string) (found : Z) : M Flow :=
  c <- get_c ;;
  results <- api_find c keyword newspaper_id date_range false limit_per_query ;;
  hits <- (match data results with
           | Some l => ret l
           | None => raise TypeError_len      (* [len(hits)], line 193 *)
           end) ;;
  time_sleep delay ;;
  match hits with
  | [] => ret (Next sampled_uids found)
  | h :: hs =>
      hit <- random_choice h hs ;;
      match uid hit with
      | Some (String a u) =>
          let sampled_uids' := sampled_uids ++ [String a u] in
          let found' := found + 1 in
          log INFO (MProgress found' max_hits) ;;
          if found' >=? max_hits then
            log INFO (MReachedMax max_hits) ;;
            ret (Return sampled_uids')
          else ret (Next sampled_uids' found')
      | _ => ret (Next sampled_uids found)
      end
  end.

(** The body of [for paper in newspaper_buckets], lines 172-219. *)
Definition paper_body (year : string) (date_range : DateRange)
    (paper : Bucket) (sampled_uids : list string) (found : Z) : M Flow :=
  match value paper with
  | Some (String a n) =>
      let newspaper_id := String a n in
      try_except
        (try_cell newspaper_id date_range sampled_uids found)
        (fun e =>
           log ERROR (MErrorProcessing newspaper_id year e) ;;
           ret (Next sampled_uids found))
  | _ =>
      log WARNING (MMissingNewspaperId paper) ;;
      ret (Next sampled_uids found)
  end.

Fixpoint papers_loop (year : string) (date_range : DateRange)
    (papers : list Bucket) (sampled_uids : list string) (found : Z)
    : M Flow :=
  match papers with
  | [] => ret (Next sampled_uids found)
  | paper :: rest =>
      f <- paper_body year date_range paper sampled_uids found ;;
      match f with
      | Next sampled_uids' found' =>
          papers_loop year date_range rest sampled_uids' found'
      | Return r => ret (Return r)
      end
  end.

(** The range [DateRange(f"{year}-01-01", f"{year}-12-31")] is, once built. *)
Definition year_range (year : string) : DateRange :=
  mkDateRange (Some (year ++ "-01-01")%string) (Some (year ++ "-12-31")%string).

(** The body of [for year_bucket in sorted_year_buckets], lines 150-219. *)
Definition year_body (year_bucket : Bucket) (sampled_uids : list string)
    (found : Z) : M Flow :=
  match value year_bucket with
  | Some (String a y) =>
      let year := String a y in
      date_range <- new_DateRange (Some (year ++ "-01-01")%string)
                      (Some (year ++ "-12-31")%string) ;;
      log INFO (MFetchingNewspapers year) ;;
      c <- get_c ;;
      newspapers_raw <- api_facet c "newspaper" keyword (Some date_range) 200 ;;
      let newspaper_buckets := get_data newspapers_raw in
      log INFO (MNewspaperFacets year newspapers_raw) ;;
      match newspaper_buckets with
      | [] =>
          log WARNING (MNoNewspapers year) ;;
          ret (Next sampled_uids found)
      | _ => papers_loop year date_range newspaper_buckets sampled_uids found
      end
  | _ => ret (Next sampled_uids found)
  end.

Fixpoint years_loop (years : list Bucket) (sampled_uids : list string)
    (found : Z) : M Flow :=
  match years with
  | [] => ret (Next sampled_uids found)
  | year_bucket :: rest =>
      f <- year_body year_bucket sampled_uids found ;;
      match f with
      | Next sampled_uids' found' => years_loop rest sampled_uids' found'
      | Return r => ret (Return r)
      end
  end.

End Loops.

(** The value of [date_range] after lines 124-129, when they did not
    raise: [DateRange(start_date, end_date)] when one of the two is
    given, else no range. *)
Definition initial_range (start_date end_date : option string)
    : option DateRange :=
  if truthy start_date || truthy end_date
  then Some (mkDateRange start_date end_date)
  else None.

(** Lines 124-129. *)
Definition make_initial_range (start_date end_date : option string)
    : M (option DateRange) :=
  if truthy start_date || truthy end_date then
    date_range <- new_DateRange start_date end_date ;;
    log INFO (MUsingDateRange date_range) ;;
    ret (Some date_range)
  else
    log INFO MNoDateRange ;;
    ret None.

Definition sample_impresso_uids (client_arg : ClientArg) (keyword : string)
    (start_date end_date : option string)
    (limit_per_query max_hits : Z) (delay : Q) : M (list string) :=
  log INFO (MStartSampling keyword) ;;
  if negb ((0 <? limit_per_query) && (limit_per_query <=? 100)) then
    log ERROR (MInvalidLimit limit_per_query) ;;
    raise (ValueError_limit limit_per_query)
  else
    date_range <- make_initial_range start_date end_date ;;
    year_hits <-
      try_except
        (c <- get_c client_arg ;;
         api_facet c "year" keyword date_range 200)
        (fun e => log ERROR (MFailedYearFacets e) ;; raise e) ;;
    let year_buckets := get_data year_hits in
    match year_buckets with
    | [] =>
        log WARNING (MNoHits keyword) ;;
        ret []
    | _ =>
        sorted_year_buckets <-
          (match sorted_by_value year_buckets with
           | Ok l => ret l
           | Raise e => raise e
           end) ;;
        log INFO (MFoundYears (List.length sorted_year_buckets) keyword) ;;
        log INFO (MYearsFound (map value sorted_year_buckets)) ;;
        f <- years_loop client_arg keyword limit_per_query max_hits delay
               sorted_year_buckets [] 0 ;;
        match f with
        | Return r => ret r
        | Next sampled_uids _ =>
            log INFO (MSamplingCompleted (List.length sampled_uids) keyword) ;;
            ret sampled_uids
        end
    end.


(* ================================================================== *)
(** ** The refreshing client accessor *)

(** [from getting_client import get_impresso_client] followed by
    [return get_impresso_client()]: one attempt. *)
Definition import_and_call : M Client :=
  record CProvider ;;
  r <- ask (provider E) ;;
  match r with
  | ImportFails msg => raise (ProviderError msg)
  | CallFails msg => log INFO MImported ;; raise (ProviderError msg)
  | Acquired c => log INFO MImported ;; ret c
  end.

(** Lines 228-245: a failed attempt is tried once more before giving up
    with an ImportError. *)
Definition _get_impresso_client_lazy : M Client :=
  try_except import_and_call
    (fun e1 =>
       log WARNING (MImportFailed e1) ;;
       try_except import_and_call
         (fun e2 =>
            log ERROR (MImportFailed e2) ;;
            raise (ImportError_client e2))).

Definition TTL : Z := CLIENT_REFRESH_INTERVAL_SECONDS.

(** Lines 298-305: the periodic hint about the time left till refresh. *)
Definition hint_if_due (now : Q) : M unit :=
  p <- get_proxy ;;
  if q_geb (float_sub now (last_hint p)) CLIENT_REFRESH_HINT_INTERVAL_SECONDS then
    let time_left := Z.max 0 (TTL - py_int (float_sub now (last_refresh p))) in
    let hrs := time_left / 3600 in
    let mins := (time_left mod 3600) / 60 in
    let secs := time_left mod 60 in
    log INFO (MTimeToRecreation hrs mins secs) ;;
    set_proxy (mkProxy (client p) (last_refresh p) now)
  else ret tt.

(** Lines 306-314: the refresh itself.  [last_refresh] is reset whether
    the acquisition succeeded or not. *)
Definition refresh_if_due (now : Q) : M unit :=
  p <- get_proxy ;;
  if q_geb (float_sub now (last_refresh p)) TTL then
    log INFO MRefreshing ;;
    try_except
      (c <- _get_impresso_client_lazy ;;
       p1 <- get_proxy ;;
       set_proxy (mkProxy c (last_refresh p1) (last_hint p1)) ;;
       log INFO MRefreshed)
      (fun e => log ERROR (MRefreshFailed e)) ;;
    p2 <- get_proxy ;;
    set_proxy (mkProxy (client p2) now (last_hint p2))
  else ret tt.

(** Lines 295-315. *)
Definition get_client : M Client :=
  now <- time_time ;;
  hint_if_due now ;;
  refresh_if_due now ;;
  p <- get_proxy ;;
  ret (client p).

(* ================================================================== *)
(** ** The campaign loop *)

(** [with open(out_path, "w") as f: json.dump(results, f, ...)].
    Opening for writing truncates the file; the text then reaches it from
    the front.  A failure of [open] leaves the file as it was, a failure
    later leaves what had been written. *)
Definition write_results (results : Dict) : M unit :=
  let content := json_dumps results in
  record (CWrite content) ;;
  o <- ask (write_outcome E) ;;
  match o with
  | WriteOk => fun st => (Ok tt, with_disk (Some content) st)
  | OpenFails msg => raise (OSError msg)
  | WriteFails n msg =>
      fun st => (Raise (OSError msg), with_disk (Some (substring 0 n content)) st)
  end.

(** Lines 345-351. *)
Definition persist (results : Dict) : M unit :=
  try_except
    (write_results results ;; log INFO MSaved)
    (fun e => log ERROR (MWriteFailed e)).

Section Campaign.

Variable limit_per_query : Z.
Variable max_hits : Z.
Variable delay : Q.
Variables start_date end_date : option string.

(** Lines 328-351: one agency that is not skipped. *)
Definition process_agency (idx total : nat) (agency : string)
    (results : Dict) : M Dict :=
  log INFO (MProcessing idx total agency) ;;
  results' <-
    try_except
      (doc_ids <- sample_impresso_uids (Callable get_client) agency
                    start_date end_date limit_per_query max_hits delay ;;
       log INFO (MCollected (List.length doc_ids) agency) ;;
       ret (dict_set agency doc_ids results))
      (fun e =>
         log ERROR (MFailedProcessing agency e) ;;
         ret (dict_set agency [] results)) ;;
  persist results' ;;
  ret results'.

(** [for idx, agency in enumerate(agencies, start=1)], lines 322-351.
    The values of [results] are lists by construction, so the
    [isinstance] test of line 324 is always true. *)
Fixpoint agencies_loop (idx total : nat) (agencies : list string)
    (results : Dict) : M Dict :=
  match agencies with
  | [] => ret results
  | agency :: rest =>
      match dict_get agency results with
      | Some (u :: us) =>
          log INFO (MSkipping agency (List.length (u :: us))) ;;
          agencies_loop (S idx) total rest results
      | _ =>
          results' <- process_agency idx total agency results ;;
          agencies_loop (S idx) total rest results'
      end
  end.

(** Lines 284-353.  [results] is the mapping the load step (lines 264-275)
    produced: empty when the file is absent, unreadable or not a JSON
    object.  [agencies] is the list read from the input file (line 282). *)
Definition run_all_newsagencies (results : Dict) (agencies : list string)
    : M unit :=
  match agencies with
  | [] => log WARNING MNoAgencies
  | _ =>
      log INFO (MStartProcessing (List.length agencies)) ;;
      c <- _get_impresso_client_lazy ;;
      t <- time_time ;;
      set_proxy (mkProxy c t t) ;;
      c' <- _get_impresso_client_lazy ;;
      t' <- time_time ;;
      set_proxy (mkProxy c' t' t') ;;
      agencies_loop 1 (List.length agencies) agencies results ;;
      log INFO MAllProcessed
  end.

End Campaign.

End Program.

Arguments mkProxy {Client} _ _ _.
Arguments client {Client} _.
Arguments last_refresh {Client} _.
Arguments last_hint {Client} _.
Arguments mkState {World Client} _ _ _ _ _.
Arguments world {World Client} _.
Arguments calls {World Client} _.
Arguments logs {World Client} _.
Arguments disk {World Client} _.
Arguments proxy {World Client} _.
Arguments Instance {World Client} _.
Arguments Callable {World Client} _.
Arguments ret {World Client A} _ _.
Arguments raise {World Client A} _ _.
Arguments bind {World Client A B} _ _ _.
Arguments try_except {World Client A} _ _ _.
Arguments record {World Client} _ _.
Arguments log {World Client} _ _ _.
Arguments ask {World Client A} _ _.
Arguments get_proxy {World Client} _.
Arguments set_proxy {World Client} _ _.
Arguments with_world {World Client} _ _.
Arguments with_disk {World Client} _ _.
Arguments with_proxy {World Client} _ _.
Arguments lift_query {World Client A} _ _.
Arguments api_facet {World Client} E _ _ _ _ _ _.
Arguments api_find {World Client} E _ _ _ _ _ _ _.
Arguments time_time {World Client} E _.
Arguments time_sleep {World Client} E _ _.
Arguments random_choice {World Client} E _ _ _.
Arguments new_DateRange {World Client} E _ _ _.
Arguments make_initial_range {World Client} E _ _ _.
Arguments get_c {World Client} _ _.
Arguments try_cell {World Client} E _ _ _ _ _ _ _ _ _ _.
Arguments paper_body {World Client} E _ _ _ _ _ _ _ _ _ _ _.
Arguments papers_loop {World Client} E _ _ _ _ _ _ _ _ _ _ _.
Arguments year_body {World Client} E _ _ _ _ _ _ _ _ _.
Arguments years_loop {World Client} E _ _ _ _ _ _ _ _ _.
Arguments sample_impresso_uids {World Client} E _ _ _ _ _ _ _ _.
Arguments import_and_call {World Client} E _.
Arguments _get_impresso_client_lazy {World Client} E _.
Arguments hint_if_due {World Client} _ _.
Arguments refresh_if_due {World Client} E _ _.
Arguments get_client {World Client} E _.
Arguments write_results {World Client} E _ _.
Arguments persist {World Client} E _ _.
Arguments process_agency {World Client} E _ _ _ _ _ _ _ _ _ _.
Arguments agencies_loop {World Client} E _ _ _ _ _ _ _ _ _ _.
Arguments run_all_newsagencies {World Client} E _ _ _ _ _ _ _ _.

(* ================================================================== *)
(** ** A concrete world, for running the program *)

Module Fixture.

(** The world is the time in seconds; a client carries the time at which
    it was acquired. *)
Definition World := Z.
Definition Client := Z.

Definition year_data (term : string) : QueryError + Raw Bucket :=
  if String.eqb term "agencyA" || String.eqb term "agencyE"
     || String.eqb term "agencyH" then
    inr (mkRaw (Some [mkBucket (Some "1921"%string) 1;
                      mkBucket (Some "1920"%string) 1]))
  else if String.eqb term "agencyB" then inr (mkRaw (Some []))
  else if String.eqb term "agencyC" then
    inr (mkRaw (Some [mkBucket None 1; mkBucket (Some "1920"%string) 1]))
  else if String.eqb term "agencyD" then
    inr (mkRaw (Some [mkBucket (Some "1930"%string) 1]))
  else if String.eqb term "agencyF" then
    inr (mkRaw (Some [mkBucket (Some "n/a"%string) 1]))
  else if String.eqb term "agencyG" then
    inr (mkRaw (Some [mkBucket None 1]))
  else inl (TransientQueryError "503"%string).

Definition newspaper_data (term : string) : QueryError + Raw Bucket :=
  if String.eqb term "agencyD" then inl (PermanentQueryError "400"%string)
  else
    inr (mkRaw (Some [mkBucket (Some "JDG"%string) 1; mkBucket (Some "GDL"%string) 1])).

Definition facet (c : Client) (dim term : string) (dr : option DateRange)
    (limit : Z) (w : World) : (QueryError + Raw Bucket) * World :=
  if String.eqb dim "year" then (year_data term, w) else (newspaper_data term, w).

Definition find (c : Client) (term newspaper_id : string) (dr : DateRange)
    (with_text : bool) (limit : Z) (w : World)
    : (QueryError + Raw Hit) * World :=
  if String.eqb term "agencyE" && String.eqb newspaper_id "JDG" then
    (inl (TransientQueryError "502"%string), w)
  else if String.eqb term "agencyH" then (inr (mkRaw None), w)
  else
    match dr_start dr with
    | Some d => (inr (mkRaw (Some [mkHit (Some (newspaper_id ++ "-" ++ d)%string)])), w)
    | None => (inr (mkRaw (Some [mkHit None])), w)
    end.

(** Every reading of the clock takes a second; sleeping takes whole
    seconds. *)
Definition tick (w : World) : Q * World := (inject_Z w, w + 1).
Definition nap (d : Q) (w : World) : World := w + py_int d.

(** [DateRange] accepts the bounds that read YYYY-MM-DD. *)
Definition is_digit (c : ascii) : bool :=
  (48 <=? nat_of_ascii c)%nat && (nat_of_ascii c <=? 57)%nat.

Definition reads_as_date (s : string) : bool :=
  match list_ascii_of_string s with
  | [y1; y2; y3; y4; h1; m1; m2; h2; d1; d2] =>
      forallb is_digit [y1; y2; y3; y4; m1; m2; d1; d2]
      && Ascii.eqb h1 "-" && Ascii.eqb h2 "-"
  | _ => false
  end.

Definition refused (bound : option string) : option string :=
  match bound with
  | Some s => if reads_as_date s then None else Some ("Invalid date: " ++ s)%string
  | None => None
  end.

Definition range_error (start_date end_date : option string) : option string :=
  match refused start_date with
  | Some msg => Some msg
  | None => refused end_date
  end.

Definition oracles : Oracles World Client :=
  mkOracles
    (fun w => (Acquired w, w))
    facet find tick nap
    (fun n w => (O, w))
    (fun w => (WriteOk, w))
    range_error.

(** A provider that is down. *)
Definition oracles_down : Oracles World Client :=
  mkOracles
    (fun w => (CallFails "login failed"%string, w))
    facet find tick nap
    (fun n w => (O, w))
    (fun w => (WriteOk, w))
    range_error.

(** A disk that is full after twelve characters. *)
Definition oracles_full : Oracles World Client :=
  mkOracles
    (fun w => (Acquired w, w))
    facet find tick nap
    (fun n w => (O, w))
    (fun w => (WriteFails 12 "No space left on device"%string, w))
    range_error.

Definition state0 (now : Z) : State World Client :=
  mkState now [] [] None (mkProxy 0 0%Q 0%Q).

(** Runs and data the examples share. *)
Definition sample_with (keyword : string) (max_hits : Z)
    : Res (list string) * State World Client :=
  sample_impresso_uids oracles (Instance 0) keyword None None 20 max_hits 1%Q
    (state0 0).

Definition JDG : Bucket := mkBucket (Some "JDG"%string) 1.
Definition GDL : Bucket := mkBucket (Some "GDL"%string) 1.

Definition loaded : Dict := [("agencyA", ["u"])]%string.

End Fixture.

(* ================================================================== *)
(** * Vocabulary of the properties *)

(** ** Order and arrangement of buckets *)

Definition str_le (x y : string) : Prop := String.leb x y = true.





(** ** Reading the recorded calls *)

Definition is_source_facet (c : Call) : bool :=
  match c with
  | CFacet dim _ _ _ => String.eqb dim "newspaper"
  | _ => false
  end.



Definition nonempty (u : string) : Prop := u <> EmptyString.

Definition is_query (e : PyExn) : Prop := exists q, e = Query q.

Definition is_date_error (e : PyExn) : Prop := exists msg, e = ValueError_date msg.

(** The exceptions that leave the loop over the years. *)
Definition year_exn (e : PyExn) : Prop := is_query e \/ is_date_error e.

(** [DateRange] builds the range of lines 124-125, if it is asked to. *)
Definition range_accepted {World Client : Type} (E : Oracles World Client)
    (start_date end_date : option string) : Prop :=
  truthy start_date || truthy end_date = true ->
  date_range_error E start_date end_date = None.

(** [DateRange] builds the range of the year (line 156). *)
Definition year_accepted {World Client : Type} (E : Oracles World Client)
    (year : string) : Prop :=
  date_range_error E (Some (year ++ "-01-01")%string)
    (Some (year ++ "-12-31")%string) = None.

(** Calls and log lines that do not concern the agency [K]. *)
Definition campaign_call (K : string) (c : Call) : Prop :=
  match c with
  | CFacet _ term _ _ => term <> K
  | CFind term _ _ _ _ => term <> K
  | _ => True
  end.

Definition campaign_log (K : string) (l : Level * Msg) : Prop :=
  match snd l with
  | MStartSampling k => k <> K
  | MProcessing _ _ k => k <> K
  | _ => True
  end.

(** An agency is done when it has a non-empty list already (line 324). *)
Definition done (agency : string) (results : Dict) : bool :=
  match dict_get agency results with
  | Some (_ :: _) => true
  | _ => false
  end.

(** What a client accessor may do on the way: ask the session provider,
    and log anything but the lines of the sampler and of the campaign. *)
Definition quiet_call (c : Call) : Prop := c = CProvider.

Definition quiet_log (l : Level * Msg) : Prop :=
  match snd l with
  | MStartSampling _ | MProcessing _ _ _ | MSkipping _ _ => False
  | _ => True
  end.

Section Vocabulary.

Variables World Client : Type.

(** The state in which the time-facet query is prepared: the two INFO
    lines of the start have been written. *)
Definition entered (keyword : string) (start_date end_date : option string)
    (st : State World Client) : State World Client :=
  mkState (world st) (calls st)
    (logs st ++
     [(INFO, MStartSampling keyword);
      (INFO, match initial_range start_date end_date with
             | Some dr => MUsingDateRange dr
             | None => MNoDateRange
             end)])
    (disk st) (proxy st).

(** The state in which the time-facet query, asked in [st1], has been
    answered and left the world [w]. *)
Definition answered (keyword : string) (start_date end_date : option string)
    (st1 : State World Client) (w : World) : State World Client :=
  mkState w
    (calls st1 ++
     [CFacet "year" keyword (initial_range start_date end_date) 200])
    (logs st1) (disk st1) (proxy st1).

(** The state in which the loop over the years starts: the two INFO lines
    about the sorted buckets have been written. *)
Definition years_entry (keyword : string) (start_date end_date : option string)
    (st1 : State World Client) (w : World) (sorted : list Bucket)
    : State World Client :=
  mkState w
    (calls st1 ++
     [CFacet "year" keyword (initial_range start_date end_date) 200])
    (logs st1 ++
     [(INFO, MFoundYears (List.length sorted) keyword);
      (INFO, MYearsFound (map value sorted))])
    (disk st1) (proxy st1).

(** The state in which the client is asked for at the start of a year. *)
Definition year_entered (year : string) (st : State World Client)
    : State World Client :=
  mkState (world st) (calls st)
    (logs st ++ [(INFO, MFetchingNewspapers year)]) (disk st) (proxy st).

(** How [sample_impresso_uids] ends once the loop over the years is over:
    the [return] of line 214, the end of lines 221-225, or the exception
    that left the loop. *)
Definition sample_end (keyword : string) (r : Res Flow * State World Client)
    : Res (list string) * State World Client :=
  match r with
  | (Ok (Return l), st) => (Ok l, st)
  | (Ok (Next l _), st) =>
      (Ok l,
       mkState (world st) (calls st)
         (logs st ++ [(INFO, MSamplingCompleted (List.length l) keyword)])
         (disk st) (proxy st))
  | (Raise e, st) => (Raise e, st)
  end.

(** [st'] is [st] with more calls, all in [P], and more log lines, all in
    [Q]. *)
Definition extends (P : Call -> Prop) (Q : Level * Msg -> Prop)
    (st st' : State World Client) : Prop :=
  exists nc nl,
    calls st' = calls st ++ nc /\ logs st' = logs st ++ nl /\
    Forall P nc /\ Forall Q nl.

(** [m] adds only calls in [P] and log lines in [Q], and raises only
    exceptions in [X]. *)
Definition frames {A : Type} (P : Call -> Prop) (Q : Level * Msg -> Prop)
    (X : PyExn -> Prop) (m : M World Client A) : Prop :=
  forall st,
    extends P Q st (snd (m st)) /\
    forall e, fst (m st) = Raise e -> X e.

(** A client accessor is quiet when it always hands a client back and
    does nothing but ask the session provider on the way. *)
Definition client_ok (ca : ClientArg World Client) : Prop :=
  frames quiet_call quiet_log (fun _ => False) (get_c ca).

Variable keyword : string.
Variable limit_per_query : Z.
Variable max_hits : Z.
Variable delay : Q.

(** The last effects of [st] are the search of one cell and the pause
    after it. *)
Definition ends_with_cell (st : State World Client) : Prop :=
  exists before newspaper_id date_range,
    calls st = before ++
      [CFind keyword newspaper_id date_range false limit_per_query; CSleep delay].

(** What one loop body can hand back, whatever the client does. *)
Definition body_outcome (s : list string) (f : Z) (r : Res Flow)
    (st' : State World Client) (may_raise : Prop) : Prop :=
  match r with
  | Ok (Next s' f') =>
      (s' = s /\ f' = f) \/
      (exists u, nonempty u /\ s' = s ++ [u] /\ f' = f + 1 /\ f + 1 < max_hits)
  | Ok (Return r') =>
      exists u, nonempty u /\ r' = s ++ [u] /\ max_hits <= f + 1 /\
                ends_with_cell st'
  | Raise _ => may_raise
  end.

(** The loop invariant on [sampled_uids] and [found]. *)
Definition Inv (s : list string) (f : Z) : Prop :=
  Forall nonempty s /\ f = Z.of_nat (List.length s) /\
  (0 < max_hits -> f < max_hits).

(** What a loop hands back when it was entered under the invariant. *)
Definition loop_outcome (r : Res Flow) (st' : State World Client)
    (may_raise : Prop) : Prop :=
  match r with
  | Ok (Next s' f') => Inv s' f'
  | Ok (Return r') =>
      Forall nonempty r' /\
      (0 < max_hits ->
       Z.of_nat (List.length r') = max_hits /\ ends_with_cell st')
  | Raise _ => may_raise
  end.

(** The calls and log lines of sampling one keyword. *)
Definition sampler_call (c : Call) : Prop :=
  match c with
  | CProvider => True
  | CFacet _ term _ _ => term = keyword
  | CFind term _ _ _ _ => term = keyword
  | CSleep _ => True
  | CWrite _ => False
  end.

Definition sampler_log (l : Level * Msg) : Prop :=
  match snd l with
  | MStartSampling k => k = keyword
  | MProcessing _ _ _ | MSkipping _ _ => False
  | _ => True
  end.

(** The calls of one (year, newspaper) cell: no facet among them. *)
Definition cell_call (c : Call) : Prop :=
  match c with
  | CProvider => True
  | CFind term _ _ _ _ => term = keyword
  | CSleep _ => True
  | CFacet _ _ _ _ | CWrite _ => False
  end.

(** The exceptions that leave [sample_impresso_uids]. *)
Definition sample_exn (e : PyExn) : Prop :=
  (e = ValueError_limit limit_per_query /\
   ~ (1 <= limit_per_query <= 100)) \/
  is_query e \/ e = TypeError_compare \/ is_date_error e.

Definition source_facet_of (year : string) : Call :=
  CFacet "newspaper" keyword (Some (year_range year)) 200.

Definition find_of (date_range : DateRange) (newspaper_id : string) : Call :=
  CFind keyword newspaper_id date_range false limit_per_query.

End Vocabulary.

Arguments nonempty _ /.
Arguments done agency results /.
Arguments entered {World Client} _ _ _ _.
Arguments answered {World Client} _ _ _ _ _.
Arguments years_entry {World Client} _ _ _ _ _ _.
Arguments year_entered {World Client} _ _.
Arguments sample_end {World Client} _ _.
Arguments extends {World Client} _ _ _ _.
Arguments frames {World Client A} _ _ _ _.
Arguments client_ok {World Client} _.
Arguments ends_with_cell {World Client} _ _ _ _.
Arguments body_outcome {World Client} _ _ _ _ _ _ _ _ _.
Arguments loop_outcome {World Client} _ _ _ _ _ _ _.
Arguments source_facet_of keyword year /.
Arguments find_of keyword limit_per_query date_range newspaper_id /.

(* ================================================================== *)
(** * Vocabulary of the further properties *)

(** The calls a run of the sampler can make, one shape per call site. *)
Definition sample_call_shape (keyword : string)
    (start_date end_date : option string) (limit_per_query : Z) (delay : Q)
    (c : Call) : Prop :=
  c = CProvider \/
  c = CSleep delay \/
  c = CFacet "year" keyword (initial_range start_date end_date) 200 \/
  (exists year,
      year <> EmptyString /\
      c = CFacet "newspaper" keyword (Some (year_range year)) 200) \/
  (exists year newspaper_id,
      year <> EmptyString /\ newspaper_id <> EmptyString /\
      c = CFind keyword newspaper_id (year_range year) false limit_per_query).

Section CellVocabulary.

Variable max_hits : Z.
Variable delay : Q.

(** What one cell does to [sampled_uids] and [found]: nothing, or one UID
    after a pause that could be taken. *)
Definition cell_step (s : list string) (f : Z) (r : Res Flow) : Prop :=
  r = Ok (Next s f) \/
  exists u,
    u <> EmptyString /\
    Qle_bool 0 delay = true /\
    ((r = Ok (Next (s ++ [u]) (f + 1)) /\ f + 1 < max_hits) \/
     (r = Ok (Return (s ++ [u])) /\ max_hits <= f + 1)).

(** The loop invariant: [found] counts the UIDs so far, and none of them
    reached the cap. *)
Definition Going (s : list string) (f : Z) : Prop :=
  Forall nonempty s /\
  f = Z.of_nat (List.length s) /\
  (s <> [] -> Qle_bool 0 delay = true /\ f < max_hits).

(** A list handed back by [return]: the cap was reached by its last UID. *)
Definition Capped (r : list string) : Prop :=
  exists s u,
    r = s ++ [u] /\ Going s (Z.of_nat (List.length s)) /\
    u <> EmptyString /\
    Qle_bool 0 delay = true /\ max_hits <= Z.of_nat (List.length s) + 1.

Definition flow_ok (r : Res Flow) : Prop :=
  match r with
  | Ok (Next s f) => Going s f
  | Ok (Return r') => Capped r'
  | Raise _ => True
  end.

End CellVocabulary.

(** ** A world that keeps the answers to the finds *)

(** One answered find: the call and the raw response. *)
Definition Answer : Type := (Call * Raw Hit)%type.

(** The list of UIDs a loop body hands on. *)
Definition uids_of (fl : Flow) : list string :=
  match fl with
  | Next s _ => s
  | Return s => s
  end.

(** [u] is the uid of a hit in one of the answers [l] to a find for the
    keyword. *)
Definition hit_of (keyword : string) (limit_per_query : Z) (l : list Answer)
    (u : string) : Prop :=
  exists newspaper_id date_range raw hit,
    In (CFind keyword newspaper_id date_range false limit_per_query, raw) l /\
    In hit (get_data raw) /\ uid hit = Some u.

Section Records.

Variables World Client : Type.
Variable E : Oracles World Client.

(** What the world remembers of the finds answered so far. *)
Variable answers : World -> list Answer.

(** The record is faithful: every answered find is added to it, with its
    answer, and nothing else changes it. *)
Definition records_finds : Prop :=
  (forall c term newspaper_id dr wt limit w,
      answers (snd (search_find E c term newspaper_id dr wt limit w)) =
      answers w ++
      match fst (search_find E c term newspaper_id dr wt limit w) with
      | inr raw => [(CFind term newspaper_id dr wt limit, raw)]
      | inl _ => []
      end) /\
  (forall w, answers (snd (provider E w)) = answers w) /\
  (forall c dim term dr limit w,
      answers (snd (search_facet E c dim term dr limit w)) = answers w) /\
  (forall w, answers (snd (clock E w)) = answers w) /\
  (forall d w, answers (sleeping E d w) = answers w) /\
  (forall n w, answers (snd (rand_below E n w)) = answers w) /\
  (forall w, answers (snd (write_outcome E w)) = answers w).

(** The client accessor leaves the record alone. *)
Definition keeps_record (ca : ClientArg World Client) : Prop :=
  forall st, answers (world (snd (get_c ca st))) = answers (world st).

(** What a loop or a loop body adds: answers to the record, and UIDs that
    come from them. *)
Definition adds (keyword : string) (limit_per_query : Z) (s : list string)
    (st : State World Client) (r : Res Flow) (st' : State World Client)
    : Prop :=
  exists new,
    answers (world st') = answers (world st) ++ new /\
    match r with
    | Ok fl =>
        exists added,
          uids_of fl = s ++ added /\
          Forall (hit_of keyword limit_per_query new) added
    | Raise _ => True
    end.

(** From [st] to [st'] the record grew by answers to finds that are
    among the calls made in between. *)
Definition tied (st st' : State World Client) : Prop :=
  exists new new_calls,
    answers (world st') = answers (world st) ++ new /\
    calls st' = calls st ++ new_calls /\
    Forall (fun a : Answer => In (fst a) new_calls) new.

Definition keeps_tied {A : Type} (m : M World Client A) : Prop :=
  forall st, tied st (snd (m st)).

(** Any world can be made to keep the record, beside what it is. *)
Definition recording : Oracles (World * list Answer) Client :=
  mkOracles
    (fun wl => let (r, w) := provider E (fst wl) in (r, (w, snd wl)))
    (fun c dim term dr limit wl =>
       let (r, w) := search_facet E c dim term dr limit (fst wl) in
       (r, (w, snd wl)))
    (fun c term newspaper_id dr wt limit wl =>
       let (r, w) := search_find E c term newspaper_id dr wt limit (fst wl) in
       (r, (w, snd wl ++
               match r with
               | inr raw => [(CFind term newspaper_id dr wt limit, raw)]
               | inl _ => []
               end)))
    (fun wl => let (t, w) := clock E (fst wl) in (t, (w, snd wl)))
    (fun d wl => (sleeping E d (fst wl), snd wl))
    (fun n wl => let (i, w) := rand_below E n (fst wl) in (i, (w, snd wl)))
    (fun wl => let (o, w) := write_outcome E (fst wl) in (o, (w, snd wl)))
    (date_range_error E).

End Records.

Arguments records_finds {World Client} E answers.
Arguments keeps_record {World Client} answers ca.
Arguments adds {World Client} answers keyword limit_per_query s st r st'.
Arguments tied {World Client} answers st st'.
Arguments keeps_tied {World Client} answers {A} m.
Arguments recording {World Client} E.

(** The fixture world, made to keep the record of the finds it answers. *)
Module RecordedFixture.

Definition World : Type := (Fixture.World * list Answer)%type.

Definition oracles : Oracles World Fixture.Client := recording Fixture.oracles.

Definition state0 (now : Z) : State World Fixture.Client :=
  mkState (now, []) [] [] None (mkProxy 0 0%Q 0%Q).

Definition sample_with (keyword : string) (max_hits : Z)
    : Res (list string) * State World Fixture.Client :=
  sample_impresso_uids oracles (Instance 0) keyword None None 20 max_hits 1%Q
    (state0 0).

End RecordedFixture.

(** [m] leaves the result file as it is. *)
Definition keeps_disk {World Client A : Type} (m : M World Client A) : Prop :=
  forall st, disk (snd (m st)) = disk st.

(** The message with which an attempt of the provider failed, if it did. *)
Definition failure {Client : Type} (r : ProviderResult Client) : option string :=
  match r with
  | ImportFails msg => Some msg
  | CallFails msg => Some msg
  | Acquired _ => None
  end.

(** Every rewrite of the result file goes through. *)
Definition writes_succeed {World Client : Type} (E : Oracles World Client)
    : Prop :=
  forall w, fst (write_outcome E w) = WriteOk.

(** Client and [last_refresh] are the same in the two states. *)
Definition proxy_same_client {World Client : Type}
    (st st' : State World Client) : Prop :=
  client (proxy st') = client (proxy st) /\
  last_refresh (proxy st') = last_refresh (proxy st).

(* ================================================================== *)
(** * Text helpers: [str.strip], token cleaning, the list of agencies *)

(** In this part a Python [str] is the list of its code points. *)
Definition pystr := list N.

Definition cp (c : ascii) : N := N_of_ascii c.

(** [str.isspace] on one character, which is also what [\s] matches in a
    pattern on [str]: the table of [_PyUnicode_IsWhitespace]. *)
Definition is_space (c : N) : bool :=
  existsb (fun r => (fst r <=? c)%N && (c <=? snd r)%N)
    [(0x09, 0x0D); (0x1C, 0x1F); (0x20, 0x20); (0x85, 0x85); (0xA0, 0xA0);
     (0x1680, 0x1680); (0x2000, 0x200A); (0x2028, 0x2029); (0x202F, 0x202F);
     (0x205F, 0x205F); (0x3000, 0x3000)]%N.

Fixpoint lstrip (p : N -> bool) (s : pystr) : pystr :=
  match s with
  | [] => []
  | c :: s' => if p c then lstrip p s' else s
  end.

Definition rstrip (p : N -> bool) (s : pystr) : pystr :=
  rev (lstrip p (rev s)).

(** [s.strip(chars)]; [s.strip()] is [strip is_space s]. *)
Definition strip (p : N -> bool) (s : pystr) : pystr := rstrip p (lstrip p s).

(** [s.replace(c, '')] for a one-character [c]. *)
Definition remove_char (c : N) (s : pystr) : pystr :=
  filter (fun x => negb (x =? c)%N) s.

Definition double_quote : N := 34.
Definition single_quote : N := 39.
Definition ZWSP : N := 0x200B.
Definition ZWNJ : N := 0x200C.
Definition BOM : N := 0xFEFF.

Definition remove_zero_width (s : pystr) : pystr :=
  remove_char BOM (remove_char ZWNJ (remove_char ZWSP s)).

(** getting_client.py, lines 187-196. *)
Definition _clean_token_artifacts (s : option pystr) : option pystr :=
  match s with
  | None => None
  | Some s =>
      let s := strip (N.eqb single_quote)
                 (strip (N.eqb double_quote) (strip is_space s)) in
      let s := remove_zero_width s in
      let s := remove_zero_width s in
      Some (filter (fun c => negb (is_space c)) s)
  end.

(** sampling_articles.py, line 282: the stripped lines that are neither
    empty nor comments. *)
Definition read_agencies (lines : list pystr) : list pystr :=
  map (strip is_space)
    (filter (fun line =>
               match strip is_space line with
               | [] => false
               | c :: _ => negb (c =? cp "#")%N
               end) lines).

(** ** Patterns *)

Inductive regex :=
| Empty
| Eps
| Chr (c : N)
| Class (ranges : list (N * N))
| Seq (r1 r2 : regex)
| Alt (r1 r2 : regex)
| Star (r : regex).

Definition in_class (c : N) (ranges : list (N * N)) : bool :=
  existsb (fun r => (fst r <=? c)%N && (c <=? snd r)%N) ranges.

(** [r+] and [r{n,}]. *)
Definition Plus (r : regex) : regex := Seq r (Star r).

Fixpoint at_least (n : nat) (r : regex) : regex :=
  match n with
  | O => Star r
  | S n' => Seq r (at_least n' r)
  end.

Fixpoint literal (s : pystr) : regex :=
  match s with
  | [] => Eps
  | c :: s' => Seq (Chr c) (literal s')
  end.

Fixpoint nullable (r : regex) : bool :=
  match r with
  | Empty => false
  | Eps => true
  | Chr _ => false
  | Class _ => false
  | Seq r1 r2 => nullable r1 && nullable r2
  | Alt r1 r2 => nullable r1 || nullable r2
  | Star _ => true
  end.

(** The residual of [r] after the character [c]. *)
Fixpoint deriv (c : N) (r : regex) : regex :=
  match r with
  | Empty => Empty
  | Eps => Empty
  | Chr c' => if (c =? c')%N then Eps else Empty
  | Class ranges => if in_class c ranges then Eps else Empty
  | Seq r1 r2 =>
      if nullable r1
      then Alt (Seq (deriv c r1) r2) (deriv c r2)
      else Seq (deriv c r1) r2
  | Alt r1 r2 => Alt (deriv c r1) (deriv c r2)
  | Star r1 => Seq (deriv c r1) (Star r1)
  end.

(** [re.fullmatch(r, s) is not None]. *)
Fixpoint fullmatch (r : regex) (s : pystr) : bool :=
  match s with
  | [] => nullable r
  | c :: s' => fullmatch (deriv c r) s'
  end.

(** The strings a pattern denotes. *)
Inductive matches : regex -> pystr -> Prop :=
| MEps : matches Eps []
| MChr c : matches (Chr c) [c]
| MClass c ranges : in_class c ranges = true -> matches (Class ranges) [c]
| MSeq r1 r2 s1 s2 :
    matches r1 s1 -> matches r2 s2 -> matches (Seq r1 r2) (s1 ++ s2)
| MAltL r1 r2 s : matches r1 s -> matches (Alt r1 r2) s
| MAltR r1 r2 s : matches r2 s -> matches (Alt r1 r2) s
| MStarNil r : matches (Star r) []
| MStarApp r s1 s2 :
    matches r s1 -> matches (Star r) s2 -> matches (Star r) (s1 ++ s2).

(** [[A-Za-z0-9_-]] *)
Definition base64ish_class : list (N * N) :=
  [(cp "A", cp "Z"); (cp "a", cp "z"); (cp "0", cp "9");
   (cp "_", cp "_"); (cp "-", cp "-")].

(** [[a-fA-F0-9]] *)
Definition hex_class : list (N * N) :=
  [(cp "a", cp "f"); (cp "A", cp "F"); (cp "0", cp "9")].

(** [eyJ[A-Za-z0-9_-]+\.[A-Za-z0-9_-]+\.[A-Za-z0-9_-]+] *)
Definition JWT_REGEX : regex :=
  Seq (literal [cp "e"; cp "y"; cp "J"])
    (Seq (Plus (Class base64ish_class))
       (Seq (Chr (cp "."))
          (Seq (Plus (Class base64ish_class))
             (Seq (Chr (cp "."))
                (Plus (Class base64ish_class)))))).

(** [[a-fA-F0-9]{64,}] *)
Definition HEX_LONG_REGEX : regex := at_least 64 (Class hex_class).

(** [[A-Za-z0-9_\-]{64,}] *)
Definition BASE64ISH_LONG_REGEX : regex := at_least 64 (Class base64ish_class).

(** getting_client.py, lines 199-209. *)
Definition _is_plausible_token (tok : option pystr) : bool :=
  match tok with
  | None => false
  | Some [] => false
  | Some tok =>
      let tok := strip is_space tok in
      if fullmatch JWT_REGEX tok then true
      else if fullmatch HEX_LONG_REGEX tok then true
      else if fullmatch BASE64ISH_LONG_REGEX tok then true
      else false
  end.

(** The characters a token can be made of. *)
Definition token_class : list (N * N) := (cp ".", cp ".") :: base64ish_class.

(** The characters that occur in the strings of a pattern. *)
Fixpoint alphabet (r : regex) (c : N) : bool :=
  match r with
  | Empty | Eps => false
  | Chr c' => (c =? c')%N
  | Class ranges => in_class c ranges
  | Seq r1 r2 | Alt r1 r2 => alphabet r1 c || alphabet r2 c
  | Star r1 => alphabet r1 c
  end.

(** The length of the shortest string of a pattern ([None]: no string). *)
Fixpoint min_length (r : regex) : option nat :=
  match r with
  | Empty => None
  | Eps => Some O
  | Chr _ | Class _ => Some 1%nat
  | Seq r1 r2 =>
      match min_length r1, min_length r2 with
      | Some a, Some b => Some (a + b)%nat
      | _, _ => None
      end
  | Alt r1 r2 =>
      match min_length r1, min_length r2 with
      | Some a, Some b => Some (Nat.min a b)
      | Some a, None => Some a
      | None, b => b
      end
  | Star _ => Some O
  end.

(** ** The two forms of a token *)

Definition base64ish (s : pystr) : Prop :=
  Forall (fun c => in_class c base64ish_class = true) s.

(** [eyJ], then three non-empty segments of [[A-Za-z0-9_-]] separated
    by dots. *)
Definition is_jwt (t : pystr) : Prop :=
  exists a b c,
    t = [cp "e"; cp "y"; cp "J"] ++ a ++ cp "." :: b ++ cp "." :: c /\
    a <> [] /\ b <> [] /\ c <> [] /\
    base64ish a /\ base64ish b /\ base64ish c.

(** At least 64 characters of [[A-Za-z0-9_-]]. *)
Definition is_long_key (t : pystr) : Prop :=
  (64 <= List.length t)%nat /\ base64ish t.

(* ================================================================== *)
(** * getting_client.py: helpers over a browser page *)

(** The page is outside the program: each of its methods is a function of
    the state of the browser that either raises or returns.  Every call is
    recorded with what it gave. *)

Inductive WaitUntil := domcontentloaded | load_event.

Section Page.

Variables (W Sel El Url Resp Exn : Type).

Record Page := mkPage {
  (** [page.wait_for_selector(sel, timeout=_, state="visible")]: an
      element, or [None]. *)
  wait_for_selector : W -> Sel -> Z -> (Exn + option El) * W;
  (** [page.goto(url, wait_until=_, timeout=_)]. *)
  goto : W -> Url -> WaitUntil -> Z -> (Exn + Resp) * W;
  (** [page.evaluate] of the script that reads the clipboard: a string,
      or nothing. *)
  evaluate_clipboard : W -> (Exn + option pystr) * W
}.

Inductive Event :=
| EWait (sel : Sel) (timeout : Z) (out : Exn + option El)
| EGoto (url : Url) (wait_until : WaitUntil) (timeout : Z) (out : Exn + Resp)
| EEvaluate (out : Exn + option pystr)
| EPrint (msg : string).

(** What a helper raises: an exception of the page raised again, or one
    of its own. *)
Inductive PageExn :=
| Thrown (e : Exn)
| PlaywrightTimeoutError (msg : string)
| UnboundLocalError (name : string).

Inductive Outcome (A : Type) :=
| Returns (a : A)
| Raises (e : PageExn).

Arguments Returns {A} a.
Arguments Raises {A} e.

Variable page : Page.

(** line 156: [max(1000, timeout_ms // max(1, len(selectors)))] *)
Definition slice_timeout (timeout_ms : Z) (selectors : list Sel) : Z :=
  Z.max 1000 (timeout_ms / Z.max 1 (Z.of_nat (List.length selectors))).

(** lines 157-166: the loop over the selectors and what follows it.  An
    exception object is truthy. *)
Fixpoint first_selector_loop (slice : Z) (selectors : list Sel)
    (last_err : option Exn) (w : W) (tr : list Event)
  : Outcome El * W * list Event :=
  match selectors with
  | [] =>
      (match last_err with
       | Some e => Raises (Thrown e)
       | None => Raises (PlaywrightTimeoutError "No selector matched")
       end, w, tr)
  | sel :: rest =>
      let (out, w') := wait_for_selector page w sel slice in
      let tr' := tr ++ [EWait sel slice out] in
      match out with
      | inr (Some el) => (Returns el, w', tr')
      | inr None => first_selector_loop slice rest last_err w' tr'
      | inl e => first_selector_loop slice rest (Some e) w' tr'
      end
  end.

(** getting_client.py, lines 154-166. *)
Definition _first_selector (selectors : list Sel) (timeout_ms : Z) (w : W)
  : Outcome El * W * list Event :=
  first_selector_loop (slice_timeout timeout_ms selectors) selectors None w [].

(** lines 484-488: the final attempt.  The name [e] is unbound there:
    the [except ... as e] of the loop deletes it when its clause ends. *)
Definition goto_final (url : Url) (last_err : option Exn) (w : W)
    (tr : list Event) : Outcome Resp * W * list Event :=
  let (out, w') := goto page w url load_event 60000 in
  let tr' := tr ++ [EGoto url load_event 60000 out] in
  match out with
  | inr resp => (Returns resp, w', tr')
  | inl _ =>
      (match last_err with
       | Some e => Raises (Thrown e)
       | None => Raises (UnboundLocalError "e")
       end, w', tr')
  end.

(** lines 478-483: [for i in range(attempts)]. *)
Fixpoint goto_loop (url : Url) (n : nat) (last_err : option Exn) (w : W)
    (tr : list Event) : Outcome Resp * W * list Event :=
  match n with
  | O => goto_final url last_err w tr
  | S n' =>
      let (out, w') := goto page w url domcontentloaded 45000 in
      let tr' := tr ++ [EGoto url domcontentloaded 45000 out] in
      match out with
      | inr resp => (Returns resp, w', tr')
      | inl e => goto_loop url n' (Some e) w' tr'
      end
  end.

(** getting_client.py, lines 476-488. *)
Definition _goto_with_retries (url : Url) (attempts : Z) (w : W)
  : Outcome Resp * W * list Event :=
  goto_loop url (Z.to_nat attempts) None w [].

(** [txt or ''] *)
Definition or_empty (txt : option pystr) : pystr :=
  match txt with
  | Some (c :: t) => c :: t
  | _ => []
  end.

(** getting_client.py, lines 773-783. *)
Definition _read_clipboard_token (w : W) : option pystr * W * list Event :=
  let (out, w') := evaluate_clipboard page w in
  let tr := [EEvaluate out] in
  match out with
  | inl _ => (None, w', tr)
  | inr txt =>
      let tok := _clean_token_artifacts (Some (or_empty txt)) in
      if _is_plausible_token tok
      then (tok, w', tr ++ [EPrint "    Clipboard token found."])
      else (None, w', tr)
  end.

(** ** Vocabulary for the traces *)

(** A wait for [sel] that gave no element. *)
Definition missed (slice : Z) (sel : Sel) (ev : Event) : Prop :=
  exists out, ev = EWait sel slice out /\ forall el, out <> inr (Some el).

(** A navigation of the first kind that failed. *)
Definition failed_goto (url : Url) (ev : Event) : Prop :=
  exists e, ev = EGoto url domcontentloaded 45000 (inl e).

Definition event_error (ev : Event) : option Exn :=
  match ev with
  | EWait _ _ (inl e) => Some e
  | EGoto _ _ _ (inl e) => Some e
  | EEvaluate (inl e) => Some e
  | _ => None
  end.

(** The exception of the last call of a trace that raised. *)
Definition last_error_from (acc : option Exn) (tr : list Event) : option Exn :=
  fold_left (fun acc ev =>
               match event_error ev with
               | Some e => Some e
               | None => acc
               end) tr acc.

Definition last_error : list Event -> option Exn := last_error_from None.

Definition event_timeout (ev : Event) : Z :=
  match ev with
  | EWait _ t _ => t
  | EGoto _ _ t _ => t
  | _ => 0
  end.

(** The time the page was allowed in all. *)
Definition total_timeout (tr : list Event) : Z :=
  fold_right (fun ev acc => event_timeout ev + acc) 0 tr.

End Page.

Arguments mkPage {W Sel El Url Resp Exn}.
Arguments wait_for_selector {W Sel El Url Resp Exn}.
Arguments goto {W Sel El Url Resp Exn}.
Arguments evaluate_clipboard {W Sel El Url Resp Exn}.
Arguments EWait {Sel El Url Resp Exn}.
Arguments EGoto {Sel El Url Resp Exn}.
Arguments EEvaluate {Sel El Url Resp Exn}.
Arguments EPrint {Sel El Url Resp Exn}.
Arguments Thrown {Exn}.
Arguments PlaywrightTimeoutError {Exn}.
Arguments UnboundLocalError {Exn}.
Arguments Returns {Exn A}.
Arguments Raises {Exn A}.
Arguments slice_timeout {Sel}.
Arguments first_selector_loop {W Sel El Url Resp Exn}.
Arguments _first_selector {W Sel El Url Resp Exn}.
Arguments goto_final {W Sel El Url Resp Exn}.
Arguments goto_loop {W Sel El Url Resp Exn}.
Arguments _goto_with_retries {W Sel El Url Resp Exn}.
Arguments _read_clipboard_token {W Sel El Url Resp Exn}.
Arguments missed {Sel El Url Resp Exn}.
Arguments failed_goto {Sel El Url Resp Exn}.
Arguments event_error {Sel El Url Resp Exn}.
Arguments last_error_from {Sel El Url Resp Exn}.
Arguments last_error {Sel El Url Resp Exn}.
Arguments event_timeout {Sel El Url Resp Exn}.
Arguments total_timeout {Sel El Url Resp Exn}.

(** A page for the examples. *)
Module PageFixture.

(** The state of the browser is the number of calls made so far; an
    exception carries its message and the number of the call that raised
    it. *)
Definition W := nat.
Definition Sel := string.
Definition El := nat.
Definition Url := string.
Definition Resp := Z.
Definition Exn := (string * nat)%type.

Definition wait (w : W) (sel : Sel) (timeout : Z) : (Exn + option El) * W :=
  if String.eqb sel "#user" then (inl ("Timeout exceeded"%string, w), S w)
  else if String.eqb sel "#email" then (inr (Some 7%nat), S w)
  else (inr None, S w).

(** The site answers from the third call on. *)
Definition navigate (w : W) (url : Url) (wait_until : WaitUntil) (timeout : Z)
    : (Exn + Resp) * W :=
  if (2 <=? w)%nat then (inr 200, S w)
  else (inl ("net::ERR_CONNECTION_RESET"%string, w), S w).

(** The site never answers. *)
Definition navigate_down (w : W) (url : Url) (wait_until : WaitUntil)
    (timeout : Z) : (Exn + Resp) * W :=
  match wait_until with
  | domcontentloaded => (inl ("net::ERR_CONNECTION_RESET"%string, w), S w)
  | load_event => (inl ("Timeout 60000ms exceeded"%string, w), S w)
  end.

(** The clipboard holds a key of 64 letters between a space and a line
    feed. *)
Definition copied : pystr := [32%N] ++ repeat (cp "a") 64 ++ [10%N].

Definition clipboard (w : W) : (Exn + option pystr) * W :=
  (inr (Some copied), S w).

Definition page : @Page W Sel El Url Resp Exn :=
  mkPage wait navigate clipboard.

Definition page_down : @Page W Sel El Url Resp Exn :=
  mkPage wait navigate_down clipboard.

Definition selectors : list Sel := ["#user"; "#email"; "#login"]%string.

End PageFixture.

(* ================================================================== *)
(** * Properties *)

(** ** The result dictionary *)

Lemma dict_get_set_same (k : string) (v : list string) (d : Dict) :
  dict_get k (dict_set k v d) = Some v.
Proof.
  induction d as [|[k' v'] d IH]; simpl.
  - now rewrite String.eqb_refl.
  - destruct (String.eqb k k') eqn:Hk; simpl; rewrite ?String.eqb_refl, ?Hk; auto.
Qed.

Lemma dict_get_set_other (k k' : string) (v : list string) (d : Dict) :
  k <> k' -> dict_get k (dict_set k' v d) = dict_get k d.
Proof.
  intros Hne. induction d as [|[k0 v0] d IH]; simpl.
  - apply String.eqb_neq in Hne. now rewrite Hne.
  - destruct (String.eqb k' k0) eqn:Hk; simpl.
    + apply String.eqb_eq in Hk. subst k0.
      apply String.eqb_neq in Hne. now rewrite Hne.
    + destruct (String.eqb k k0); auto.
Qed.

(** ** The order of strings and the sort *)

Lemma ascii_compare_trans_lt (a b c : ascii) :
  Ascii.compare a b = Lt -> Ascii.compare b c = Lt -> Ascii.compare a c = Lt.
Proof.
  unfold Ascii.compare. rewrite !N.compare_lt_iff. apply N.lt_trans.
Qed.

Lemma string_compare_refl (s : string) : String.compare s s = Eq.
Proof.
  induction s as [|a s IH]; simpl; auto.
  unfold Ascii.compare. now rewrite N.compare_refl.
Qed.

Lemma string_compare_trans_lt (x y z : string) :
  String.compare x y = Lt -> String.compare y z = Lt -> String.compare x z = Lt.
Proof.
  revert y z. induction x as [|a x IH]; intros [|b y] [|c z]; simpl; try congruence.
  destruct (Ascii.compare a b) eqn:Hab; try discriminate.
  - apply Ascii.compare_eq_iff in Hab. subst b.
    destruct (Ascii.compare a c) eqn:Hac; try congruence. apply IH.
  - intros _. destruct (Ascii.compare b c) eqn:Hbc; try discriminate.
    + apply Ascii.compare_eq_iff in Hbc. subst c. now rewrite Hab.
    + intros _. now rewrite (ascii_compare_trans_lt a b c).
Qed.

Lemma str_le_cases (x y : string) :
  str_le x y <-> x = y \/ String.compare x y = Lt.
Proof.
  unfold str_le, String.leb. split.
  - destruct (String.compare x y) eqn:H; try discriminate; auto.
    apply String.compare_eq_iff in H. auto.
  - intros [-> | H].
    + now rewrite string_compare_refl.
    + now rewrite H.
Qed.

Lemma str_le_trans (x y z : string) : str_le x y -> str_le y z -> str_le x z.
Proof.
  rewrite !str_le_cases. intros [-> | Hxy] [-> | Hyz]; auto.
  right. eapply string_compare_trans_lt; eauto.
Qed.










(* ================================================================== *)
(** ** Running the monad by hand *)

Ltac unfold_monad :=
  unfold bind, ret, raise, try_except, log, record, ask, get_proxy,
    set_proxy, lift_query in *.

(** Splits on the innermost scrutinee of a [match] in hypothesis [H]. *)
Ltac break_in H :=
  match type of H with
  | context [match ?x with _ => _ end] =>
      lazymatch x with
      | context [match _ with _ => _ end] => fail
      | _ => destruct x eqn:?
      end
  end.

Ltac pair_inv :=
  repeat match goal with
  | H : (_, _) = (_, _) |- _ => inversion H; subst; clear H
  | H : Ok _ = Ok _ |- _ => inversion H; subst; clear H
  | H : Raise _ = Raise _ |- _ => inversion H; subst; clear H
  end.

(** The loops are unfolded one step at a time, by their equations. *)
Arguments papers_loop : simpl never.
Arguments years_loop : simpl never.
Arguments agencies_loop : simpl never.
Arguments q_geb : simpl never.
Arguments sorted_by_value : simpl never.
Arguments float_sub : simpl never.
Arguments py_int : simpl never.

Lemma papers_loop_nil {World Client} (E : Oracles World Client) ca kw lim mh d
    year dr s f :
  papers_loop E ca kw lim mh d year dr [] s f = ret (Next s f).
Proof. reflexivity. Qed.

Lemma papers_loop_cons {World Client} (E : Oracles World Client) ca kw lim mh d
    year dr paper rest s f :
  papers_loop E ca kw lim mh d year dr (paper :: rest) s f =
  bind (paper_body E ca kw lim mh d year dr paper s f)
    (fun fl =>
       match fl with
       | Next s' f' => papers_loop E ca kw lim mh d year dr rest s' f'
       | Return r => ret (Return r)
       end).
Proof. reflexivity. Qed.

Lemma years_loop_nil {World Client} (E : Oracles World Client) ca kw lim mh d
    s f :
  years_loop E ca kw lim mh d [] s f = ret (Next s f).
Proof. reflexivity. Qed.

Lemma years_loop_cons {World Client} (E : Oracles World Client) ca kw lim mh d
    yb rest s f :
  years_loop E ca kw lim mh d (yb :: rest) s f =
  bind (year_body E ca kw lim mh d yb s f)
    (fun fl =>
       match fl with
       | Next s' f' => years_loop E ca kw lim mh d rest s' f'
       | Return r => ret (Return r)
       end).
Proof. reflexivity. Qed.

Section SamplerProperties.

Variables World Client : Type.
Variable E : Oracles World Client.

Local Abbreviation St := (State World Client).
Local Abbreviation Prog := (M World Client).

Variable client_arg : ClientArg World Client.
Variable keyword : string.
Variable limit_per_query : Z.
Variable max_hits : Z.
Variable delay : Q.

Local Abbreviation try_cell' :=
  (try_cell E client_arg keyword limit_per_query max_hits delay).
Local Abbreviation paper_body' :=
  (paper_body E client_arg keyword limit_per_query max_hits delay).
Local Abbreviation papers_loop' :=
  (papers_loop E client_arg keyword limit_per_query max_hits delay).
Local Abbreviation year_body' :=
  (year_body E client_arg keyword limit_per_query max_hits delay).
Local Abbreviation years_loop' :=
  (years_loop E client_arg keyword limit_per_query max_hits delay).

Lemma try_cell_outcome newspaper_id date_range s f st r st' :
  try_cell' newspaper_id date_range s f st = (r, st') ->
  body_outcome keyword limit_per_query max_hits delay s f r st' True.
Proof.
  unfold try_cell, api_find, time_sleep, random_choice. unfold_monad.
  intros H.
  repeat (break_in H; simpl in *; pair_inv; simpl in *; auto); pair_inv;
    simpl; auto; try discriminate.
  all: match goal with
       | Hc : (_ >=? _) = _ |- _ => rewrite Z.geb_leb in Hc
       end.
  all: match goal with
       | Hc : (_ <=? _) = true |- _ => apply Z.leb_le in Hc
       | Hc : (_ <=? _) = false |- _ => apply Z.leb_gt in Hc
       end.
  all: match goal with
       | |- _ \/ _ => right
       | _ => idtac
       end.
  all: eexists; repeat split; eauto; try discriminate; try lia.
  all: unfold ends_with_cell; simpl; rewrite <- app_assoc; simpl; eauto.
Qed.

Lemma paper_body_outcome year date_range paper s f st r st' :
  paper_body' year date_range paper s f st = (r, st') ->
  body_outcome keyword limit_per_query max_hits delay s f r st' False.
Proof.
  unfold paper_body. unfold_monad. intros H.
  destruct (value paper) as [[|a n]|]; simpl in H; pair_inv; simpl; auto.
  destruct (try_cell' (String a n) date_range s f st) as [[fl|e] st1] eqn:Hc.
  - pair_inv. apply try_cell_outcome in Hc. exact Hc.
  - simpl in H. pair_inv. simpl. auto.
Qed.

Lemma body_outcome_loop s f r (st' : St) X :
  Inv max_hits s f ->
  body_outcome keyword limit_per_query max_hits delay s f r st' X ->
  loop_outcome keyword limit_per_query max_hits delay r st' X.
Proof.
  intros (Hs & Hf & Hm). destruct r as [[s' f'|r']|e]; simpl; auto.
  - intros [[-> ->] | (u & Hu & -> & -> & Hlt)].
    + repeat split; auto.
    + repeat split; auto.
      * apply Forall_app. split; auto.
      * rewrite length_app. simpl. lia.
  - intros (u & Hu & -> & Hge & Hend). split.
    + apply Forall_app. split; auto.
    + intros Hpos. split; auto. rewrite length_app. simpl.
      specialize (Hm Hpos). lia.
Qed.

Lemma papers_loop_outcome year date_range papers :
  forall s f st r st',
    Inv max_hits s f ->
    papers_loop' year date_range papers s f st = (r, st') ->
    loop_outcome keyword limit_per_query max_hits delay r st' False.
Proof.
  induction papers as [|paper rest IH]; intros s f st r st' HI.
  - rewrite papers_loop_nil. unfold ret. intros H. pair_inv. exact HI.
  - rewrite papers_loop_cons. unfold bind at 1.
    destruct (paper_body' year date_range paper s f st) as [[fl|e] st1] eqn:Hb;
      apply paper_body_outcome in Hb; apply (body_outcome_loop _ _ _ _ _ HI) in Hb.
    + destruct fl as [s1 f1|r1].
      * apply IH. exact Hb.
      * unfold ret. intros H. pair_inv. exact Hb.
    + destruct Hb.
Qed.

Lemma year_body_outcome year_bucket s f st r st' :
  Inv max_hits s f ->
  year_body' year_bucket s f st = (r, st') ->
  loop_outcome keyword limit_per_query max_hits delay r st' True.
Proof.
  intros HI. unfold year_body, api_facet. unfold_monad.
  destruct (value year_bucket) as [[|a y]|]; intros H; pair_inv; simpl; auto.
  repeat (break_in H; simpl in *; pair_inv; simpl in *; auto).
  apply papers_loop_outcome in H; auto.
  destruct r as [[? ?|?]|?]; simpl in *; auto.
Qed.

Lemma years_loop_outcome years :
  forall s f st r st',
    Inv max_hits s f ->
    years_loop' years s f st = (r, st') ->
    loop_outcome keyword limit_per_query max_hits delay r st' True.
Proof.
  induction years as [|yb rest IH]; intros s f st r st' HI.
  - rewrite years_loop_nil. unfold ret. intros H. pair_inv. exact HI.
  - rewrite years_loop_cons. unfold bind at 1.
    destruct (year_body' yb s f st) as [[fl|e] st1] eqn:Hb;
      apply (year_body_outcome _ _ _ _ _ _ HI) in Hb.
    + destruct fl as [s1 f1|r1].
      * apply IH. exact Hb.
      * unfold ret. intros H. pair_inv. exact Hb.
    + intros H. pair_inv. exact I.
Qed.

Lemma sample_outcome start_date end_date st l st' :
  sample_impresso_uids E client_arg keyword start_date end_date
    limit_per_query max_hits delay st = (Ok l, st') ->
  Forall nonempty l /\
  (0 < max_hits ->
   Z.of_nat (List.length l) <= max_hits /\
   (Z.of_nat (List.length l) = max_hits ->
    ends_with_cell keyword limit_per_query delay st')).
Proof.
  unfold sample_impresso_uids, api_facet. unfold_monad. intros H.
  repeat (break_in H; simpl in *; pair_inv; simpl in *; auto);
    pair_inv; try discriminate.
  all: try solve [split; [constructor | simpl; intros; split; [lia | intros; lia]]].
  all: match goal with
       | Hl : years_loop' _ _ _ _ = _ |- _ =>
           apply years_loop_outcome in Hl;
           [| repeat split; [constructor | simpl; lia]]; simpl in Hl
       end.
  all: match goal with
       | Hl : Inv _ _ _ |- _ => destruct Hl as (Hs & Hf & Hm); split; auto;
           intros Hpos; specialize (Hm Hpos); split; lia
       | Hl : Forall _ _ /\ _ |- _ => destruct Hl as (Hs & Hm); split; auto;
           intros Hpos; destruct (Hm Hpos) as [Hlen Hend]; split; [lia | auto]
       end.
Qed.

(* ------------------------------------------------------------------ *)
(** *** Frames: which effects and log lines a computation may add *)

Lemma extends_refl P Q (st : St) : extends P Q st st.
Proof. exists [], []. rewrite !app_nil_r. auto. Qed.

Lemma extends_trans P Q (st1 st2 st3 : St) :
  extends P Q st1 st2 -> extends P Q st2 st3 -> extends P Q st1 st3.
Proof.
  intros (nc & nl & Hc & Hl & HP & HQ) (nc' & nl' & Hc' & Hl' & HP' & HQ').
  exists (nc ++ nc'), (nl ++ nl'). rewrite Hc', Hl', Hc, Hl, !app_assoc.
  repeat split; auto; apply Forall_app; auto.
Qed.

Section FrameRules.

Variable P : Call -> Prop.
Variable Q : Level * Msg -> Prop.
Variable X : PyExn -> Prop.

Lemma frames_ret {A} (a : A) : @frames World Client A P Q X (ret a).
Proof. intros st. split; [apply extends_refl | discriminate]. Qed.

Lemma frames_raise {A} (e : PyExn) : X e -> @frames World Client A P Q X (raise e).
Proof.
  intros He st. split; [apply extends_refl |].
  unfold raise. simpl. intros e' [= <-]. exact He.
Qed.

Lemma frames_bind {A B} (m : Prog A) (k : A -> Prog B) :
  frames P Q X m -> (forall a, frames P Q X (k a)) -> frames P Q X (bind m k).
Proof.
  intros Hm Hk st. unfold bind. destruct (Hm st) as [Hext Hex].
  destruct (m st) as [[a|e] st1]; simpl in *.
  - destruct (Hk a st1) as [Hext' Hex']. split; auto.
    eapply extends_trans; eauto.
  - split; auto. intros e' [= <-]. now apply Hex.
Qed.

Lemma frames_try {A} (X1 : PyExn -> Prop) (m : Prog A) (h : PyExn -> Prog A) :
  frames P Q X1 m -> (forall e, X1 e -> frames P Q X (h e)) ->
  frames P Q X (try_except m h).
Proof.
  intros Hm Hh st. unfold try_except. destruct (Hm st) as [Hext Hex].
  destruct (m st) as [[a|e] st1]; simpl in *.
  - split; auto. discriminate.
  - destruct (Hh e (Hex e eq_refl) st1) as [Hext' Hex']. split; auto.
    eapply extends_trans; eauto.
Qed.

Lemma frames_log lvl msg :
  Q (lvl, msg) -> @frames World Client unit P Q X (log lvl msg).
Proof.
  intros HQ st. split; [| discriminate].
  exists [], [(lvl, msg)]. simpl. rewrite app_nil_r. auto.
Qed.

Lemma frames_record c : P c -> @frames World Client unit P Q X (record c).
Proof.
  intros HP st. split; [| discriminate].
  exists [c], []. simpl. rewrite app_nil_r. auto.
Qed.

Lemma frames_ask {A} (f : World -> A * World) :
  @frames World Client A P Q X (ask f).
Proof.
  intros st. unfold ask. destruct (f (world st)) as [a w]. simpl.
  split; [| discriminate].
  exists [], []. simpl. rewrite !app_nil_r. auto.
Qed.

Lemma frames_get_proxy : @frames World Client _ P Q X get_proxy.
Proof. intros st. split; [apply extends_refl | discriminate]. Qed.

Lemma frames_set_proxy p : @frames World Client unit P Q X (set_proxy p).
Proof.
  intros st. split; [| discriminate].
  exists [], []. simpl. rewrite !app_nil_r. auto.
Qed.

Lemma frames_lift_query {A} (r : QueryError + A) :
  (forall q, X (Query q)) -> @frames World Client A P Q X (lift_query r).
Proof.
  intros HX. destruct r; simpl; [apply frames_raise; auto | apply frames_ret].
Qed.

End FrameRules.

Lemma frames_weaken {A} (P P' : Call -> Prop) (Q Q' : Level * Msg -> Prop)
    (X X' : PyExn -> Prop) (m : Prog A) :
  (forall c, P c -> P' c) -> (forall l, Q l -> Q' l) -> (forall e, X e -> X' e) ->
  frames P Q X m -> frames P' Q' X' m.
Proof.
  intros HP HQ HX Hm st. destruct (Hm st) as [(nc & nl & Hc & Hl & H1 & H2) Hex].
  split; auto. exists nc, nl. repeat split; auto.
  - eapply Forall_impl; eauto.
  - eapply Forall_impl; eauto.
Qed.

(** One step of a frame proof, following the shape of the program. *)
Ltac frames_step :=
  first
    [ apply frames_ret
    | apply frames_raise
    | apply frames_log
    | apply frames_record
    | apply frames_ask
    | apply frames_get_proxy
    | apply frames_set_proxy
    | apply frames_lift_query
    | apply frames_bind; [| intros ?]
    | apply frames_try with (X1 := fun _ => True); [| intros ? _]
    | match goal with
      | |- frames _ _ _ (match ?x with _ => _ end) => destruct x eqn:?
      end ].

Lemma client_ok_returns (ca : ClientArg World Client) st :
  client_ok ca -> exists c st', get_c ca st = (Ok c, st').
Proof.
  intros H. destruct (H st) as [_ Hex].
  destruct (get_c ca st) as [[c|e] st'] eqn:Hc; eauto.
  destruct (Hex e eq_refl).
Qed.

Lemma instance_client_ok (c : Client) :
  @client_ok World Client (Instance c).
Proof. unfold client_ok. simpl. apply frames_ret. Qed.

Hypothesis client_quiet : client_ok client_arg.

Lemma frames_get_c_in P X :
  P CProvider -> frames P (sampler_log keyword) X (get_c client_arg).
Proof.
  intros HP. eapply frames_weaken; try exact client_quiet.
  - intros c ->. exact HP.
  - intros [lvl m]. unfold quiet_log, sampler_log. simpl.
    destruct m; auto; intros [].
  - intros e [].
Qed.

Lemma frames_get_c X :
  frames (sampler_call keyword) (sampler_log keyword) X (get_c client_arg).
Proof. apply frames_get_c_in. exact I. Qed.

Lemma cell_call_sampler c : cell_call keyword c -> sampler_call keyword c.
Proof. destruct c; simpl; auto; intros []. Qed.

Lemma frames_new_DateRange P Q X a b :
  (forall msg, X (ValueError_date msg)) ->
  @frames World Client _ P Q X (new_DateRange E a b).
Proof.
  intros HX. unfold new_DateRange.
  destruct (date_range_error E a b); [apply frames_raise; auto | apply frames_ret].
Qed.

Lemma frames_time_sleep P X :
  P (CSleep delay) -> X ValueError_sleep ->
  frames P (sampler_log keyword) X (time_sleep E delay).
Proof.
  intros HP HX. unfold time_sleep. repeat frames_step; auto.
Qed.

Lemma frames_try_cell newspaper_id date_range s f :
  frames (cell_call keyword) (sampler_log keyword) (fun _ => True)
    (try_cell' newspaper_id date_range s f).
Proof.
  unfold try_cell, api_find, random_choice.
  repeat (first [apply frames_time_sleep | apply frames_get_c_in | frames_step]);
    simpl; auto; try exact I; try reflexivity.
Qed.

Lemma frames_paper_body year date_range paper s f :
  frames (cell_call keyword) (sampler_log keyword) (fun _ => False)
    (paper_body' year date_range paper s f).
Proof.
  unfold paper_body.
  repeat (first [apply frames_try_cell | frames_step]);
    simpl; auto; try exact I.
Qed.

Lemma frames_papers_loop year date_range papers :
  forall s f,
    frames (cell_call keyword) (sampler_log keyword) (fun _ => False)
      (papers_loop' year date_range papers s f).
Proof.
  induction papers as [|paper rest IH]; intros s f.
  - rewrite papers_loop_nil. apply frames_ret.
  - rewrite papers_loop_cons. apply frames_bind.
    + apply frames_paper_body.
    + intros [s' f'|r]; [apply IH | apply frames_ret].
Qed.

Lemma frames_year_body year_bucket s f :
  frames (sampler_call keyword) (sampler_log keyword) year_exn
    (year_body' year_bucket s f).
Proof.
  assert (Hloop : forall year dr papers s' f',
             frames (sampler_call keyword) (sampler_log keyword) year_exn
               (papers_loop' year dr papers s' f')).
  { intros. eapply frames_weaken; try apply frames_papers_loop; auto.
    - apply cell_call_sampler.
    - intros e []. }
  unfold year_body, api_facet.
  repeat (first [apply Hloop | apply frames_get_c | apply frames_new_DateRange
                | frames_step]);
    simpl; auto; try exact I; try reflexivity;
    try solve [unfold year_exn, is_query, is_date_error; eauto].
Qed.

Lemma frames_years_loop years :
  forall s f,
    frames (sampler_call keyword) (sampler_log keyword) year_exn
      (years_loop' years s f).
Proof.
  induction years as [|yb rest IH]; intros s f.
  - rewrite years_loop_nil. apply frames_ret.
  - rewrite years_loop_cons. apply frames_bind.
    + apply frames_year_body.
    + intros [s' f'|r]; [apply IH | apply frames_ret].
Qed.

Lemma frames_sample start_date end_date :
  frames (sampler_call keyword) (sampler_log keyword) (sample_exn limit_per_query)
    (sample_impresso_uids E client_arg keyword start_date end_date
       limit_per_query max_hits delay).
Proof.
  unfold sample_impresso_uids, api_facet.
  apply frames_bind; [apply frames_log; reflexivity | intros _].
  destruct (negb ((0 <? limit_per_query) && (limit_per_query <=? 100))) eqn:Hv.
  - apply frames_bind; [apply frames_log; exact I | intros _].
    apply frames_raise. left. split; auto.
    apply negb_true_iff, andb_false_iff in Hv.
    rewrite Z.ltb_ge, Z.leb_gt in Hv. lia.
  - apply frames_bind.
    { unfold make_initial_range.
      repeat (first [apply frames_new_DateRange | frames_step]);
        simpl; auto; try exact I.
      intros msg. right. right. right. now exists msg. }
    intros date_range. apply frames_bind.
    { apply frames_try with (X1 := is_query).
      - repeat (first [apply frames_get_c | frames_step]);
          simpl; auto; try reflexivity; unfold is_query; eauto.
      - intros e He. apply frames_bind; [apply frames_log; exact I | intros _].
        apply frames_raise. right. left. exact He. }
    intros year_hits. destruct (get_data year_hits) as [|b l] eqn:Hd.
    + repeat frames_step; simpl; auto; exact I.
    + apply frames_bind.
      { destruct (sorted_by_value (b :: l)) as [sorted|e] eqn:Hs.
        - apply frames_ret.
        - apply frames_raise. right. right. left.
          unfold sorted_by_value in Hs. destruct l; try discriminate.
          destruct (has_none_value _); congruence. }
      intros sorted.
      apply frames_bind; [apply frames_log; exact I | intros _].
      apply frames_bind; [apply frames_log; exact I | intros _].
      apply frames_bind.
      { eapply frames_weaken; try apply frames_years_loop; auto.
        intros e [He | He]; [right; left | right; right; right]; exact He. }
      intros [s f|r]; repeat frames_step; simpl; auto; exact I.
Qed.

End SamplerProperties.


(** The frame steps, for use after the section. *)
Ltac frames_step :=
  first
    [ apply frames_ret
    | apply frames_raise
    | apply frames_log
    | apply frames_record
    | apply frames_ask
    | apply frames_get_proxy
    | apply frames_set_proxy
    | apply frames_lift_query
    | apply frames_bind; [| intros ?]
    | apply frames_try with (X1 := fun _ => True); [| intros ? _]
    | match goal with
      | |- frames _ _ _ (match ?x with _ => _ end) => destruct x eqn:?
      end ].

(* ================================================================== *)
(** ** The sampler: configuration check, empty result, cap, UIDs *)

(** C3. A [limit_per_query] below 1 or above 100 makes
    [sample_impresso_uids] raise the ValueError of line 115 before any call
    is made: the effects recorded and the world are those of the start.
    With [limit_per_query] between 1 and 100, and a client accessor that
    is quiet, no such ValueError leaves the function. *)
Theorem limit_per_query_checked_first {World Client : Type}
    (E : Oracles World Client) (ca : ClientArg World Client)
    (keyword : string) (start_date end_date : option string)
    (limit_per_query max_hits : Z) (delay : Q) (st : State World Client) :
  let run := sample_impresso_uids E ca keyword start_date end_date
               limit_per_query max_hits delay st in
  (limit_per_query < 1 \/ 100 < limit_per_query ->
   fst run = Raise (ValueError_limit limit_per_query) /\
   calls (snd run) = calls st /\ world (snd run) = world st) /\
  (1 <= limit_per_query <= 100 -> client_ok ca ->
   forall l, fst run <> Raise (ValueError_limit l)).
Proof.
  intros run. split.
  - intros Hout. subst run. unfold sample_impresso_uids. unfold_monad. simpl.
    assert (Hv : negb ((0 <? limit_per_query) && (limit_per_query <=? 100)) = true).
    { apply negb_true_iff, andb_false_iff. rewrite Z.ltb_ge, Z.leb_gt. lia. }
    rewrite Hv. simpl. auto.
  - intros Hin Hq l Hr. subst run.
    destruct (frames_sample _ _ E ca keyword limit_per_query max_hits delay Hq
                start_date end_date st) as [_ Hex].
    destruct (Hex _ Hr) as [[_ Hbad] | [[q Hq'] | [Hq' | [msg Hq']]]];
      try discriminate.
    contradiction.
Qed.

(** C2. With [max_hits] positive, the list that [sample_impresso_uids]
    returns has at most [max_hits] UIDs; when it has exactly [max_hits],
    the last effects of the run are the find and the pause of the cell
    that gave the last UID, so nothing was asked after the count was
    reached.  In the loops, a body that executed [return] ends the loop
    whatever cells remain. *)
Theorem max_hits_caps_sample {World Client : Type}
    (E : Oracles World Client) (ca : ClientArg World Client)
    (keyword : string) (start_date end_date : option string)
    (limit_per_query max_hits : Z) (delay : Q) :
  0 < max_hits ->
  (forall st l st',
      sample_impresso_uids E ca keyword start_date end_date
        limit_per_query max_hits delay st = (Ok l, st') ->
      Z.of_nat (List.length l) <= max_hits /\
      (Z.of_nat (List.length l) = max_hits ->
       exists before newspaper_id date_range,
         calls st' = before ++
           [CFind keyword newspaper_id date_range false limit_per_query;
            CSleep delay])) /\
  (forall year dr paper rest s f st r st',
      paper_body E ca keyword limit_per_query max_hits delay year dr paper s f st
        = (Ok (Return r), st') ->
      papers_loop E ca keyword limit_per_query max_hits delay year dr
        (paper :: rest) s f st = (Ok (Return r), st')) /\
  (forall yb rest s f st r st',
      year_body E ca keyword limit_per_query max_hits delay yb s f st
        = (Ok (Return r), st') ->
      years_loop E ca keyword limit_per_query max_hits delay (yb :: rest) s f st
        = (Ok (Return r), st')).
Proof.
  intros Hpos. split; [| split].
  - intros st l st' H. apply sample_outcome in H. destruct H as [_ H].
    exact (H Hpos).
  - intros year dr paper rest s f st r st' H.
    rewrite papers_loop_cons. unfold bind. now rewrite H.
  - intros yb rest s f st r st' H.
    rewrite years_loop_cons. unfold bind. now rewrite H.
Qed.

(* ================================================================== *)
(** ** The sampler: query errors, and the order of the cells *)

Lemma valid_limit_check (limit_per_query : Z) :
  1 <= limit_per_query <= 100 ->
  negb ((0 <? limit_per_query) && (limit_per_query <=? 100)) = false.
Proof.
  intros H. apply negb_false_iff, andb_true_iff. rewrite Z.ltb_lt, Z.leb_le. lia.
Qed.

Section SamplingOrder.

Variables World Client : Type.
Variable E : Oracles World Client.
Variable client_arg : ClientArg World Client.
Variable keyword : string.
Variable limit_per_query : Z.
Variable max_hits : Z.
Variable delay : Q.

Local Abbreviation St := (State World Client).
Local Abbreviation paper_body' :=
  (paper_body E client_arg keyword limit_per_query max_hits delay).
Local Abbreviation papers_loop' :=
  (papers_loop E client_arg keyword limit_per_query max_hits delay).
Local Abbreviation year_body' :=
  (year_body E client_arg keyword limit_per_query max_hits delay).
Local Abbreviation years_loop' :=
  (years_loop E client_arg keyword limit_per_query max_hits delay).
Local Abbreviation sample' start_date end_date :=
  (sample_impresso_uids E client_arg keyword start_date end_date
     limit_per_query max_hits delay).


Lemma cell_filters (nc : list Call) :
  Forall (cell_call keyword) nc -> filter is_source_facet nc = [].
Proof.
  induction 1 as [|c nc Hc _ IH]; simpl; auto.
  destruct c; simpl in *; auto; contradiction.
Qed.

(** A query error of [find] stays in its cell. *)
Lemma find_error_contained year dr paper newspaper_id s f st c st1 q w' :
  value paper = Some newspaper_id ->
  newspaper_id <> EmptyString ->
  get_c client_arg st = (Ok c, st1) ->
  search_find E c keyword newspaper_id dr false limit_per_query (world st1)
    = (inl q, w') ->
  paper_body' year dr paper s f st =
    (Ok (Next s f),
     mkState w' (calls st1 ++ [find_of keyword limit_per_query dr newspaper_id])
       (logs st1 ++ [(ERROR, MErrorProcessing newspaper_id year (Query q))])
       (disk st1) (proxy st1)).
Proof.
  intros Hv Hne Hg Hf. unfold paper_body. rewrite Hv.
  destruct newspaper_id as [|a n]; [contradiction |].
  unfold try_cell, api_find. unfold_monad. rewrite Hg. simpl. rewrite Hf.
  reflexivity.
Qed.

(** Lines 124-129 when [DateRange] builds the range, and when it refuses. *)
Lemma initial_range_built start_date end_date (st : St) :
  range_accepted E start_date end_date ->
  make_initial_range E start_date end_date
    (mkState (world st) (calls st)
       (logs st ++ [(INFO, MStartSampling keyword)]) (disk st) (proxy st)) =
  (Ok (initial_range start_date end_date),
   entered keyword start_date end_date st).
Proof.
  intros Hacc. unfold entered, make_initial_range, new_DateRange,
    range_accepted in *. unfold initial_range.
  destruct (truthy start_date || truthy end_date).
  - rewrite (Hacc eq_refl). unfold_monad. simpl.
    rewrite <- app_assoc. reflexivity.
  - unfold_monad. simpl. rewrite <- app_assoc. reflexivity.
Qed.

Lemma initial_range_refused start_date end_date msg (st : St) :
  truthy start_date || truthy end_date = true ->
  date_range_error E start_date end_date = Some msg ->
  make_initial_range E start_date end_date st = (Raise (ValueError_date msg), st).
Proof.
  intros Ht He. unfold make_initial_range, new_DateRange.
  rewrite Ht, He. reflexivity.
Qed.

(** The loop over the years, cut in two. *)
Lemma years_loop_app pre rest :
  forall s f (st : St),
    years_loop' (pre ++ rest) s f st =
    match years_loop' pre s f st with
    | (Ok (Next s' f'), st') => years_loop' rest s' f' st'
    | (Ok (Return r), st') => (Ok (Return r), st')
    | (Raise e, st') => (Raise e, st')
    end.
Proof.
  induction pre as [|yb pre IH]; intros s f st.
  - rewrite years_loop_nil. reflexivity.
  - simpl app. rewrite !years_loop_cons. unfold bind.
    destruct (year_body' yb s f st) as [[[s1 f1|r1]|e] st1]; auto.
Qed.

(** A valid call whose range was built and whose time-facet query was
    asked in [st1]: the rest of the run, by the answer. *)
Lemma sample_run start_date end_date st c st1 r w' :
  1 <= limit_per_query <= 100 ->
  range_accepted E start_date end_date ->
  get_c client_arg (entered keyword start_date end_date st) = (Ok c, st1) ->
  search_facet E c "year" keyword (initial_range start_date end_date) 200
    (world st1) = (r, w') ->
  sample' start_date end_date st =
  match r with
  | inl q =>
      (Raise (Query q),
       mkState w'
         (calls st1 ++
          [CFacet "year" keyword (initial_range start_date end_date) 200])
         (logs st1 ++ [(ERROR, MFailedYearFacets (Query q))])
         (disk st1) (proxy st1))
  | inr raw =>
      match get_data raw with
      | [] =>
          (Ok [],
           mkState w'
             (calls st1 ++
              [CFacet "year" keyword (initial_range start_date end_date) 200])
             (logs st1 ++ [(WARNING, MNoHits keyword)])
             (disk st1) (proxy st1))
      | _ :: _ =>
          match sorted_by_value (get_data raw) with
          | Raise e => (Raise e, answered keyword start_date end_date st1 w')
          | Ok sorted =>
              sample_end keyword
                (years_loop' sorted [] 0
                   (years_entry keyword start_date end_date st1 w' sorted))
          end
      end
  end.
Proof.
  intros Hin Hacc Hg Hf. unfold sample_impresso_uids.
  unfold bind at 1. unfold log at 1.
  rewrite (valid_limit_check _ Hin). cbn [negb].
  unfold bind at 1. rewrite (initial_range_built _ _ st Hacc).
  unfold api_facet. unfold_monad. rewrite Hg. simpl. rewrite Hf.
  destruct r as [q | raw]; simpl; [reflexivity |].
  destruct (get_data raw) as [|b l] eqn:Hd; simpl; [reflexivity |].
  destruct (sorted_by_value (b :: l)) as [sorted | e]; simpl; [| reflexivity].
  unfold years_entry, sample_end. rewrite <- app_assoc. simpl.
  destruct (years_loop' sorted [] 0 _) as [[[s f|l']|e] st2]; reflexivity.
Qed.

(** A query error of the time-facet call is logged and raised again. *)
Lemma year_facet_error_raised start_date end_date st c st1 q w' :
  1 <= limit_per_query <= 100 ->
  range_accepted E start_date end_date ->
  get_c client_arg (entered keyword start_date end_date st) = (Ok c, st1) ->
  search_facet E c "year" keyword (initial_range start_date end_date) 200
    (world st1) = (inl q, w') ->
  sample' start_date end_date st =
    (Raise (Query q),
     mkState w'
       (calls st1 ++
        [CFacet "year" keyword (initial_range start_date end_date) 200])
       (logs st1 ++ [(ERROR, MFailedYearFacets (Query q))])
       (disk st1) (proxy st1)).
Proof.
  intros Hin Hacc Hg Hf. now rewrite (sample_run _ _ _ _ _ _ _ Hin Hacc Hg Hf).
Qed.

(** A refused range ends the call before anything is asked. *)
Lemma range_refused_raised start_date end_date msg st :
  1 <= limit_per_query <= 100 ->
  truthy start_date || truthy end_date = true ->
  date_range_error E start_date end_date = Some msg ->
  sample' start_date end_date st =
    (Raise (ValueError_date msg),
     mkState (world st) (calls st)
       (logs st ++ [(INFO, MStartSampling keyword)]) (disk st) (proxy st)).
Proof.
  intros Hin Ht He. unfold sample_impresso_uids.
  unfold bind at 1. unfold log at 1.
  rewrite (valid_limit_check _ Hin). cbn [negb].
  unfold bind at 1. rewrite (initial_range_refused _ _ msg _ Ht He).
  reflexivity.
Qed.

(** No time bucket: the empty list, after the one query. *)
Lemma no_bucket_returns_nil start_date end_date st c st1 raw w' :
  1 <= limit_per_query <= 100 ->
  range_accepted E start_date end_date ->
  get_c client_arg (entered keyword start_date end_date st) = (Ok c, st1) ->
  search_facet E c "year" keyword (initial_range start_date end_date) 200
    (world st1) = (inr raw, w') ->
  get_data raw = [] ->
  sample' start_date end_date st =
    (Ok [],
     mkState w'
       (calls st1 ++
        [CFacet "year" keyword (initial_range start_date end_date) 200])
       (logs st1 ++ [(WARNING, MNoHits keyword)])
       (disk st1) (proxy st1)).
Proof.
  intros Hin Hacc Hg Hf Hd.
  rewrite (sample_run _ _ _ _ _ _ _ Hin Hacc Hg Hf). now rewrite Hd.
Qed.




(** A query error of a source-facet call leaves the loop over the years. *)
Lemma source_facet_error_raised yb year rest s f st c st1 q w' :
  value yb = Some year ->
  year <> EmptyString ->
  year_accepted E year ->
  get_c client_arg (year_entered year st) = (Ok c, st1) ->
  search_facet E c "newspaper" keyword (Some (year_range year)) 200 (world st1)
    = (inl q, w') ->
  years_loop' (yb :: rest) s f st =
    (Raise (Query q),
     mkState w' (calls st1 ++ [source_facet_of keyword year]) (logs st1)
       (disk st1) (proxy st1)).
Proof.
  intros Hv Hne Hacc Hg Hf. rewrite years_loop_cons.
  unfold year_body. rewrite Hv. destruct year as [|a y]; [contradiction |].
  unfold new_DateRange. unfold year_accepted in Hacc. rewrite Hacc.
  unfold api_facet. unfold_monad. simpl.
  unfold year_entered in Hg. rewrite Hg. simpl.
  unfold year_range in Hf. simpl in Hf. rewrite Hf. reflexivity.
Qed.

(** The same at the level of the call: the years before the one whose
    source facets fail went by, and the error of that query ends the
    call. *)
Lemma source_facet_error_ends_sample start_date end_date st c0 st0 raw w0
    pre yb post s f st2 year c st3 q w' :
  1 <= limit_per_query <= 100 ->
  range_accepted E start_date end_date ->
  get_c client_arg (entered keyword start_date end_date st) = (Ok c0, st0) ->
  search_facet E c0 "year" keyword (initial_range start_date end_date) 200
    (world st0) = (inr raw, w0) ->
  sorted_by_value (get_data raw) = Ok (pre ++ yb :: post) ->
  years_loop' pre [] 0
    (years_entry keyword start_date end_date st0 w0 (pre ++ yb :: post))
    = (Ok (Next s f), st2) ->
  value yb = Some year ->
  year <> EmptyString ->
  year_accepted E year ->
  get_c client_arg (year_entered year st2) = (Ok c, st3) ->
  search_facet E c "newspaper" keyword (Some (year_range year)) 200 (world st3)
    = (inl q, w') ->
  sample' start_date end_date st =
    (Raise (Query q),
     mkState w' (calls st3 ++ [source_facet_of keyword year]) (logs st3)
       (disk st3) (proxy st3)).
Proof.
  intros Hin Hacc Hg0 Hf0 Hs Hpre Hv Hne Hy Hg Hf.
  rewrite (sample_run _ _ _ _ _ _ _ Hin Hacc Hg0 Hf0). rewrite Hs.
  destruct (get_data raw) as [|b l].
  { simpl in Hs. destruct pre; discriminate. }
  rewrite years_loop_app, Hpre.
  rewrite (source_facet_error_raised _ _ _ _ _ _ _ _ _ _ Hv Hne Hy Hg Hf).
  reflexivity.
Qed.

Hypothesis client_quiet : client_ok client_arg.






End SamplingOrder.

(** C1, as the code has it.  A query error of a [find] call is caught in
    its cell: it is logged with the newspaper and the year, the cell adds
    nothing, the pause after the call is not taken, and the loop goes on
    with the next newspaper; no exception at all leaves the body of a
    cell.  A query error of the time-facet call is logged and raised
    again, and a query error of a source-facet call is not caught: either
    one ends the call of [sample_impresso_uids] with that error, the
    second one whatever years went by before it. *)
Theorem find_errors_contained_facet_errors_raised {World Client : Type}
    (E : Oracles World Client) (ca : ClientArg World Client)
    (keyword : string) (limit_per_query max_hits : Z) (delay : Q) :
  (forall year dr paper rest newspaper_id s f st c st1 q w',
      value paper = Some newspaper_id ->
      newspaper_id <> EmptyString ->
      get_c ca st = (Ok c, st1) ->
      search_find E c keyword newspaper_id dr false limit_per_query (world st1)
        = (inl q, w') ->
      papers_loop E ca keyword limit_per_query max_hits delay year dr
        (paper :: rest) s f st =
      papers_loop E ca keyword limit_per_query max_hits delay year dr rest s f
        (mkState w'
           (calls st1 ++ [CFind keyword newspaper_id dr false limit_per_query])
           (logs st1 ++ [(ERROR, MErrorProcessing newspaper_id year (Query q))])
           (disk st1) (proxy st1))) /\
  (forall year dr paper s f st e,
      fst (paper_body E ca keyword limit_per_query max_hits delay year dr
             paper s f st) <> Raise e) /\
  (forall start_date end_date st c st1 q w',
      1 <= limit_per_query <= 100 ->
      range_accepted E start_date end_date ->
      get_c ca (entered keyword start_date end_date st) = (Ok c, st1) ->
      search_facet E c "year" keyword (initial_range start_date end_date) 200
        (world st1) = (inl q, w') ->
      sample_impresso_uids E ca keyword start_date end_date
        limit_per_query max_hits delay st =
      (Raise (Query q),
       mkState w'
         (calls st1 ++
          [CFacet "year" keyword (initial_range start_date end_date) 200])
         (logs st1 ++ [(ERROR, MFailedYearFacets (Query q))])
         (disk st1) (proxy st1))) /\
  (forall start_date end_date st c0 st0 raw w0 pre yb post s f st2
          year c st3 q w',
      1 <= limit_per_query <= 100 ->
      range_accepted E start_date end_date ->
      get_c ca (entered keyword start_date end_date st) = (Ok c0, st0) ->
      search_facet E c0 "year" keyword (initial_range start_date end_date) 200
        (world st0) = (inr raw, w0) ->
      sorted_by_value (get_data raw) = Ok (pre ++ yb :: post) ->
      years_loop E ca keyword limit_per_query max_hits delay pre [] 0
        (years_entry keyword start_date end_date st0 w0 (pre ++ yb :: post))
        = (Ok (Next s f), st2) ->
      value yb = Some year ->
      year <> EmptyString ->
      year_accepted E year ->
      get_c ca (year_entered year st2) = (Ok c, st3) ->
      search_facet E c "newspaper" keyword (Some (year_range year)) 200
        (world st3) = (inl q, w') ->
      sample_impresso_uids E ca keyword start_date end_date
        limit_per_query max_hits delay st =
      (Raise (Query q),
       mkState w'
         (calls st3 ++ [CFacet "newspaper" keyword (Some (year_range year)) 200])
         (logs st3) (disk st3) (proxy st3))).
Proof.
  split; [| split; [| split]].
  - intros year dr paper rest newspaper_id s f st c st1 q w' Hv Hne Hg Hf.
    rewrite papers_loop_cons. unfold bind.
    rewrite (find_error_contained _ _ E ca keyword limit_per_query max_hits delay
               year dr paper newspaper_id s f st c st1 q w' Hv Hne Hg Hf).
    reflexivity.
  - intros year dr paper s f st e He.
    destruct (paper_body E ca keyword limit_per_query max_hits delay year dr
                paper s f st) as [r st'] eqn:Hb.
    apply paper_body_outcome in Hb. simpl in He. subst r. exact Hb.
  - intros. eapply year_facet_error_raised; eauto.
  - intros. eapply source_facet_error_ends_sample; eauto.
Qed.


(** C9. A valid call whose time-facet query comes back with no bucket
    (an empty list, a missing key or a null) returns the empty list: the
    query is the last effect of the run, it is logged as a warning, and
    through a quiet client accessor nothing but the session provider was
    asked before it, so no source facet and no find was asked for.  The
    query is not reached when [DateRange] refuses the bounds given: the
    call then raises its ValueError before anything is asked. *)
Theorem no_time_bucket_no_cell {World Client : Type}
    (E : Oracles World Client) (ca : ClientArg World Client)
    (keyword : string) (start_date end_date : option string)
    (limit_per_query max_hits : Z) (delay : Q) (st : State World Client) :
  1 <= limit_per_query <= 100 ->
  (forall c st1 raw w',
      range_accepted E start_date end_date ->
      get_c ca (entered keyword start_date end_date st) = (Ok c, st1) ->
      search_facet E c "year" keyword (initial_range start_date end_date) 200
        (world st1) = (inr raw, w') ->
      get_data raw = [] ->
      sample_impresso_uids E ca keyword start_date end_date
        limit_per_query max_hits delay st =
      (Ok [],
       mkState w'
         (calls st1 ++
          [CFacet "year" keyword (initial_range start_date end_date) 200])
         (logs st1 ++ [(WARNING, MNoHits keyword)])
         (disk st1) (proxy st1)) /\
      (client_ok ca ->
       exists nc, calls st1 = calls st ++ nc /\
                  Forall (fun c => c = CProvider) nc)) /\
  (forall msg,
      truthy start_date || truthy end_date = true ->
      date_range_error E start_date end_date = Some msg ->
      sample_impresso_uids E ca keyword start_date end_date
        limit_per_query max_hits delay st =
      (Raise (ValueError_date msg),
       mkState (world st) (calls st)
         (logs st ++ [(INFO, MStartSampling keyword)]) (disk st) (proxy st))).
Proof.
  intros Hin. split.
  - intros c st1 raw w' Hacc Hg Hf Hd. split.
    + eapply no_bucket_returns_nil; eauto.
    + intros Hq.
      destruct (Hq (entered keyword start_date end_date st))
        as [(nc & nl & Hc & _ & HP & _) _].
      rewrite Hg in Hc. simpl in Hc. exists nc. auto.
  - intros msg Ht He. now apply range_refused_raised.
Qed.


(* ================================================================== *)
(** ** The refreshing client accessor *)

Lemma q_geb_true (a : Q) (n : Z) : q_geb a n = true <-> (inject_Z n <= a)%Q.
Proof. unfold q_geb. apply Qle_bool_iff. Qed.

Lemma q_geb_false (a : Q) (n : Z) : q_geb a n = false <-> (a < inject_Z n)%Q.
Proof.
  split.
  - intros H. apply Qnot_le_lt. intros Hle.
    apply q_geb_true in Hle. congruence.
  - intros H. destruct (q_geb a n) eqn:Hg; auto.
    apply q_geb_true in Hg. exfalso. exact (Qlt_not_le _ _ H Hg).
Qed.

Section ClientProperties.

Variables World Client : Type.
Variable E : Oracles World Client.

Local Abbreviation St := (State World Client).

Lemma frames_import_and_call X :
  (forall msg, X (ProviderError msg)) ->
  frames quiet_call quiet_log X (import_and_call E).
Proof.
  intros HX. unfold import_and_call.
  repeat frames_step; simpl; auto; try reflexivity; exact I.
Qed.

Lemma frames_lazy X :
  (forall e, X (ImportError_client e)) ->
  frames quiet_call quiet_log X (_get_impresso_client_lazy E).
Proof.
  intros HX. unfold _get_impresso_client_lazy.
  repeat (first [apply frames_import_and_call | frames_step]);
    simpl; auto; exact I.
Qed.

Lemma import_and_call_proxy (st : St) :
  proxy (snd (import_and_call E st)) = proxy st.
Proof.
  unfold import_and_call. unfold_monad. simpl.
  destruct (provider E (world st)) as [[msg|msg|c] w]; reflexivity.
Qed.

Lemma lazy_proxy (st : St) :
  proxy (snd (_get_impresso_client_lazy E st)) = proxy st.
Proof.
  unfold _get_impresso_client_lazy. unfold_monad.
  pose proof (import_and_call_proxy st) as H1.
  destruct (import_and_call E st) as [[c|e] st1]; simpl in *; auto.
  match goal with
  | |- context [import_and_call E ?s] =>
      pose proof (import_and_call_proxy s) as H2;
      destruct (import_and_call E s) as [[c|e2] st2]; simpl in *; congruence
  end.
Qed.

(** One run of the helper asks the provider once, and once more when the
    first attempt failed. *)
Lemma lazy_attempts (st : St) :
  exists n, (n = 1 \/ n = 2)%nat /\
    calls (snd (_get_impresso_client_lazy E st)) = calls st ++ repeat CProvider n.
Proof.
  unfold _get_impresso_client_lazy, import_and_call. unfold_monad. simpl.
  destruct (provider E (world st)) as [[msg|msg|c] w]; simpl;
    try (exists 1%nat; split; auto; fail).
  all: match goal with
       | |- context [provider E ?w'] =>
           destruct (provider E w') as [[msg2|msg2|c2] w2]; simpl
       end.
  all: exists 2%nat; split; auto; rewrite <- app_assoc; reflexivity.
Qed.

Lemma hint_if_due_spec now (st : St) :
  exists st',
    hint_if_due now st = (Ok tt, st') /\
    calls st' = calls st /\ world st' = world st /\
    client (proxy st') = client (proxy st) /\
    last_refresh (proxy st') = last_refresh (proxy st).
Proof.
  unfold hint_if_due. unfold_monad. cbn beta iota.
  destruct (q_geb _ _); eexists; (split; [reflexivity |]); cbn; auto.
Qed.

Lemma hint_if_due_disk now (st : St) :
  disk (snd (hint_if_due now st)) = disk st.
Proof.
  unfold hint_if_due. unfold_monad. cbn beta iota.
  destruct (q_geb _ _); reflexivity.
Qed.

(** A refresh that is due, by the answers of the provider. *)
Lemma refresh_due_run now (st : St) :
  q_geb (float_sub now (last_refresh (proxy st))) TTL = true ->
  exists st',
    refresh_if_due E now st = (Ok tt, st') /\
    last_refresh (proxy st') = now /\
    last_hint (proxy st') = last_hint (proxy st) /\
    disk st' = disk st /\
    match provider E (world st) with
    | (Acquired c, w1) =>
        client (proxy st') = c /\ world st' = w1 /\
        calls st' = calls st ++ [CProvider]
    | (_, w1) =>
        calls st' = calls st ++ [CProvider; CProvider] /\
        match provider E w1 with
        | (Acquired c, w2) => client (proxy st') = c /\ world st' = w2
        | (r2, w2) =>
            client (proxy st') = client (proxy st) /\ world st' = w2 /\
            exists older msg,
              failure r2 = Some msg /\
              logs st' = older ++
                [(ERROR, MRefreshFailed (ImportError_client (ProviderError msg)))]
        end
    end.
Proof.
  intros H. unfold refresh_if_due. unfold_monad. cbn beta iota. rewrite H.
  unfold _get_impresso_client_lazy, import_and_call. unfold_monad. simpl.
  destruct (provider E (world st)) as [r1 w1].
  destruct r1 as [m1|m1|c1]; simpl;
    try (eexists; repeat split; rewrite <- ?app_assoc; reflexivity).
  all: destruct (provider E w1) as [r2 w2];
    destruct r2 as [m2|m2|c2]; simpl;
    eexists; (split; [reflexivity |]); simpl;
    rewrite <- ?app_assoc; repeat split; eauto.
  all: eexists _, _; split; [reflexivity |]; rewrite ?app_assoc; reflexivity.
Qed.

Lemma get_client_quiet : client_ok (Callable (get_client E)).
Proof.
  unfold client_ok. simpl. unfold get_client, time_time, hint_if_due, refresh_if_due.
  repeat (first [apply frames_lazy | frames_step]); simpl; auto; exact I.
Qed.

End ClientProperties.

(** C8, as the code has it.  Let [now] be what the clock shows when
    [get_client] is called, and let the elapsed time be the float
    [now - last_refresh].  While it is below the refresh interval [TTL],
    the call returns the client it holds and asks the provider nothing;
    client and [last_refresh] stay as they are.  Once it has reached the
    interval, the call runs [_get_impresso_client_lazy] once.  When the
    first attempt of that run gives a client, the provider was asked once
    and the client is stored and returned.  When the first attempt fails,
    the provider is asked a second time: a client that comes then is
    stored and returned, and when the second attempt fails too the failure
    is logged and the client held before is returned.  In every case of a
    due refresh [last_refresh] becomes [now], and [get_client] does not
    raise. *)
Theorem get_client_refresh_policy {World Client : Type}
    (E : Oracles World Client) (st : State World Client)
    (now : Q) (w : World) :
  clock E (world st) = (now, w) ->
  let elapsed := float_sub now (last_refresh (proxy st)) in
  let run := get_client E st in
  ((elapsed < inject_Z TTL)%Q ->
   fst run = Ok (client (proxy st)) /\
   calls (snd run) = calls st /\
   client (proxy (snd run)) = client (proxy st) /\
   last_refresh (proxy (snd run)) = last_refresh (proxy st)) /\
  ((inject_Z TTL <= elapsed)%Q ->
   fst run = Ok (client (proxy (snd run))) /\
   last_refresh (proxy (snd run)) = now /\
   match provider E w with
   | (Acquired c, _) =>
       client (proxy (snd run)) = c /\
       calls (snd run) = calls st ++ [CProvider]
   | (_, w1) =>
       calls (snd run) = calls st ++ [CProvider; CProvider] /\
       match provider E w1 with
       | (Acquired c, _) => client (proxy (snd run)) = c
       | (r2, _) =>
           client (proxy (snd run)) = client (proxy st) /\
           exists older msg,
             failure r2 = Some msg /\
             logs (snd run) = older ++
               [(ERROR, MRefreshFailed (ImportError_client (ProviderError msg)))]
       end
   end).
Proof.
  intros Hclock elapsed run.
  destruct (hint_if_due_spec _ _ now (with_world w st))
    as (sth & Hh & Hc & Hw & Hcl & Hlr).
  simpl in Hc, Hcl, Hlr, Hw.
  assert (Hrun : run =
            let (r, st2) := refresh_if_due E now sth in
            (match r with
             | Ok _ => Ok (client (proxy st2))
             | Raise e => Raise e
             end, st2)).
  { subst run. unfold get_client, time_time, ask, bind, get_proxy, ret.
    rewrite Hclock, Hh.
    destruct (refresh_if_due E now sth) as [[[]|e] st2]; reflexivity. }
  rewrite Hrun. clear Hrun run. subst elapsed. rewrite <- Hlr.
  split; intros Hdue;
    [apply q_geb_false in Hdue | apply q_geb_true in Hdue].
  - unfold refresh_if_due. unfold_monad. cbn beta iota. rewrite Hdue.
    simpl. rewrite Hcl, Hlr. auto.
  - destruct (refresh_due_run _ _ E now sth Hdue)
      as (st' & Hr & Hlast & _ & _ & Hprov).
    rewrite Hr. simpl. split; [reflexivity |]. split; [exact Hlast |].
    rewrite Hw, Hc, Hcl in Hprov.
    destruct (provider E w) as [[m1|m1|c1] w1].
    3: { destruct Hprov as (H1 & _ & H2). auto. }
    all: destruct Hprov as [H1 H2]; split; [exact H1 |];
      destruct (provider E w1) as [[m2|m2|c2] w2];
      [ destruct H2 as (H2 & _ & H3); auto
      | destruct H2 as (H2 & _ & H3); auto
      | destruct H2 as (H2 & _); auto ].
Qed.

(* ================================================================== *)
(** ** The campaign loop *)

Section CampaignProperties.

Variables World Client : Type.
Variable E : Oracles World Client.
Variable limit_per_query : Z.
Variable max_hits : Z.
Variable delay : Q.
Variables start_date end_date : option string.

Local Abbreviation St := (State World Client).
Local Abbreviation process' :=
  (process_agency E limit_per_query max_hits delay start_date end_date).
Local Abbreviation loop' :=
  (agencies_loop E limit_per_query max_hits delay start_date end_date).
Local Abbreviation sample' :=
  (fun agency =>
     sample_impresso_uids E (Callable (get_client E)) agency
       start_date end_date limit_per_query max_hits delay).

Lemma agencies_loop_nil idx total results :
  loop' idx total [] results = ret results.
Proof. reflexivity. Qed.

Lemma agencies_loop_cons idx total agency rest results :
  loop' idx total (agency :: rest) results =
  match dict_get agency results with
  | Some (u :: us) =>
      bind (log INFO (MSkipping agency (List.length (u :: us))))
        (fun _ => loop' (S idx) total rest results)
  | _ =>
      bind (process' idx total agency results)
        (fun results' => loop' (S idx) total rest results')
  end.
Proof. reflexivity. Qed.

Lemma agencies_loop_done idx total agency rest results :
  done agency results = true ->
  loop' idx total (agency :: rest) results =
  bind (log INFO (MSkipping agency
                    (match dict_get agency results with
                     | Some l => List.length l
                     | None => O
                     end)))
    (fun _ => loop' (S idx) total rest results).
Proof.
  unfold done. intros H. rewrite agencies_loop_cons.
  destruct (dict_get agency results) as [[|u us]|]; try discriminate.
  reflexivity.
Qed.

Lemma agencies_loop_todo idx total agency rest results :
  done agency results = false ->
  loop' idx total (agency :: rest) results =
  bind (process' idx total agency results)
    (fun results' => loop' (S idx) total rest results').
Proof.
  unfold done. intros H. rewrite agencies_loop_cons.
  destruct (dict_get agency results) as [[|u us]|]; try discriminate;
    reflexivity.
Qed.

(** The rewrite of the result file: what it leaves behind. *)
Lemma persist_spec results (st : St) :
  exists st',
    persist E results st = (Ok tt, st') /\
    calls st' = calls st ++ [CWrite (json_dumps results)] /\
    proxy st' = proxy st /\
    (exists l, logs st' = logs st ++ [l] /\
               (l = (INFO, MSaved) \/ exists e, l = (ERROR, MWriteFailed e))) /\
    disk st' =
      match fst (write_outcome E (world st)) with
      | WriteOk => Some (json_dumps results)
      | OpenFails _ => disk st
      | WriteFails n _ => Some (substring 0 n (json_dumps results))
      end.
Proof.
  unfold persist, write_results. unfold_monad. simpl.
  destruct (write_outcome E (world st)) as [[|msg|n msg] w]; simpl;
    eexists; repeat split; eauto; eexists; split; simpl; eauto.
Qed.

Lemma frames_persist P Q X results :
  (forall content, P (CWrite content)) ->
  Q (INFO, MSaved) -> (forall e, Q (ERROR, MWriteFailed e)) ->
  frames P Q X (persist E results).
Proof.
  intros HP HS HF st.
  destruct (persist_spec results st) as (st' & Hp & Hc & _ & (l & Hl & Hcase) & _).
  rewrite Hp. simpl. split; [| discriminate].
  exists [CWrite (json_dumps results)], [l]. repeat split; auto.
  constructor; auto. destruct Hcase as [-> | [e ->]]; auto.
Qed.

Lemma frames_process K idx total agency results :
  agency <> K ->
  frames (campaign_call K) (campaign_log K) (fun _ => False)
    (process' idx total agency results).
Proof.
  intros Hne. unfold process_agency.
  assert (Hs : frames (campaign_call K) (campaign_log K) (fun _ => True)
                 (sample' agency)).
  { eapply frames_weaken; [| | | apply frames_sample; apply get_client_quiet].
    - intros c. destruct c; simpl; auto; intros ->; auto.
    - intros [lvl m]. unfold sampler_log, campaign_log. simpl.
      destruct m; auto; try intros ->; auto; intros [].
    - auto. }
  repeat (first [apply Hs | apply frames_persist | frames_step]);
    simpl; auto; try exact I; intros; exact I.
Qed.

Lemma process_value idx total agency results (st : St) :
  exists uids,
    fst (process' idx total agency results st) = Ok (dict_set agency uids results).
Proof.
  unfold process_agency. unfold_monad. simpl.
  match goal with
  | |- context [sample_impresso_uids ?E' ?ca ?k ?sd ?ed ?lim ?mh ?d ?s0] =>
      destruct (sample_impresso_uids E' ca k sd ed lim mh d s0) as [[ids|e] st1]
  end; simpl.
  all: match goal with
       | |- context [persist E ?r ?s0] =>
           destruct (persist_spec r s0) as (st' & Hp & _); rewrite Hp
       end; simpl; eauto.
Qed.

Lemma loop_spec K uids agencies :
  uids <> [] ->
  forall idx total results (st : St),
    dict_get K results = Some uids ->
    (exists results',
        fst (loop' idx total agencies results st) = Ok results' /\
        dict_get K results' = Some uids) /\
    extends (campaign_call K) (campaign_log K) st
      (snd (loop' idx total agencies results st)).
Proof.
  intros Hne. induction agencies as [|agency rest IH]; intros idx total results st HK.
  - rewrite agencies_loop_nil. simpl. split; eauto. apply extends_refl.
  - destruct (done agency results) eqn:Hd.
    + rewrite agencies_loop_done by exact Hd. unfold bind, log. simpl.
      destruct (IH (S idx) total results
                  (mkState (world st) (calls st)
                     (logs st ++
                      [(INFO, MSkipping agency
                                (match dict_get agency results with
                                 | Some l => List.length l
                                 | None => O
                                 end))])
                     (disk st) (proxy st)) HK) as [Hres Hext].
      split; auto.
      eapply extends_trans; [| exact Hext].
      exists [], [(INFO, MSkipping agency
                           (match dict_get agency results with
                            | Some l => List.length l
                            | None => O
                            end))].
      simpl. rewrite app_nil_r. repeat split; auto.
      constructor; auto. exact I.
    + assert (Hak : agency <> K).
      { intros ->. unfold done in Hd. rewrite HK in Hd.
        destruct uids; [contradiction | discriminate]. }
      rewrite agencies_loop_todo by exact Hd. unfold bind.
      destruct (frames_process K idx total agency results Hak st) as [Hext1 Hex1].
      destruct (process_value idx total agency results st) as [ids Hval].
      destruct (process' idx total agency results st) as [r st1].
      simpl in Hval, Hext1. subst r.
      assert (HK' : dict_get K (dict_set agency ids results) = Some uids).
      { rewrite dict_get_set_other; auto. }
      destruct (IH (S idx) total _ st1 HK') as [Hres Hext].
      split; auto. eapply extends_trans; eauto.
Qed.

(** The rewrite of the result file, outcome by outcome. *)
Lemma persist_run results (st : St) :
  persist E results st =
  (Ok tt,
   match write_outcome E (world st) with
   | (WriteOk, w) =>
       mkState w (calls st ++ [CWrite (json_dumps results)])
         (logs st ++ [(INFO, MSaved)]) (Some (json_dumps results)) (proxy st)
   | (OpenFails msg, w) =>
       mkState w (calls st ++ [CWrite (json_dumps results)])
         (logs st ++ [(ERROR, MWriteFailed (OSError msg))]) (disk st) (proxy st)
   | (WriteFails n msg, w) =>
       mkState w (calls st ++ [CWrite (json_dumps results)])
         (logs st ++ [(ERROR, MWriteFailed (OSError msg))])
         (Some (substring 0 n (json_dumps results))) (proxy st)
   end).
Proof.
  unfold persist, write_results. unfold_monad. simpl.
  destruct (write_outcome E (world st)) as [[|msg|n msg] w]; reflexivity.
Qed.

(** An agency whose sampling raised: what processing it comes to. *)
Lemma process_failed idx total agency results (st : St) e st1 :
  sample' agency
    (mkState (world st) (calls st)
       (logs st ++ [(INFO, MProcessing idx total agency)])
       (disk st) (proxy st)) = (Raise e, st1) ->
  process' idx total agency results st =
  (Ok (dict_set agency [] results),
   snd (persist E (dict_set agency [] results)
          (mkState (world st1) (calls st1)
             (logs st1 ++ [(ERROR, MFailedProcessing agency e)])
             (disk st1) (proxy st1)))).
Proof.
  intros Hs. unfold process_agency. unfold_monad. simpl. rewrite Hs. simpl.
  rewrite persist_run. reflexivity.
Qed.

(** The loop leaves alone the entries of the agencies it is not given. *)
Lemma loop_keeps_unlisted agencies :
  forall idx total results (st : St) k,
    ~ In k agencies ->
    exists results',
      fst (loop' idx total agencies results st) = Ok results' /\
      dict_get k results' = dict_get k results.
Proof.
  induction agencies as [|agency rest IH]; intros idx total results st k Hk.
  - rewrite agencies_loop_nil. simpl. eauto.
  - assert (Hne : k <> agency) by (intros ->; apply Hk; left; reflexivity).
    assert (Hr : ~ In k rest) by (intros Hin; apply Hk; right; exact Hin).
    destruct (done agency results) eqn:Hd.
    + rewrite agencies_loop_done by exact Hd. unfold bind, log. simpl.
      now apply IH.
    + rewrite agencies_loop_todo by exact Hd. unfold bind.
      destruct (process_value idx total agency results st) as [ids Hval].
      destruct (process' idx total agency results st) as [r st1].
      simpl in Hval. subst r.
      destruct (IH (S idx) total (dict_set agency ids results) st1 k Hr)
        as (results' & Hres & Hget).
      exists results'. split; auto.
      rewrite Hget. now apply dict_get_set_other.
Qed.

(** The loop over the agencies never raises. *)
Lemma loop_total agencies :
  forall idx total results (st : St),
    exists results', fst (loop' idx total agencies results st) = Ok results'.
Proof.
  induction agencies as [|agency rest IH]; intros idx total results st.
  - rewrite agencies_loop_nil. simpl. eauto.
  - destruct (done agency results) eqn:Hd.
    + rewrite agencies_loop_done by exact Hd. unfold bind, log. simpl. apply IH.
    + rewrite agencies_loop_todo by exact Hd. unfold bind.
      destruct (process_value idx total agency results st) as [ids Hval].
      destruct (process' idx total agency results st) as [r st1].
      simpl in Hval. subst r. apply IH.
Qed.

End CampaignProperties.


(** C5. If the loaded results give agency [K] a non-empty list, the loop
    over the agencies ends normally with that entry for [K] unchanged,
    and nothing it did concerns [K]: no facet or find call was made with
    [K] as its term, and neither the line that announces the processing
    of [K] nor the line with which the sampler starts on [K] was logged. *)
Theorem done_agency_skipped {World Client : Type}
    (E : Oracles World Client) (limit_per_query max_hits : Z) (delay : Q)
    (start_date end_date : option string)
    (K : string) (uids : list string) (agencies : list string)
    (idx total : nat) (results : Dict) (st : State World Client) :
  dict_get K results = Some uids ->
  uids <> [] ->
  let run := agencies_loop E limit_per_query max_hits delay start_date end_date
               idx total agencies results st in
  (exists results', fst run = Ok results' /\ dict_get K results' = Some uids) /\
  (exists new_calls new_logs,
      calls (snd run) = calls st ++ new_calls /\
      logs (snd run) = logs st ++ new_logs /\
      Forall (campaign_call K) new_calls /\
      Forall (campaign_log K) new_logs).
Proof.
  intros HK Hne run. subst run.
  exact (loop_spec _ _ E limit_per_query max_hits delay start_date end_date
           K uids agencies Hne idx total results st HK).
Qed.

(** C6. When the sampler raises for an agency that is not done, the
    processing of that agency does not raise: it gives the mapping with
    the empty list for the agency, logs the failure, and rewrites the
    result file with the JSON text of that mapping.  When the rewrite goes
    through, the file holds that text; when it fails, the failure is
    logged and the file is what the failed write left.  Either way the
    loop goes on with the agencies that remain, from the state the
    rewrite left, and when the agency is not listed again the mapping the
    loop ends with still gives it the empty list.  The loop over the
    agencies itself never raises. *)
Theorem failed_agency_recorded_empty {World Client : Type}
    (E : Oracles World Client) (limit_per_query max_hits : Z) (delay : Q)
    (start_date end_date : option string) :
  (forall agency rest results idx total (st : State World Client) e st1,
      done agency results = false ->
      sample_impresso_uids E (Callable (get_client E)) agency
        start_date end_date limit_per_query max_hits delay
        (mkState (world st) (calls st)
           (logs st ++ [(INFO, MProcessing idx total agency)])
           (disk st) (proxy st))
        = (Raise e, st1) ->
      let results' := dict_set agency [] results in
      let st2 :=
        match write_outcome E (world st1) with
        | (WriteOk, w) =>
            mkState w (calls st1 ++ [CWrite (json_dumps results')])
              (logs st1 ++
               [(ERROR, MFailedProcessing agency e); (INFO, MSaved)])
              (Some (json_dumps results')) (proxy st1)
        | (OpenFails msg, w) =>
            mkState w (calls st1 ++ [CWrite (json_dumps results')])
              (logs st1 ++
               [(ERROR, MFailedProcessing agency e);
                (ERROR, MWriteFailed (OSError msg))])
              (disk st1) (proxy st1)
        | (WriteFails n msg, w) =>
            mkState w (calls st1 ++ [CWrite (json_dumps results')])
              (logs st1 ++
               [(ERROR, MFailedProcessing agency e);
                (ERROR, MWriteFailed (OSError msg))])
              (Some (substring 0 n (json_dumps results'))) (proxy st1)
        end in
      process_agency E limit_per_query max_hits delay start_date end_date
        idx total agency results st = (Ok results', st2) /\
      dict_get agency results' = Some [] /\
      agencies_loop E limit_per_query max_hits delay start_date end_date
        idx total (agency :: rest) results st =
      agencies_loop E limit_per_query max_hits delay start_date end_date
        (S idx) total rest results' st2 /\
      (~ In agency rest ->
       exists final,
         fst (agencies_loop E limit_per_query max_hits delay start_date end_date
                idx total (agency :: rest) results st) = Ok final /\
         dict_get agency final = Some [])) /\
  (forall agencies idx total results (st : State World Client),
      exists results',
        fst (agencies_loop E limit_per_query max_hits delay start_date end_date
               idx total agencies results st) = Ok results').
Proof.
  split.
  - intros agency rest results idx total st e st1 Hd Hs results' st2.
    assert (Hp : process_agency E limit_per_query max_hits delay
                   start_date end_date idx total agency results st =
                 (Ok results', st2)).
    { rewrite (process_failed _ _ E limit_per_query max_hits delay
                 start_date end_date idx total agency results st e st1 Hs).
      fold results'. rewrite persist_run. subst st2. simpl.
      destruct (write_outcome E (world st1)) as [[|msg|n msg] w]; simpl;
        rewrite <- app_assoc; reflexivity. }
    assert (Hl : agencies_loop E limit_per_query max_hits delay
                   start_date end_date idx total (agency :: rest) results st =
                 agencies_loop E limit_per_query max_hits delay
                   start_date end_date (S idx) total rest results' st2).
    { rewrite agencies_loop_todo by exact Hd. unfold bind. now rewrite Hp. }
    split; [exact Hp |]. split; [apply dict_get_set_same |].
    split; [exact Hl |].
    intros Hnot. rewrite Hl.
    destruct (loop_keeps_unlisted _ _ E limit_per_query max_hits delay
                start_date end_date rest (S idx) total results' st2 agency Hnot)
      as (final & Hf & Hg).
    exists final. split; [exact Hf |]. rewrite Hg. apply dict_get_set_same.
  - intros. apply loop_total.
Qed.

(** C7, as the code has it.  Processing an agency ends with one rewrite
    of the result file with the JSON text of the whole mapping, the new
    entry included and every other entry as it was.  The rewrite is made
    in place and never raises.  When it succeeds the file holds that text
    and the success is logged; when [open] fails the file is as before;
    when the write fails after the file was opened, what the file held
    before is gone and it holds the part of the text written so far.  A
    failure is logged as an error and the run goes on. *)
Theorem checkpoint_rewritten_in_place {World Client : Type}
    (E : Oracles World Client) (limit_per_query max_hits : Z) (delay : Q)
    (start_date end_date : option string) :
  (forall idx total agency results (st : State World Client),
      exists uids st1,
        process_agency E limit_per_query max_hits delay start_date end_date
          idx total agency results st =
        (Ok (dict_set agency uids results),
         snd (persist E (dict_set agency uids results) st1)) /\
        dict_get agency (dict_set agency uids results) = Some uids /\
        forall k, k <> agency ->
                  dict_get k (dict_set agency uids results) = dict_get k results) /\
  (forall results (st : State World Client),
      persist E results st =
      (Ok tt,
       match write_outcome E (world st) with
       | (WriteOk, w) =>
           mkState w (calls st ++ [CWrite (json_dumps results)])
             (logs st ++ [(INFO, MSaved)])
             (Some (json_dumps results)) (proxy st)
       | (OpenFails msg, w) =>
           mkState w (calls st ++ [CWrite (json_dumps results)])
             (logs st ++ [(ERROR, MWriteFailed (OSError msg))])
             (disk st) (proxy st)
       | (WriteFails n msg, w) =>
           mkState w (calls st ++ [CWrite (json_dumps results)])
             (logs st ++ [(ERROR, MWriteFailed (OSError msg))])
             (Some (substring 0 n (json_dumps results))) (proxy st)
       end)).
Proof.
  split.
  - intros idx total agency results st.
    unfold process_agency. unfold_monad. simpl.
    match goal with
    | |- context [sample_impresso_uids ?E' ?ca ?k ?sd ?ed ?lim ?mh ?d ?s0] =>
        destruct (sample_impresso_uids E' ca k sd ed lim mh d s0) as [[ids|e] st1]
    end; simpl;
      (match goal with
       | |- context [persist E (dict_set agency ?v results) ?s0] =>
           exists v, s0;
           destruct (persist_spec _ _ E (dict_set agency v results) s0)
             as (st' & Hp & _); rewrite Hp; simpl
       end);
      (split; [reflexivity | split; [apply dict_get_set_same |]]);
      intros k Hk; now apply dict_get_set_other.
  - intros results st. apply persist_run.
Qed.

(* ================================================================== *)
(** ** Runs on the fixture *)

Module Runs.

Import Fixture.

(** A query error of the time-facet call, and one of a source-facet call,
    each end [sample_impresso_uids] with that error. *)
Lemma facet_error_aborts_sample :
  fst (sample_with "agencyZ" 20) = Raise (Query (TransientQueryError "503")) /\
  fst (sample_with "agencyD" 20) = Raise (Query (PermanentQueryError "400")).
Proof. split; vm_compute; reflexivity. Qed.


(** The result file holds the mapping loaded at the start; the disk is
    full twelve characters into the rewrite that follows the processing
    of agencyB.  The processing ends normally, and the file it leaves is
    neither the text before nor the text of the new mapping. *)
Lemma rewrite_not_atomic :
  let before := mkState 0 [] [] (Some (json_dumps loaded)) (mkProxy 0 0%Q 0%Q) in
  let run := process_agency oracles_full 20 1 1%Q None None 1 1 "agencyB"
               loaded before in
  fst run = Ok [("agencyA", ["u"]); ("agencyB", [])]%string /\
  disk (snd run) =
    Some (substring 0 12
            (json_dumps [("agencyA", ["u"]); ("agencyB", [])]%string)) /\
  disk (snd run) <> Some (json_dumps loaded) /\
  disk (snd run) <>
    Some (json_dumps [("agencyA", ["u"]); ("agencyB", [])]%string).
Proof.
  repeat split; try (vm_compute; reflexivity); vm_compute; discriminate.
Qed.

(** With the provider down, the one refresh that is due asks the provider
    twice. *)
Lemma failed_refresh_asks_twice :
  fst (get_client oracles_down (state0 27000)) = Ok 0 /\
  calls (snd (get_client oracles_down (state0 27000)))
    = [CProvider; CProvider].
Proof. split; vm_compute; reflexivity. Qed.


Lemma find_errors_contained_facet_errors_raised_witness :
  fst (papers_loop oracles (Instance 0) "agencyE" 20 20 1%Q "1920"
         (year_range "1920") [JDG; GDL] [] 0 (state0 0))
  = Ok (Next ["GDL-1920-01-01"%string] 1) /\
  fst (sample_with "agencyD" 20) = Raise (Query (PermanentQueryError "400")).
Proof.
  split.
  - rewrite (proj1 (find_errors_contained_facet_errors_raised
                      oracles (Instance 0) "agencyE" 20 20 1%Q)
               "1920"%string (year_range "1920") JDG [GDL] "JDG"%string [] 0
               (state0 0) 0 (state0 0) (TransientQueryError "502") 0
               eq_refl ltac:(discriminate) eq_refl eq_refl).
    vm_compute. reflexivity.
  - unfold sample_with.
    rewrite (proj2 (proj2 (proj2 (find_errors_contained_facet_errors_raised
                                    oracles (Instance 0) "agencyD" 20 20 1%Q)))
               None None (state0 0) 0
               (entered "agencyD" None None (state0 0))
               (mkRaw (Some [mkBucket (Some "1930"%string) 1])) 0
               [] (mkBucket (Some "1930"%string) 1) [] [] 0
               (years_entry "agencyD" None None
                  (entered "agencyD" None None (state0 0)) 0
                  [mkBucket (Some "1930"%string) 1])
               "1930"%string 0
               (year_entered "1930"
                  (years_entry "agencyD" None None
                     (entered "agencyD" None None (state0 0)) 0
                     [mkBucket (Some "1930"%string) 1]))
               (PermanentQueryError "400") 0
               ltac:(split; discriminate) ltac:(intros H; discriminate H)
               eq_refl eq_refl eq_refl eq_refl eq_refl
               ltac:(discriminate) eq_refl eq_refl eq_refl).
    reflexivity.
Defined.

Lemma max_hits_caps_sample_witness :
  0 < 1 /\ Z.of_nat (List.length ["JDG-1920-01-01"%string]) <= 1.
Proof.
  split; [reflexivity |].
  apply (proj1 (max_hits_caps_sample oracles (Instance 0) "agencyA" None None
                  20 1 1%Q eq_refl)
           (state0 0) ["JDG-1920-01-01"%string] (snd (sample_with "agencyA" 1))).
  vm_compute. reflexivity.
Defined.

Lemma limit_per_query_checked_first_witness :
  fst (sample_impresso_uids oracles (Instance 0) "agencyA" None None 0 20 1%Q
         (state0 0)) = Raise (ValueError_limit 0) /\
  fst (sample_with "agencyA" 20) <> Raise (ValueError_limit 20).
Proof.
  split.
  - apply (proj1 (limit_per_query_checked_first oracles (Instance 0) "agencyA"
                    None None 0 20 1%Q (state0 0))).
    left. reflexivity.
  - apply (proj2 (limit_per_query_checked_first oracles (Instance 0) "agencyA"
                    None None 20 20 1%Q (state0 0))).
    + split; discriminate.
    + apply instance_client_ok.
Defined.


Lemma done_agency_skipped_witness :
  exists results',
    fst (agencies_loop oracles 20 1 1%Q None None 1 3
           ["agencyA"; "agencyD"; "agencyB"]%string loaded (state0 0))
      = Ok results' /\
    dict_get "agencyA" results' = Some ["u"%string].
Proof.
  apply (done_agency_skipped oracles 20 1 1%Q None None "agencyA"
           ["u"%string] ["agencyA"; "agencyD"; "agencyB"]%string 1 3 loaded
           (state0 0) eq_refl).
  discriminate.
Defined.

Lemma failed_agency_recorded_empty_witness :
  exists st2,
    process_agency oracles 20 1 1%Q None None 2 3 "agencyD" loaded (state0 0)
      = (Ok (dict_set "agencyD" [] loaded), st2) /\
    disk st2 = Some (json_dumps (dict_set "agencyD" [] loaded)).
Proof.
  eexists. split.
  - apply (proj1 (failed_agency_recorded_empty oracles 20 1 1%Q None None)
             "agencyD"%string ["agencyB"%string] loaded 2%nat 3%nat (state0 0)
             (Query (PermanentQueryError "400"))
             (snd (sample_impresso_uids oracles (Callable (get_client oracles))
                     "agencyD" None None 20 1 1%Q
                     (mkState 0 [] [(INFO, MProcessing 2 3 "agencyD")] None
                        (mkProxy 0 0%Q 0%Q))))
             eq_refl).
    vm_compute. reflexivity.
  - reflexivity.
Defined.

Lemma checkpoint_rewritten_in_place_witness :
  disk (snd (persist oracles loaded (state0 0))) = Some (json_dumps loaded) /\
  exists uids st1,
    process_agency oracles 20 1 1%Q None None 1 1 "agencyB" loaded (state0 0) =
    (Ok (dict_set "agencyB" uids loaded),
     snd (persist oracles (dict_set "agencyB" uids loaded) st1)).
Proof.
  split.
  - rewrite (proj2 (checkpoint_rewritten_in_place oracles 20 1 1%Q None None)
               loaded (state0 0)).
    reflexivity.
  - destruct (proj1 (checkpoint_rewritten_in_place oracles 20 1 1%Q None None)
                1%nat 1%nat "agencyB"%string loaded (state0 0))
      as (uids & st1 & H & _).
    exists uids, st1. exact H.
Defined.

Lemma get_client_refresh_policy_witness :
  fst (get_client oracles (state0 100)) = Ok 0 /\
  (fst (get_client oracles (state0 27000)) = Ok 27001 /\
   calls (snd (get_client oracles (state0 27000))) = [CProvider]) /\
  exists older msg,
    logs (snd (get_client oracles_down (state0 27000))) = older ++
      [(ERROR, MRefreshFailed (ImportError_client (ProviderError msg)))].
Proof.
  split; [| split].
  - apply (proj1 (get_client_refresh_policy oracles (state0 100)
                    (inject_Z 100) 101 eq_refl)).
    vm_compute. reflexivity.
  - assert (Hdue : (inject_Z TTL <= float_sub (inject_Z 27000) 0)%Q)
      by (vm_compute; discriminate).
    pose proof (proj2 (get_client_refresh_policy oracles (state0 27000)
                         (inject_Z 27000) 27001 eq_refl) Hdue) as H.
    destruct H as (H1 & _ & H2 & H3). split.
    + rewrite H1, H2. reflexivity.
    + exact H3.
  - assert (Hdue : (inject_Z TTL <= float_sub (inject_Z 27000) 0)%Q)
      by (vm_compute; discriminate).
    pose proof (proj2 (get_client_refresh_policy oracles_down (state0 27000)
                         (inject_Z 27000) 27001 eq_refl) Hdue) as H.
    destruct H as (_ & _ & _ & _ & older & msg & _ & H).
    exists older, msg. exact H.
Defined.

Lemma no_time_bucket_no_cell_witness :
  sample_with "agencyB" 20 =
    (Ok [],
     mkState 0 [CFacet "year" "agencyB" None 200]
       [(INFO, MStartSampling "agencyB"); (INFO, MNoDateRange);
        (WARNING, MNoHits "agencyB")] None (mkProxy 0 0%Q 0%Q)) /\
  fst (sample_impresso_uids oracles (Instance 0) "agencyB" (Some "1900"%string)
         None 20 20 1%Q (state0 0))
    = Raise (ValueError_date "Invalid date: 1900").
Proof.
  split.
  - unfold sample_with.
    rewrite (proj1 (proj1 (no_time_bucket_no_cell oracles (Instance 0) "agencyB"
                             None None 20 20 1%Q (state0 0)
                             ltac:(split; discriminate))
                      0 (entered "agencyB" None None (state0 0))
                      (mkRaw (Some [])) 0
                      ltac:(intros H; discriminate H) eq_refl eq_refl eq_refl)).
    reflexivity.
  - rewrite (proj2 (no_time_bucket_no_cell oracles (Instance 0) "agencyB"
                      (Some "1900"%string) None 20 20 1%Q (state0 0)
                      ltac:(split; discriminate))
               "Invalid date: 1900"%string eq_refl eq_refl).
    reflexivity.
Defined.


End Runs.

(* ================================================================== *)
(** * Further properties *)

(** ** The sampler: where the UIDs come from, and the edges of the
    configuration *)

Section SamplerCells.

Variables World Client : Type.
Variable E : Oracles World Client.
Variable client_arg : ClientArg World Client.
Variable keyword : string.
Variable limit_per_query : Z.
Variable max_hits : Z.
Variable delay : Q.

Local Abbreviation St := (State World Client).
Local Abbreviation cell_step' := (cell_step max_hits delay).
Local Abbreviation Going' := (Going max_hits delay).
Local Abbreviation Capped' := (Capped max_hits delay).
Local Abbreviation flow_ok' := (flow_ok max_hits delay).

Lemma random_choice_in h hs (st : St) :
  exists hit st',
    random_choice E h hs st = (Ok hit, st') /\ In hit (h :: hs) /\
    calls st' = calls st /\ logs st' = logs st /\
    world st' = snd (rand_below E (List.length (h :: hs)) (world st)).
Proof.
  unfold random_choice. unfold_monad.
  destruct (rand_below E (List.length (h :: hs)) (world st)) as [i w].
  eexists. eexists. split; [reflexivity |].
  split; [| repeat split; reflexivity].
  apply nth_In. apply Nat.mod_upper_bound. discriminate.
Qed.

Lemma paper_body_step year dr paper s f (st : St) r st' :
  paper_body E client_arg keyword limit_per_query max_hits delay year dr
    paper s f st = (r, st') ->
  cell_step' s f r.
Proof.
  unfold paper_body, cell_step.
  destruct (value paper) as [[|a n]|]; unfold_monad; simpl;
    try (intros H; pair_inv; auto; fail).
  unfold try_cell, api_find, time_sleep. unfold_monad. intros H.
  destruct (get_c client_arg st) as [[c|e] st1]; simpl in H;
    [| pair_inv; auto].
  destruct (search_find E c keyword (String a n) dr false limit_per_query
              (world st1)) as [[q|raw] w1] eqn:Hfind; simpl in H;
    [pair_inv; auto |].
  destruct (data raw) as [hits|] eqn:Hdata; simpl in H; [| pair_inv; auto].
  destruct (Qle_bool 0 delay) eqn:Hd; simpl in H; [| pair_inv; auto].
  destruct hits as [|h hs]; simpl in H; [pair_inv; auto |].
  match type of H with
  | context [random_choice E h hs ?s0] =>
      destruct (random_choice_in h hs s0) as (hit & st2 & Hr & Hin & _);
      rewrite Hr in H
  end.
  simpl in H.
  destruct (uid hit) as [[|b u]|] eqn:Hu; simpl in H; try (pair_inv; auto; fail).
  destruct (f + 1 >=? max_hits) eqn:Hcap; simpl in H; pair_inv; right;
    exists (String b u); repeat split; auto; try discriminate.
  - right. split; auto. rewrite Z.geb_leb in Hcap. now apply Z.leb_le.
  - left. split; auto. rewrite Z.geb_leb in Hcap. now apply Z.leb_gt.
Qed.

Lemma cell_step_flow s f r : Going' s f -> cell_step' s f r -> flow_ok' r.
Proof.
  intros HG [-> | (u & Hne & Hd & [[-> Hlt] | [-> Hge]])]; simpl; auto.
  - destruct HG as (H2 & H3 & H4). unfold Going. repeat split.
    + apply Forall_app. auto.
    + rewrite length_app. simpl. lia.
    + exact Hd.
    + exact Hlt.
  - destruct HG as (H2 & H3 & H4). exists s, u. subst f.
    unfold Going. repeat split; auto; now apply H4.
Qed.

Lemma papers_loop_flow year dr papers :
  forall s f (st : St) r st',
    Going' s f ->
    papers_loop E client_arg keyword limit_per_query max_hits delay year dr
      papers s f st = (r, st') ->
    flow_ok' r.
Proof.
  induction papers as [|paper rest IH]; intros s f st r st' HG.
  - rewrite papers_loop_nil. unfold ret. intros H. pair_inv. exact HG.
  - rewrite papers_loop_cons. unfold bind at 1.
    destruct (paper_body E client_arg keyword limit_per_query max_hits delay
                year dr paper s f st) as [[fl|e] st1] eqn:Hb;
      apply paper_body_step in Hb; apply (cell_step_flow _ _ _ HG) in Hb.
    + destruct fl as [s1 f1|r1].
      * apply IH. exact Hb.
      * unfold ret. intros H. pair_inv. exact Hb.
    + intros H. pair_inv. exact I.
Qed.

Lemma year_body_flow yb s f (st : St) r st' :
  Going' s f ->
  year_body E client_arg keyword limit_per_query max_hits delay yb s f st
    = (r, st') ->
  flow_ok' r.
Proof.
  intros HG. unfold year_body, api_facet, new_DateRange. unfold_monad.
  destruct (value yb) as [[|a y]|]; intros H; pair_inv; simpl; auto.
  repeat (break_in H; simpl in *; pair_inv; simpl in *; auto).
  eapply papers_loop_flow; eauto.
Qed.

Lemma years_loop_flow years :
  forall s f (st : St) r st',
    Going' s f ->
    years_loop E client_arg keyword limit_per_query max_hits delay years s f st
      = (r, st') ->
    flow_ok' r.
Proof.
  induction years as [|yb rest IH]; intros s f st r st' HG.
  - rewrite years_loop_nil. unfold ret. intros H. pair_inv. exact HG.
  - rewrite years_loop_cons. unfold bind at 1.
    destruct (year_body E client_arg keyword limit_per_query max_hits delay
                yb s f st) as [[fl|e] st1] eqn:Hb;
      apply (year_body_flow _ _ _ _ _ _ HG) in Hb.
    + destruct fl as [s1 f1|r1].
      * apply IH. exact Hb.
      * unfold ret. intros H. pair_inv. exact Hb.
    + intros H. pair_inv. exact I.
Qed.

Lemma going_nil : Going' [] 0.
Proof.
  unfold Going. split; [| split]; auto.
  intros Hne. now destruct Hne.
Qed.

(** The list [sample_impresso_uids] returns went through the loops, or is
    empty. *)
Lemma sample_flow start_date end_date (st : St) l st' :
  sample_impresso_uids E client_arg keyword start_date end_date
    limit_per_query max_hits delay st = (Ok l, st') ->
  Going' l (Z.of_nat (List.length l)) \/ Capped' l.
Proof.
  unfold sample_impresso_uids, api_facet. unfold_monad. intros H.
  repeat (break_in H; simpl in *; pair_inv; simpl in *; auto);
    pair_inv; try discriminate.
  all: try (left; apply going_nil).
  all: match goal with
       | Hl : years_loop _ _ _ _ _ _ _ _ _ _ = _ |- _ =>
           apply years_loop_flow in Hl; [| apply going_nil]; simpl in Hl;
           first
             [ right; exact Hl
             | left; destruct Hl as (H2 & H3 & H4); subst;
               unfold Going; split; [| split]; auto ]
       end.
Qed.

End SamplerCells.

(** *** The answers the UIDs come from *)

Lemma hit_of_app (keyword : string) (limit_per_query : Z)
    (before l after : list Answer) (u : string) :
  hit_of keyword limit_per_query l u ->
  hit_of keyword limit_per_query (before ++ l ++ after) u.
Proof.
  intros (n & dr & raw & hit & Hin & H1 & H2). exists n, dr, raw, hit.
  split; auto. apply in_or_app. right. apply in_or_app. left. exact Hin.
Qed.

Section SamplerRecords.

Variables World Client : Type.
Variable E : Oracles World Client.
Variable answers : World -> list Answer.
Variable client_arg : ClientArg World Client.
Variable keyword : string.
Variable limit_per_query : Z.
Variable max_hits : Z.
Variable delay : Q.

Hypothesis world_records : records_finds E answers.
Hypothesis accessor_keeps : keeps_record answers client_arg.

Local Abbreviation St := (State World Client).
Local Abbreviation hit_of' := (hit_of keyword limit_per_query).

Local Abbreviation adds' := (adds answers keyword limit_per_query).

Lemma adds_nothing s f (st st' : St) :
  answers (world st') = answers (world st) -> adds' s st (Ok (Next s f)) st'.
Proof.
  intros H. exists []. rewrite app_nil_r. split; auto.
  exists []. rewrite app_nil_r. auto.
Qed.

Lemma adds_raise s e (st st' : St) new :
  answers (world st') = answers (world st) ++ new -> adds' s st (Raise e) st'.
Proof. intros H. exists new. auto. Qed.

Lemma adds_trans s (st st1 st2 : St) fl r :
  adds' s st (Ok fl) st1 -> adds' (uids_of fl) st1 r st2 -> adds' s st r st2.
Proof.
  intros (new1 & H1 & added1 & Hu1 & Hf1) (new2 & H2 & Hr).
  exists (new1 ++ new2). rewrite H2, H1, app_assoc. split; auto.
  destruct r as [fl2|e]; auto.
  destruct Hr as (added2 & Hu2 & Hf2). exists (added1 ++ added2).
  rewrite Hu2, Hu1, app_assoc. split; auto.
  apply Forall_app. split.
  - eapply Forall_impl; [| exact Hf1]. intros u Hu.
    apply (hit_of_app keyword limit_per_query [] new1 new2) in Hu. exact Hu.
  - eapply Forall_impl; [| exact Hf2]. intros u Hu.
    apply (hit_of_app keyword limit_per_query new1 new2 []) in Hu.
    rewrite app_nil_r in Hu. exact Hu.
Qed.

Lemma try_cell_adds newspaper_id dr s f (st : St) r st' :
  try_cell E client_arg keyword limit_per_query max_hits delay newspaper_id dr
    s f st = (r, st') ->
  exists new, answers (world st') = answers (world st) ++ new /\
    match r with
    | Ok fl => exists added, uids_of fl = s ++ added /\ Forall (hit_of' new) added
    | Raise _ => True
    end.
Proof.
  destruct world_records as (Hfind & _ & _ & _ & Hsleep & Hrand & _).
  unfold try_cell, api_find, time_sleep. unfold_monad. intros H.
  pose proof (accessor_keeps st) as Hk.
  destruct (get_c client_arg st) as [[c|e] st1]; simpl in H, Hk.
  2: { pair_inv. exists []. rewrite app_nil_r. auto. }
  pose proof (Hfind c keyword newspaper_id dr false limit_per_query (world st1))
    as Hf.
  destruct (search_find E c keyword newspaper_id dr false limit_per_query
              (world st1)) as [[q|raw] w1]; simpl in H, Hf; rewrite Hk in Hf.
  { pair_inv. exists []. auto. }
  destruct (data raw) as [hits|] eqn:Hdata; simpl in H.
  2: { pair_inv. eexists. split; [exact Hf | exact I]. }
  destruct (Qle_bool 0 delay) eqn:Hd; simpl in H.
  2: { pair_inv. eexists. split; [exact Hf | exact I]. }
  destruct hits as [|h hs]; simpl in H.
  { pair_inv. simpl. eexists. rewrite Hsleep. split; [exact Hf |].
    exists []. rewrite app_nil_r. auto. }
  match type of H with
  | context [random_choice E h hs ?s0] =>
      destruct (random_choice_in _ _ E h hs s0) as (hit & st2 & Hr & Hin & _ & _ & Hw);
      rewrite Hr in H
  end.
  simpl in H, Hw.
  assert (Hst2 : answers (world st2) =
                 answers (world st) ++
                 [(CFind keyword newspaper_id dr false limit_per_query, raw)]).
  { rewrite Hw, Hrand, Hsleep. exact Hf. }
  assert (Hhit : forall u, uid hit = Some u ->
                           hit_of'
                             [(CFind keyword newspaper_id dr false limit_per_query,
                               raw)] u).
  { intros u Hu. exists newspaper_id, dr, raw, hit. split; [left; reflexivity |].
    unfold get_data. rewrite Hdata. auto. }
  destruct (uid hit) as [[|b u]|] eqn:Hu; simpl in H.
  1, 3: pair_inv; eexists; split; [exact Hst2 |]; exists [];
    rewrite app_nil_r; auto.
  destruct (f + 1 >=? max_hits); simpl in H; pair_inv; simpl;
    eexists; (split; [exact Hst2 |]); exists [String b u]; split; auto.
Qed.

Lemma paper_body_adds year dr paper s f (st : St) r st' :
  paper_body E client_arg keyword limit_per_query max_hits delay year dr
    paper s f st = (r, st') ->
  adds' s st r st'.
Proof.
  unfold paper_body.
  destruct (value paper) as [[|a n]|].
  1, 3: unfold_monad; intros H; pair_inv; now apply adds_nothing.
  unfold try_except.
  destruct (try_cell E client_arg keyword limit_per_query max_hits delay
              (String a n) dr s f st) as [[fl|e] st1] eqn:Hc;
    apply try_cell_adds in Hc; destruct Hc as (new & Hn & Hr).
  - intros H. pair_inv. exists new. auto.
  - unfold_monad. intros H. pair_inv. exists new. simpl. split; auto.
    exists []. rewrite app_nil_r. auto.
Qed.

Lemma papers_loop_adds year dr papers :
  forall s f (st : St) r st',
    papers_loop E client_arg keyword limit_per_query max_hits delay year dr
      papers s f st = (r, st') ->
    adds' s st r st'.
Proof.
  induction papers as [|paper rest IH]; intros s f st r st'.
  - rewrite papers_loop_nil. unfold ret. intros H. pair_inv.
    now apply adds_nothing.
  - rewrite papers_loop_cons. unfold bind at 1.
    destruct (paper_body E client_arg keyword limit_per_query max_hits delay
                year dr paper s f st) as [[fl|e] st1] eqn:Hb;
      apply paper_body_adds in Hb.
    + destruct fl as [s1 f1|r1].
      * intros H. apply IH in H. eapply adds_trans; eauto.
      * unfold ret. intros H. pair_inv. exact Hb.
    + intros H. pair_inv. exact Hb.
Qed.

Lemma year_body_adds yb s f (st : St) r st' :
  year_body E client_arg keyword limit_per_query max_hits delay yb s f st
    = (r, st') ->
  adds' s st r st'.
Proof.
  destruct world_records as (_ & _ & Hfacet & _).
  unfold year_body.
  destruct (value yb) as [[|a y]|].
  1, 3: unfold_monad; intros H; pair_inv; now apply adds_nothing.
  unfold new_DateRange, api_facet. unfold_monad.
  destruct (date_range_error E _ _) as [msg|].
  { intros H. pair_inv. apply adds_raise with (new := []).
    now rewrite app_nil_r. }
  simpl.
  match goal with
  | |- context [get_c client_arg ?s1] =>
      pose proof (accessor_keeps s1) as Hk;
      destruct (get_c client_arg s1) as [[c|e] st1]
  end; simpl in Hk |- *.
  2: { intros H. pair_inv. apply adds_raise with (new := []).
       now rewrite app_nil_r. }
  match goal with
  | |- context [search_facet E c ?d ?t ?r ?l (world st1)] =>
      pose proof (Hfacet c d t r l (world st1)) as Hf;
      destruct (search_facet E c d t r l (world st1)) as [[q|raw] w1]
  end; simpl in Hf |- *; rewrite Hk in Hf.
  { intros H. pair_inv. apply adds_raise with (new := []).
    now rewrite app_nil_r. }
  destruct (get_data raw) as [|p ps].
  { intros H. pair_inv. now apply adds_nothing. }
  intros H. apply papers_loop_adds in H.
  destruct H as (new & Hn & Hr). exists new. simpl in Hn.
  rewrite Hf in Hn. auto.
Qed.

Lemma years_loop_adds years :
  forall s f (st : St) r st',
    years_loop E client_arg keyword limit_per_query max_hits delay years s f st
      = (r, st') ->
    adds' s st r st'.
Proof.
  induction years as [|yb rest IH]; intros s f st r st'.
  - rewrite years_loop_nil. unfold ret. intros H. pair_inv.
    now apply adds_nothing.
  - rewrite years_loop_cons. unfold bind at 1.
    destruct (year_body E client_arg keyword limit_per_query max_hits delay
                yb s f st) as [[fl|e] st1] eqn:Hb;
      apply year_body_adds in Hb.
    + destruct fl as [s1 f1|r1].
      * intros H. apply IH in H. eapply adds_trans; eauto.
      * unfold ret. intros H. pair_inv. exact Hb.
    + intros H. pair_inv. exact Hb.
Qed.

(** The UIDs a call returns come from the answers its finds added to the
    record. *)
Lemma sample_adds start_date end_date (st : St) l st' :
  sample_impresso_uids E client_arg keyword start_date end_date
    limit_per_query max_hits delay st = (Ok l, st') ->
  exists new,
    answers (world st') = answers (world st) ++ new /\
    Forall (hit_of' new) l.
Proof.
  destruct world_records as (_ & _ & Hfacet & _).
  unfold sample_impresso_uids.
  unfold bind at 1. unfold log at 1.
  destruct (negb _); [unfold_monad; discriminate |].
  unfold bind at 1. unfold make_initial_range, new_DateRange.
  assert (Hhead :
    forall (st0 : St) (dr : option DateRange),
      answers (world st0) = answers (world st) ->
      bind (try_except
              (bind (get_c client_arg)
                 (fun c => api_facet E c "year" keyword dr 200))
              (fun e => bind (log ERROR (MFailedYearFacets e))
                          (fun _ => raise e)))
        (fun year_hits =>
           match get_data year_hits with
           | [] => bind (log WARNING (MNoHits keyword)) (fun _ => ret [])
           | _ :: _ =>
               bind (match sorted_by_value (get_data year_hits) with
                     | Ok l0 => ret l0
                     | Raise e => raise e
                     end)
                 (fun sorted =>
                    bind (log INFO (MFoundYears (List.length sorted) keyword))
                      (fun _ =>
                         bind (log INFO (MYearsFound (map value sorted)))
                           (fun _ =>
                              bind (years_loop E client_arg keyword
                                      limit_per_query max_hits delay sorted [] 0)
                                (fun fl =>
                                   match fl with
                                   | Next sampled_uids _ =>
                                       bind (log INFO
                                               (MSamplingCompleted
                                                  (List.length sampled_uids)
                                                  keyword))
                                         (fun _ => ret sampled_uids)
                                   | Return r => ret r
                                   end))))
           end) st0 = (Ok l, st') ->
      exists new,
        answers (world st') = answers (world st) ++ new /\
        Forall (hit_of' new) l).
  { intros st0 dr H0. unfold api_facet. unfold_monad.
    pose proof (accessor_keeps st0) as Hk.
    destruct (get_c client_arg st0) as [[c|e] st1]; simpl in Hk |- *;
      [| discriminate].
    pose proof (Hfacet c "year"%string keyword dr 200 (world st1)) as Hf.
    destruct (search_facet E c "year" keyword dr 200 (world st1))
      as [[q|raw] w1]; simpl in Hf |- *; [discriminate |].
    rewrite Hk, H0 in Hf.
    destruct (get_data raw) as [|b bs].
    { intros H. pair_inv. exists []. rewrite app_nil_r. auto. }
    destruct (sorted_by_value (b :: bs)) as [sorted|e]; simpl; [| discriminate].
    match goal with
    | |- context [years_loop E client_arg keyword limit_per_query max_hits
                    delay sorted [] 0 ?s0] =>
        destruct (years_loop E client_arg keyword limit_per_query max_hits
                    delay sorted [] 0 s0) as [[fl|e] st2] eqn:Hl
    end; [| discriminate].
    apply years_loop_adds in Hl. destruct Hl as (new & Hn & added & Hu & Hfa).
    simpl in Hn, Hu. rewrite Hf in Hn.
    destruct fl as [s f|r]; simpl in *; intros H; pair_inv; exists new; auto. }
  destruct (truthy start_date || truthy end_date).
  - destruct (date_range_error E start_date end_date) as [msg|];
      [unfold_monad; discriminate |].
    unfold_monad. simpl. apply Hhead. reflexivity.
  - unfold_monad. simpl. apply Hhead. reflexivity.
Qed.

End SamplerRecords.

Section Recorders.

Variables World Client : Type.
Variable E : Oracles World Client.

(** The recording world records. *)
Lemma recording_records : records_finds (recording E) snd.
Proof.
  unfold records_finds, recording. simpl.
  repeat split; intros; unfold Answer in *.
  - destruct (search_find E c term newspaper_id dr wt limit (fst w)); reflexivity.
  - destruct (provider E (fst w)); reflexivity.
  - destruct (search_facet E c dim term dr limit (fst w)); reflexivity.
  - destruct (clock E (fst w)); reflexivity.
  - destruct (rand_below E n (fst w)); reflexivity.
  - destruct (write_outcome E (fst w)); reflexivity.
Qed.

Variable answers : World -> list Answer.
Hypothesis world_records : records_finds E answers.

Lemma instance_keeps_record (c : Client) :
  keeps_record answers (@Instance World Client c).
Proof. intros st. reflexivity. Qed.

(** [get_client] asks the clock and the provider only. *)
Lemma get_client_keeps_record :
  keeps_record answers (Callable (get_client E)).
Proof.
  destruct world_records as (_ & Hprov & _ & Hclock & _).
  intros st. cbn [get_c]. unfold get_client, time_time, ask, bind.
  pose proof (Hclock (world st)) as Hc.
  destruct (clock E (world st)) as [now w]. cbn [snd] in Hc. cbn beta iota.
  match goal with
  | |- context [hint_if_due now ?s] =>
      destruct (hint_if_due_spec _ _ now s) as (sth & Hh & _ & Hw & _);
      rewrite Hh; unfold with_world in Hw; cbn [world] in Hw
  end.
  cbn beta iota.
  destruct (q_geb (float_sub now (last_refresh (proxy sth))) TTL) eqn:Hdue.
  - destruct (refresh_due_run _ _ E now sth Hdue) as (st' & Hr & _ & _ & _ & Hm).
    rewrite Hr. unfold get_proxy, ret. cbn [snd].
    pose proof (Hprov (world sth)) as H1.
    destruct (provider E (world sth)) as [[m1|m1|c1] w1]; cbn [snd] in H1;
      try (destruct Hm as (_ & -> & _); congruence).
    all: destruct Hm as (_ & Hm); pose proof (Hprov w1) as H2;
      destruct (provider E w1) as [[m2|m2|c2] w2]; cbn [snd] in H2;
      destruct Hm as (_ & -> & _) || destruct Hm as (_ & ->); congruence.
  - unfold refresh_if_due, get_proxy, bind, ret. cbn beta iota.
    rewrite Hdue. cbn [snd]. congruence.
Qed.

End Recorders.

Section TiedRules.

Variables World Client : Type.
Variable E : Oracles World Client.
Variable answers : World -> list Answer.

Hypothesis world_records : records_finds E answers.

Local Abbreviation St := (State World Client).
Local Abbreviation Prog := (M World Client).
Local Abbreviation kt := (@keeps_tied World Client answers).

Lemma tied_same (st st' : St) nc :
  answers (world st') = answers (world st) ->
  calls st' = calls st ++ nc ->
  tied answers st st'.
Proof. intros H1 H2. exists [], nc. rewrite app_nil_r. auto. Qed.

Lemma tied_refl (st : St) : tied answers st st.
Proof. apply tied_same with (nc := []); [reflexivity | now rewrite app_nil_r]. Qed.

Lemma tied_trans (st st1 st2 : St) :
  tied answers st st1 -> tied answers st1 st2 -> tied answers st st2.
Proof.
  intros (n1 & c1 & Ha1 & Hc1 & F1) (n2 & c2 & Ha2 & Hc2 & F2).
  exists (n1 ++ n2), (c1 ++ c2).
  rewrite Ha2, Ha1, Hc2, Hc1, !app_assoc. repeat split.
  apply Forall_app; split; eapply Forall_impl; try eassumption;
    intros a Ha; apply in_or_app; auto.
Qed.

Lemma kt_ret {A} (a : A) : kt (ret a : Prog A).
Proof. intros st. apply tied_refl. Qed.

Lemma kt_raise {A} e : kt (raise e : Prog A).
Proof. intros st. apply tied_refl. Qed.

Lemma kt_bind {A B} (m : Prog A) (k : A -> Prog B) :
  kt m -> (forall a, kt (k a)) -> kt (bind m k).
Proof.
  intros Hm Hk st. unfold bind. specialize (Hm st).
  destruct (m st) as [[a|e] st1]; simpl in *; auto.
  eapply tied_trans; [exact Hm | apply Hk].
Qed.

Lemma kt_try {A} (m : Prog A) (h : PyExn -> Prog A) :
  kt m -> (forall e, kt (h e)) -> kt (try_except m h).
Proof.
  intros Hm Hh st. unfold try_except. specialize (Hm st).
  destruct (m st) as [[a|e] st1]; simpl in *; auto.
  eapply tied_trans; [exact Hm | apply Hh].
Qed.

Lemma kt_log lvl msg : kt (log lvl msg : Prog unit).
Proof.
  intros st. apply tied_same with (nc := []); simpl;
    [reflexivity | now rewrite app_nil_r].
Qed.

Lemma kt_record c : kt (record c : Prog unit).
Proof. intros st. apply tied_same with (nc := [c]); reflexivity. Qed.

Lemma kt_lift_query {A} (r : QueryError + A) : kt (lift_query r : Prog A).
Proof. destruct r; intros st; apply tied_refl. Qed.

(** An oracle that leaves the record alone. *)
Lemma kt_ask {A} (f : World -> A * World) :
  (forall w, answers (snd (f w)) = answers w) -> kt (ask f).
Proof.
  intros Hf st. unfold ask. specialize (Hf (world st)).
  destruct (f (world st)) as [a w]. simpl in *.
  apply tied_same with (nc := []); simpl; [exact Hf | now rewrite app_nil_r].
Qed.

Lemma kt_api_facet c dim term dr limit :
  kt (api_facet E c dim term dr limit).
Proof.
  destruct world_records as (_ & _ & Hfacet & _).
  unfold api_facet.
  apply kt_bind; [apply kt_record | intros _].
  apply kt_bind; [apply kt_ask; apply Hfacet | intros r; apply kt_lift_query].
Qed.

Lemma kt_time_sleep delay : kt (time_sleep E delay).
Proof.
  destruct world_records as (_ & _ & _ & _ & Hsleep & _).
  unfold time_sleep. destruct (Qle_bool 0 delay); [| apply kt_raise].
  apply kt_bind; [apply kt_record | intros _].
  apply kt_ask. intros w. apply Hsleep.
Qed.

Lemma kt_random_choice h hs : kt (random_choice E h hs).
Proof.
  destruct world_records as (_ & _ & _ & _ & _ & Hrand & _).
  unfold random_choice.
  apply kt_bind; [apply kt_ask; apply Hrand | intros i; apply kt_ret].
Qed.

Lemma kt_new_DateRange a b : kt (new_DateRange E a b).
Proof.
  unfold new_DateRange.
  destruct (date_range_error E a b); [apply kt_raise | apply kt_ret].
Qed.

(** The answer to a find joins the record after the call was made. *)
Lemma kt_api_find c term newspaper_id dr wt limit :
  kt (api_find E c term newspaper_id dr wt limit).
Proof.
  destruct world_records as (Hfind & _).
  intros st. unfold api_find. unfold_monad. simpl.
  pose proof (Hfind c term newspaper_id dr wt limit (world st)) as Hf.
  destruct (search_find E c term newspaper_id dr wt limit (world st))
    as [[q|raw] w]; simpl in *.
  - apply tied_same with (nc := [CFind term newspaper_id dr wt limit]);
      simpl; [now rewrite Hf, app_nil_r | reflexivity].
  - exists [(CFind term newspaper_id dr wt limit, raw)],
           [CFind term newspaper_id dr wt limit].
    simpl. repeat split; auto.
Qed.

Section Sampler.

Variable client_arg : ClientArg World Client.
Variable keyword : string.
Variable limit_per_query : Z.
Variable max_hits : Z.
Variable delay : Q.

Hypothesis accessor_keeps : keeps_record answers client_arg.
Hypothesis client_quiet : client_ok client_arg.

Lemma kt_get_c : kt (get_c client_arg).
Proof.
  intros st. destruct (client_quiet st) as [(nc & nl & Hc & _) _].
  apply tied_same with (nc := nc); [apply accessor_keeps | exact Hc].
Qed.

Ltac kt_step :=
  first
    [ apply kt_ret
    | apply kt_raise
    | apply kt_log
    | apply kt_get_c
    | apply kt_api_find
    | apply kt_api_facet
    | apply kt_time_sleep
    | apply kt_random_choice
    | apply kt_new_DateRange
    | apply kt_bind; [| intros ?]
    | apply kt_try; [| intros ?]
    | match goal with
      | |- keeps_tied _ (match ?x with _ => _ end) => destruct x eqn:?
      end ].

Lemma kt_papers_loop year dr papers :
  forall s f,
    kt (papers_loop E client_arg keyword limit_per_query max_hits delay
            year dr papers s f).
Proof.
  induction papers as [|paper rest IH]; intros s f.
  - rewrite papers_loop_nil. apply kt_ret.
  - rewrite papers_loop_cons. apply kt_bind.
    + unfold paper_body, try_cell. repeat kt_step.
    + intros [s' f'|r]; [apply IH | apply kt_ret].
Qed.

Lemma kt_years_loop years :
  forall s f,
    kt (years_loop E client_arg keyword limit_per_query max_hits delay
            years s f).
Proof.
  induction years as [|yb rest IH]; intros s f.
  - rewrite years_loop_nil. apply kt_ret.
  - rewrite years_loop_cons. apply kt_bind.
    + unfold year_body.
      repeat (first [apply kt_papers_loop | kt_step]).
    + intros [s' f'|r]; [apply IH | apply kt_ret].
Qed.

(** The answers a call adds to the record are answers to finds among the
    calls it made. *)
Lemma sample_tied start_date end_date (st : St) :
  tied answers st
    (snd (sample_impresso_uids E client_arg keyword start_date end_date
            limit_per_query max_hits delay st)).
Proof.
  revert st.
  change (kt (sample_impresso_uids E client_arg keyword start_date end_date
                  limit_per_query max_hits delay)).
  unfold sample_impresso_uids, make_initial_range.
  repeat (first [apply kt_years_loop | kt_step]).
Qed.

End Sampler.

End TiedRules.

Section SamplerShapes.

Variables World Client : Type.
Variable E : Oracles World Client.
Variable client_arg : ClientArg World Client.
Variable keyword : string.
Variable limit_per_query : Z.
Variable max_hits : Z.
Variable delay : Q.
Variable P : Call -> Prop.

Hypothesis client_quiet : client_ok client_arg.
Hypothesis P_provider : P CProvider.
Hypothesis P_sleep : P (CSleep delay).

Local Abbreviation any_log := (fun _ : Level * Msg => True).
Local Abbreviation any_exn := (fun _ : PyExn => True).

Lemma shape_get_c : frames P any_log any_exn (get_c client_arg).
Proof.
  eapply frames_weaken; try exact client_quiet; auto.
  intros c ->. exact P_provider.
Qed.

Lemma shape_time_sleep : frames P any_log any_exn (time_sleep E delay).
Proof. unfold time_sleep. repeat frames_step; auto. Qed.

(** [DateRange] either raises or hands back the range of its arguments. *)
Lemma shape_bind_new_DateRange {A : Type} a b (k : DateRange -> M World Client A) :
  frames P any_log any_exn (k (mkDateRange a b)) ->
  frames P any_log any_exn (bind (new_DateRange E a b) k).
Proof.
  intros Hk. unfold new_DateRange.
  destruct (date_range_error E a b) as [msg|].
  - change (frames P any_log any_exn (@raise World Client A (ValueError_date msg))).
    apply frames_raise. exact I.
  - exact Hk.
Qed.

Lemma shape_bind_initial_range {A : Type} start_date end_date
    (k : option DateRange -> M World Client A) :
  frames P any_log any_exn (k (initial_range start_date end_date)) ->
  frames P any_log any_exn (bind (make_initial_range E start_date end_date) k).
Proof.
  unfold make_initial_range, initial_range, new_DateRange. intros Hk.
  destruct (truthy start_date || truthy end_date).
  - destruct (date_range_error E start_date end_date) as [msg|].
    + change (frames P any_log any_exn
                (@raise World Client A (ValueError_date msg))).
      apply frames_raise. exact I.
    + change (frames P any_log any_exn
                (bind (log INFO (MUsingDateRange (mkDateRange start_date end_date)))
                   (fun _ => k (Some (mkDateRange start_date end_date))))).
      apply frames_bind; [apply frames_log; exact I | intros _; exact Hk].
  - change (frames P any_log any_exn
              (bind (log INFO MNoDateRange) (fun _ => k None))).
    apply frames_bind; [apply frames_log; exact I | intros _; exact Hk].
Qed.

Lemma shape_papers_loop year dr papers :
  (forall newspaper_id,
      newspaper_id <> EmptyString ->
      P (CFind keyword newspaper_id dr false limit_per_query)) ->
  forall s f,
    frames P any_log any_exn
      (papers_loop E client_arg keyword limit_per_query max_hits delay
         year dr papers s f).
Proof.
  intros HP. induction papers as [|paper rest IH]; intros s f.
  - rewrite papers_loop_nil. apply frames_ret.
  - rewrite papers_loop_cons. apply frames_bind.
    + unfold paper_body, try_cell, api_find, random_choice.
      repeat (first [apply shape_time_sleep | apply shape_get_c | frames_step]);
        simpl; auto.
      apply HP. discriminate.
    + intros [s' f'|r]; [apply IH | apply frames_ret].
Qed.

Lemma shape_years_loop years :
  (forall year newspaper_id,
      year <> EmptyString -> newspaper_id <> EmptyString ->
      P (CFind keyword newspaper_id (year_range year) false limit_per_query)) ->
  (forall year,
      year <> EmptyString ->
      P (CFacet "newspaper" keyword (Some (year_range year)) 200)) ->
  forall s f,
    frames P any_log any_exn
      (years_loop E client_arg keyword limit_per_query max_hits delay
         years s f).
Proof.
  intros HF HS. induction years as [|yb rest IH]; intros s f.
  - rewrite years_loop_nil. apply frames_ret.
  - rewrite years_loop_cons. apply frames_bind.
    + unfold year_body, api_facet.
      destruct (value yb) as [[|a y]|]; try apply frames_ret.
      assert (Hy : String a y <> EmptyString) by discriminate.
      apply shape_bind_new_DateRange.
      repeat (first [apply shape_papers_loop | apply shape_get_c | frames_step]);
        auto.
      * exact (HS (String a y) Hy).
      * intros newspaper_id Hn. exact (HF (String a y) newspaper_id Hy Hn).
    + intros [s' f'|r]; [apply IH | apply frames_ret].
Qed.

Lemma shape_sample start_date end_date :
  (forall year newspaper_id,
      year <> EmptyString -> newspaper_id <> EmptyString ->
      P (CFind keyword newspaper_id (year_range year) false limit_per_query)) ->
  (forall year,
      year <> EmptyString ->
      P (CFacet "newspaper" keyword (Some (year_range year)) 200)) ->
  P (CFacet "year" keyword (initial_range start_date end_date) 200) ->
  frames P any_log any_exn
    (sample_impresso_uids E client_arg keyword start_date end_date
       limit_per_query max_hits delay).
Proof.
  intros HF HS HY. unfold sample_impresso_uids, api_facet.
  repeat (first [apply shape_years_loop | apply shape_get_c
                | apply shape_bind_initial_range | frames_step]);
    simpl; auto.
Qed.

End SamplerShapes.

(** X1. Let the world keep a faithful record of the finds it answers, and
    let the client accessor leave that record alone.  Then every UID that
    [sample_impresso_uids] returns is the uid of a hit in the answer to
    one of the finds that this call made for the keyword, with
    [with_text_contents=False] and limit [limit_per_query]: the answers
    are those the call added to the record, and through a quiet accessor
    each of them answers a find that is among the calls the run made. *)
Theorem sampled_uids_come_from_hits {World Client : Type}
    (E : Oracles World Client) (answers : World -> list Answer)
    (ca : ClientArg World Client)
    (keyword : string) (start_date end_date : option string)
    (limit_per_query max_hits : Z) (delay : Q)
    (st : State World Client) (l : list string) (st' : State World Client) :
  records_finds E answers ->
  keeps_record answers ca ->
  sample_impresso_uids E ca keyword start_date end_date
    limit_per_query max_hits delay st = (Ok l, st') ->
  exists new,
    answers (world st') = answers (world st) ++ new /\
    Forall (hit_of keyword limit_per_query new) l /\
    (client_ok ca ->
     exists new_calls,
       calls st' = calls st ++ new_calls /\
       Forall (fun a : Answer => In (fst a) new_calls) new).
Proof.
  intros Hrec Hkeep H.
  destruct (sample_adds _ _ E answers ca keyword limit_per_query max_hits delay
              Hrec Hkeep start_date end_date st l st' H) as (new & Hn & Hf).
  exists new. split; [exact Hn |]. split; [exact Hf |]. intros Hq.
  destruct (sample_tied _ _ E answers Hrec ca keyword limit_per_query max_hits
              delay Hkeep Hq start_date end_date st)
    as (new' & nc & Ha & Hc & Hin).
  rewrite H in Ha, Hc. simpl in Ha, Hc.
  rewrite Hn in Ha. apply app_inv_head in Ha. subst new'.
  exists nc. auto.
Qed.

(** X2. With a negative [delay] the pause after each find raises, the
    error is caught in the cell, and no UID is ever collected: whenever
    [sample_impresso_uids] returns, it returns the empty list. *)
Theorem negative_delay_samples_nothing {World Client : Type}
    (E : Oracles World Client) (ca : ClientArg World Client)
    (keyword : string) (start_date end_date : option string)
    (limit_per_query max_hits : Z) (delay : Q)
    (st : State World Client) (l : list string) (st' : State World Client) :
  (delay < 0)%Q ->
  sample_impresso_uids E ca keyword start_date end_date
    limit_per_query max_hits delay st = (Ok l, st') ->
  l = [].
Proof.
  intros Hneg H. apply sample_flow in H.
  assert (Hd : Qle_bool 0 delay = true -> False).
  { intros Hd. apply Qle_bool_iff in Hd. exact (Qlt_not_le _ _ Hneg Hd). }
  destruct H as [(_ & _ & H) | (s & u & _ & _ & _ & H & _)].
  - destruct l as [|x l]; auto. destruct H as [H _]; [discriminate |].
    destruct (Hd H).
  - destruct (Hd H).
Qed.

(** X3. With [max_hits] zero or negative the test [found >= max_hits]
    holds after the first UID: [sample_impresso_uids] returns at most one
    UID. *)
Theorem nonpositive_max_hits_one_uid {World Client : Type}
    (E : Oracles World Client) (ca : ClientArg World Client)
    (keyword : string) (start_date end_date : option string)
    (limit_per_query max_hits : Z) (delay : Q)
    (st : State World Client) (l : list string) (st' : State World Client) :
  max_hits <= 0 ->
  sample_impresso_uids E ca keyword start_date end_date
    limit_per_query max_hits delay st = (Ok l, st') ->
  (List.length l <= 1)%nat.
Proof.
  intros Hmh H. apply sample_flow in H.
  assert (Hnil : forall s, Going max_hits delay s
                             (Z.of_nat (List.length s)) -> s = []).
  { intros s (_ & _ & Hs). destruct s as [|x s]; auto.
    destruct Hs as [_ Hs]; [discriminate |]. simpl List.length in Hs. lia. }
  destruct H as [H | (s & u & -> & H & _)].
  - rewrite (Hnil _ H). simpl. lia.
  - rewrite (Hnil _ H). simpl. lia.
Qed.

(** X4. Through a quiet client accessor, every call a run of
    [sample_impresso_uids] makes has one of five shapes: a question to the
    session provider, a pause of length [delay], the time facet of the
    keyword over the given range with limit 200, the source facet of the
    keyword over one calendar year with limit 200, or a find of the
    keyword in one newspaper over one calendar year with
    [with_text_contents=False] and limit [limit_per_query]. *)
Theorem sample_calls_have_known_shapes {World Client : Type}
    (E : Oracles World Client) (ca : ClientArg World Client)
    (keyword : string) (start_date end_date : option string)
    (limit_per_query max_hits : Z) (delay : Q) (st : State World Client) :
  client_ok ca ->
  exists new_calls,
    calls (snd (sample_impresso_uids E ca keyword start_date end_date
                  limit_per_query max_hits delay st))
      = calls st ++ new_calls /\
    Forall (sample_call_shape keyword start_date end_date limit_per_query delay)
      new_calls.
Proof.
  intros Hq.
  destruct (shape_sample _ _ E ca keyword limit_per_query max_hits delay
              (sample_call_shape keyword start_date end_date limit_per_query
                 delay) Hq) with (start_date := start_date)
    (end_date := end_date) (st := st) as [(nc & nl & Hc & _ & HP & _) _].
  - left. reflexivity.
  - right. left. reflexivity.
  - intros year nid Hy Hn. right. right. right. right. exists year, nid. auto.
  - intros year Hy. right. right. right. left. exists year. auto.
  - right. right. left. reflexivity.
  - exists nc. auto.
Qed.

(* ================================================================== *)
(** ** The client accessor, further *)

(** X5. One run of [_get_impresso_client_lazy] asks the provider once and
    returns its client; when that attempt fails it asks exactly once
    more, and when the second attempt fails too it raises the ImportError
    that carries the second failure. *)
Theorem lazy_acquisition_retries_once {World Client : Type}
    (E : Oracles World Client) (st : State World Client) :
  let (r1, w1) := provider E (world st) in
  let (r2, w2) := provider E w1 in
  let run := _get_impresso_client_lazy E st in
  match r1, failure r2 with
  | Acquired c, _ =>
      fst run = Ok c /\ calls (snd run) = calls st ++ [CProvider] /\
      world (snd run) = w1
  | _, None =>
      (exists c, r2 = Acquired c /\ fst run = Ok c) /\
      calls (snd run) = calls st ++ [CProvider; CProvider] /\
      world (snd run) = w2
  | _, Some msg =>
      fst run = Raise (ImportError_client (ProviderError msg)) /\
      calls (snd run) = calls st ++ [CProvider; CProvider] /\
      world (snd run) = w2
  end.
Proof.
  unfold _get_impresso_client_lazy, import_and_call. unfold_monad. simpl.
  destruct (provider E (world st)) as [r1 w1].
  destruct (provider E w1) as [r2 w2] eqn:H2.
  destruct r1 as [m1|m1|c1]; simpl; rewrite ?H2;
    destruct r2 as [m2|m2|c2]; simpl; rewrite <- ?app_assoc; simpl; eauto.
Qed.

Lemma py_int_nonneg (x : Q) : (0 <= x)%Q -> 0 <= py_int x.
Proof.
  unfold Qle, py_int. simpl. intros H.
  apply Z.quot_pos; lia.
Qed.

Lemma round_half_even_nonneg (n d : Z) :
  0 <= n -> 0 < d -> 0 <= round_half_even n d.
Proof.
  intros Hn Hd. unfold round_half_even.
  assert (H : 0 <= n / d) by (apply Z.div_pos; lia).
  destruct (2 * (n mod d) ?= d); [destruct (Z.even (n / d)) | |]; lia.
Qed.

Lemma binary64_of_pos_nonneg (n d : Z) :
  0 < n -> 0 < d -> (0 <= binary64_of_pos n d)%Q.
Proof.
  intros Hn Hd. unfold binary64_of_pos.
  set (e := if (if 0 <=? Z.log2 n - Z.log2 d
                then d * 2 ^ (Z.log2 n - Z.log2 d) <=? n
                else d <=? n * 2 ^ (- (Z.log2 n - Z.log2 d)))
            then Z.log2 n - Z.log2 d else Z.log2 n - Z.log2 d - 1).
  set (k := Z.max (e - 52) (-1074)).
  destruct (0 <=? k) eqn:Hk.
  - apply Z.leb_le in Hk.
    assert (H2 : 0 < 2 ^ k) by (apply Z.pow_pos_nonneg; lia).
    assert (H : 0 <= round_half_even n (d * 2 ^ k))
      by (apply round_half_even_nonneg; nia).
    unfold Qle. simpl. nia.
  - apply Z.leb_gt in Hk.
    assert (H2 : 0 < 2 ^ (- k)) by (apply Z.pow_pos_nonneg; lia).
    assert (H : 0 <= round_half_even (n * 2 ^ (- k)) d)
      by (apply round_half_even_nonneg; nia).
    unfold Qle. simpl. lia.
Qed.

(** A float difference of [a >= b] is not negative. *)
Lemma float_sub_nonneg (a b : Q) : (b <= a)%Q -> (0 <= float_sub a b)%Q.
Proof.
  intros Hle. unfold float_sub, binary64_round.
  assert (Hq : (0 <= a - b)%Q).
  { unfold Qminus. rewrite <- (Qplus_opp_r b). apply Qplus_le_l. exact Hle. }
  destruct (Qnum (a - b)) as [|n|n] eqn:Hn.
  - apply Qle_refl.
  - apply binary64_of_pos_nonneg; reflexivity.
  - unfold Qle in Hq. rewrite Hn in Hq. simpl in Hq. lia.
Qed.

(** X6. When a hint is due (the float difference [now - last_hint] has
    reached 900 seconds), [hint_if_due] logs the time left as hours,
    minutes and seconds that add up to
    [max(0, 27000 - int(now - last_refresh))], the difference being the
    float one, with minutes and seconds below 60, and sets [last_hint] to
    [now]; the time left is at most 27000 seconds when the clock has not
    gone back behind [last_refresh].  When no hint is due, nothing
    changes. *)
Theorem hint_reports_time_left {World Client : Type}
    (now : Q) (st : State World Client) :
  let time_left :=
    Z.max 0 (TTL - py_int (float_sub now (last_refresh (proxy st)))) in
  ((inject_Z CLIENT_REFRESH_HINT_INTERVAL_SECONDS
      <= float_sub now (last_hint (proxy st)))%Q ->
   exists hrs mins secs,
     hint_if_due now st =
       (Ok tt,
        mkState (world st) (calls st)
          (logs st ++ [(INFO, MTimeToRecreation hrs mins secs)]) (disk st)
          (mkProxy (client (proxy st)) (last_refresh (proxy st)) now)) /\
     hrs * 3600 + mins * 60 + secs = time_left /\
     0 <= hrs /\ 0 <= mins < 60 /\ 0 <= secs < 60 /\
     ((last_refresh (proxy st) <= now)%Q -> time_left <= 27000)) /\
  ((float_sub now (last_hint (proxy st))
      < inject_Z CLIENT_REFRESH_HINT_INTERVAL_SECONDS)%Q ->
   hint_if_due now st = (Ok tt, st)).
Proof.
  intros time_left. unfold hint_if_due. unfold_monad. cbn beta iota. split.
  - intros Hdue. apply q_geb_true in Hdue. rewrite Hdue.
    fold time_left.
    assert (Hpos : 0 <= time_left) by apply Z.le_max_l.
    exists (time_left / 3600), ((time_left mod 3600) / 60), (time_left mod 60).
    split; [reflexivity |].
    pose proof (Z.div_mod time_left 3600 ltac:(lia)) as H1.
    pose proof (Z.mod_pos_bound time_left 3600 ltac:(lia)) as H2.
    pose proof (Z.div_mod (time_left mod 3600) 60 ltac:(lia)) as H3.
    pose proof (Z.mod_pos_bound (time_left mod 3600) 60 ltac:(lia)) as H4.
    pose proof (Z.mod_pos_bound time_left 60 ltac:(lia)) as H5.
    assert (H6 : (time_left mod 3600) mod 60 = time_left mod 60).
    { apply Z.mod_mod_divide. exists 60. reflexivity. }
    assert (H7 : 0 <= time_left / 3600) by (apply Z.div_pos; lia).
    assert (H8 : 0 <= (time_left mod 3600) / 60 < 60).
    { split; [apply Z.div_pos; lia |].
      apply Z.div_lt_upper_bound; lia. }
    repeat split; try lia.
    intros Hle. subst time_left.
    apply float_sub_nonneg, py_int_nonneg in Hle.
    unfold TTL, CLIENT_REFRESH_INTERVAL_SECONDS. lia.
  - intros Hnot. apply q_geb_false in Hnot. rewrite Hnot. destruct st; reflexivity.
Qed.

Section ClientRuns.

Variables World Client : Type.
Variable E : Oracles World Client.

Local Abbreviation St := (State World Client).

Lemma refresh_not_due now (st : St) :
  q_geb (float_sub now (last_refresh (proxy st))) TTL = false ->
  refresh_if_due E now st = (Ok tt, st).
Proof.
  intros H. unfold refresh_if_due. unfold_monad. simpl. now rewrite H.
Qed.

Lemma refresh_due now (st : St) :
  q_geb (float_sub now (last_refresh (proxy st))) TTL = true ->
  exists st' n,
    refresh_if_due E now st = (Ok tt, st') /\
    last_refresh (proxy st') = now /\ disk st' = disk st /\
    (n = 1 \/ n = 2)%nat /\ calls st' = calls st ++ repeat CProvider n.
Proof.
  intros H. unfold refresh_if_due. unfold_monad. simpl. rewrite H.
  match goal with
  | |- context [_get_impresso_client_lazy E ?s0] =>
      destruct (lazy_attempts _ _ E s0) as (n & Hn & Hc);
      assert (Hd : disk (snd (_get_impresso_client_lazy E s0)) = disk s0);
      [| destruct (_get_impresso_client_lazy E s0) as [[c|e] st1] ]
  end.
  { unfold _get_impresso_client_lazy, import_and_call. unfold_monad. simpl.
    destruct (provider E (world st)) as [[m1|m1|c1] w1]; simpl; auto;
      destruct (provider E w1) as [[m2|m2|c2] w2]; simpl; auto. }
  all: simpl in *; eexists; exists n; split; [reflexivity |]; simpl; auto.
Qed.

(** What one call of [get_client] comes to. *)
Lemma get_client_steps (st : St) now w :
  clock E (world st) = (now, w) ->
  exists st',
    get_client E st = (Ok (client (proxy st')), st') /\
    disk st' = disk st /\
    (q_geb (float_sub now (last_refresh (proxy st))) TTL = false ->
     calls st' = calls st /\ proxy_same_client st st') /\
    (q_geb (float_sub now (last_refresh (proxy st))) TTL = true ->
     last_refresh (proxy st') = now /\
     exists n, (n = 1 \/ n = 2)%nat /\
               calls st' = calls st ++ repeat CProvider n).
Proof.
  intros Hclock.
  destruct (hint_if_due_spec _ _ now (with_world w st))
    as (sth & Hh & Hc & Hw & Hcl & Hlr).
  assert (Hdh : disk sth = disk st).
  { pose proof (hint_if_due_disk _ _ now (with_world w st)) as Hd.
    rewrite Hh in Hd. exact Hd. }
  simpl in Hc, Hcl, Hlr.
  unfold get_client, time_time, ask, bind, get_proxy, ret.
  rewrite Hclock, Hh. rewrite <- Hlr.
  destruct (q_geb (float_sub now (last_refresh (proxy sth))) TTL) eqn:Hdue.
  - destruct (refresh_due now sth Hdue) as (st' & n & Hr & Hlast & Hd & Hn & Hcalls).
    rewrite Hr. exists st'. split; [reflexivity |]. split; [congruence |].
    split; [discriminate |]. intros _. split; auto.
    exists n. rewrite <- Hc. auto.
  - rewrite (refresh_not_due now sth Hdue). exists sth.
    split; [reflexivity |]. split; [exact Hdh |].
    split; [| discriminate]. intros _. split; auto.
    unfold proxy_same_client. rewrite Hlr. auto.
Qed.

End ClientRuns.

(** X7. [get_client] never raises, whatever the provider does: it always
    returns the client it then holds, leaves the result file alone, and
    asks the provider at most twice. *)
Theorem get_client_never_raises {World Client : Type}
    (E : Oracles World Client) (st : State World Client) :
  exists st' n,
    get_client E st = (Ok (client (proxy st')), st') /\
    disk st' = disk st /\
    (n <= 2)%nat /\ calls st' = calls st ++ repeat CProvider n.
Proof.
  destruct (clock E (world st)) as [now w] eqn:Hclock.
  destruct (get_client_steps _ _ E st now w Hclock)
    as (st' & Hrun & Hd & Hno & Hyes).
  destruct (q_geb (float_sub now (last_refresh (proxy st))) TTL) eqn:Hdue.
  - destruct (Hyes eq_refl) as (_ & n & Hn & Hc).
    exists st', n. repeat split; auto. destruct Hn; lia.
  - destruct (Hno eq_refl) as (Hc & _).
    exists st', 0%nat. simpl. rewrite app_nil_r. repeat split; auto.
Qed.

(** X8. A refresh that was due is not tried again before the interval has
    gone by once more, whether it succeeded or failed: after a call of
    [get_client] at a time [now] at which the refresh was due, a call at
    a time [later] with the float difference [later - now] below the
    interval asks the provider nothing and returns the client the first
    call left. *)
Theorem refresh_deferred_for_an_interval {World Client : Type}
    (E : Oracles World Client) (st : State World Client)
    (now later : Q) (w w' : World) :
  clock E (world st) = (now, w) ->
  (inject_Z TTL <= float_sub now (last_refresh (proxy st)))%Q ->
  let st1 := snd (get_client E st) in
  clock E (world st1) = (later, w') ->
  (float_sub later now < inject_Z TTL)%Q ->
  fst (get_client E st1) = Ok (client (proxy st1)) /\
  calls (snd (get_client E st1)) = calls st1.
Proof.
  intros Hclock Hdue st1 Hclock' Hsoon.
  destruct (get_client_steps _ _ E st now w Hclock)
    as (sta & Hrun & _ & _ & Hyes).
  apply q_geb_true in Hdue. destruct (Hyes Hdue) as [Hlast _].
  subst st1. rewrite Hrun in *. simpl in *.
  destruct (get_client_steps _ _ E sta later w' Hclock')
    as (stb & Hrun' & _ & Hno & _).
  rewrite Hlast in Hno. apply q_geb_false in Hsoon.
  destruct (Hno Hsoon) as [Hc [Hcl _]].
  rewrite Hrun'. simpl. split; congruence.
Qed.

(* ================================================================== *)
(** ** The result file and the campaign, further *)

Section DiskRules.

Variables World Client : Type.

Local Abbreviation Prog := (M World Client).

Lemma kd_ret {A} (a : A) : @keeps_disk World Client A (ret a).
Proof. intros st. reflexivity. Qed.

Lemma kd_raise {A} e : @keeps_disk World Client A (raise e).
Proof. intros st. reflexivity. Qed.

Lemma kd_bind {A B} (m : Prog A) (k : A -> Prog B) :
  keeps_disk m -> (forall a, keeps_disk (k a)) -> keeps_disk (bind m k).
Proof.
  intros Hm Hk st. unfold bind. specialize (Hm st).
  destruct (m st) as [[a|e] st1]; simpl in *; auto.
  rewrite (Hk a st1). exact Hm.
Qed.

Lemma kd_try {A} (m : Prog A) (h : PyExn -> Prog A) :
  keeps_disk m -> (forall e, keeps_disk (h e)) -> keeps_disk (try_except m h).
Proof.
  intros Hm Hh st. unfold try_except. specialize (Hm st).
  destruct (m st) as [[a|e] st1]; simpl in *; auto.
  rewrite (Hh e st1). exact Hm.
Qed.

Lemma kd_log lvl msg : @keeps_disk World Client unit (log lvl msg).
Proof. intros st. reflexivity. Qed.

Lemma kd_record c : @keeps_disk World Client unit (record c).
Proof. intros st. reflexivity. Qed.

Lemma kd_ask {A} (f : World -> A * World) : @keeps_disk World Client A (ask f).
Proof. intros st. unfold ask. destruct (f (world st)). reflexivity. Qed.

Lemma kd_get_proxy : @keeps_disk World Client _ get_proxy.
Proof. intros st. reflexivity. Qed.

Lemma kd_set_proxy p : @keeps_disk World Client unit (set_proxy p).
Proof. intros st. reflexivity. Qed.

Lemma kd_lift_query {A} (r : QueryError + A) :
  @keeps_disk World Client A (lift_query r).
Proof. destruct r; intros st; reflexivity. Qed.

End DiskRules.

Ltac kd_step :=
  first
    [ apply kd_ret
    | apply kd_raise
    | apply kd_log
    | apply kd_record
    | apply kd_ask
    | apply kd_get_proxy
    | apply kd_set_proxy
    | apply kd_lift_query
    | apply kd_bind; [| intros ?]
    | apply kd_try; [| intros ?]
    | match goal with
      | |- keeps_disk (match ?x with _ => _ end) => destruct x eqn:?
      end ].

Section CampaignDisk.

Variables World Client : Type.
Variable E : Oracles World Client.

Local Abbreviation St := (State World Client).

Lemma kd_lazy : keeps_disk (_get_impresso_client_lazy E).
Proof.
  unfold _get_impresso_client_lazy, import_and_call. repeat kd_step.
Qed.

Lemma kd_get_client : keeps_disk (get_client E).
Proof.
  unfold get_client, time_time, hint_if_due, refresh_if_due.
  repeat (first [apply kd_lazy | kd_step]).
Qed.

Section Sampler.

Variable client_arg : ClientArg World Client.
Variable keyword : string.
Variable limit_per_query : Z.
Variable max_hits : Z.
Variable delay : Q.

Hypothesis kd_client : keeps_disk (get_c client_arg).

Lemma kd_papers_loop year dr papers :
  forall s f,
    keeps_disk (papers_loop E client_arg keyword limit_per_query max_hits delay
                  year dr papers s f).
Proof.
  induction papers as [|paper rest IH]; intros s f.
  - rewrite papers_loop_nil. apply kd_ret.
  - rewrite papers_loop_cons. apply kd_bind.
    + unfold paper_body, try_cell, api_find, time_sleep, random_choice.
      repeat (first [apply kd_client | kd_step]).
    + intros [s' f'|r]; [apply IH | apply kd_ret].
Qed.

Lemma kd_years_loop years :
  forall s f,
    keeps_disk (years_loop E client_arg keyword limit_per_query max_hits delay
                  years s f).
Proof.
  induction years as [|yb rest IH]; intros s f.
  - rewrite years_loop_nil. apply kd_ret.
  - rewrite years_loop_cons. apply kd_bind.
    + unfold year_body, new_DateRange, api_facet.
      destruct (value yb) as [[|a y]|]; try apply kd_ret.
      repeat (first [apply kd_papers_loop | apply kd_client | kd_step]).
    + intros [s' f'|r]; [apply IH | apply kd_ret].
Qed.

Lemma kd_sample start_date end_date :
  keeps_disk (sample_impresso_uids E client_arg keyword start_date end_date
                limit_per_query max_hits delay).
Proof.
  unfold sample_impresso_uids, make_initial_range, new_DateRange, api_facet.
  repeat (first [apply kd_years_loop | apply kd_client | kd_step]).
Qed.

End Sampler.

Variable limit_per_query : Z.
Variable max_hits : Z.
Variable delay : Q.
Variables start_date end_date : option string.

Local Abbreviation process' :=
  (process_agency E limit_per_query max_hits delay start_date end_date).
Local Abbreviation loop' :=
  (agencies_loop E limit_per_query max_hits delay start_date end_date).

(** Processing one agency: the entry it sets, and the file it leaves. *)
Lemma process_file idx total agency results (st : St) :
  exists uids st',
    process' idx total agency results st
      = (Ok (dict_set agency uids results), st') /\
    (writes_succeed E ->
     disk st' = Some (json_dumps (dict_set agency uids results))).
Proof.
  unfold process_agency. unfold_monad. simpl.
  match goal with
  | |- context [sample_impresso_uids ?E' ?ca ?k ?sd ?ed ?lim ?mh ?d ?s0] =>
      destruct (sample_impresso_uids E' ca k sd ed lim mh d s0) as [[ids|e] st1]
  end; simpl;
    (match goal with
     | |- context [persist E (dict_set agency ?v results) ?s0] =>
         destruct (persist_spec _ _ E (dict_set agency v results) s0)
           as (st' & Hp & _ & _ & _ & Hd); rewrite Hp; simpl;
         exists v, st'
     end);
    (split; [reflexivity |]);
    intros Hw; rewrite Hd, Hw; reflexivity.
Qed.

Lemma loop_file agencies :
  writes_succeed E ->
  forall idx total results (st : St),
    exists results',
      fst (loop' idx total agencies results st) = Ok results' /\
      (disk (snd (loop' idx total agencies results st))
         = Some (json_dumps results') \/
       (results' = results /\
        disk (snd (loop' idx total agencies results st)) = disk st)).
Proof.
  intros Hw. induction agencies as [|agency rest IH]; intros idx total results st.
  - rewrite agencies_loop_nil. simpl. eauto.
  - destruct (done agency results) eqn:Hd.
    + rewrite agencies_loop_done by exact Hd. unfold bind, log. simpl.
      match goal with
      | |- context [agencies_loop _ _ _ _ _ _ _ _ _ _ ?s0] =>
          destruct (IH (S idx) total results s0) as (r' & Hr & Hdisk)
      end.
      exists r'. split; auto.
    + rewrite agencies_loop_todo by exact Hd. unfold bind.
      destruct (process_file idx total agency results st)
        as (uids & st1 & Hp & Hfile).
      rewrite Hp.
      destruct (IH (S idx) total (dict_set agency uids results) st1)
        as (r' & Hr & Hdisk).
      exists r'. split; auto. left.
      destruct Hdisk as [Hdisk | [-> Hdisk]]; auto.
      rewrite Hdisk. now apply Hfile.
Qed.

Lemma loop_entries agencies :
  forall idx total results (st : St),
    exists results',
      fst (loop' idx total agencies results st) = Ok results' /\
      (forall a, In a agencies -> dict_get a results' <> None) /\
      (forall k v, dict_get k results = Some v ->
                   exists v', dict_get k results' = Some v' /\
                              (v <> [] -> v' = v)) /\
      (forall k, dict_get k results' <> None ->
                 dict_get k results <> None \/ In k agencies).
Proof.
  induction agencies as [|agency rest IH]; intros idx total results st.
  - rewrite agencies_loop_nil. simpl. exists results.
    split; [reflexivity |]. split; [intros a [] |]. split; eauto.
  - destruct (done agency results) eqn:Hd.
    + rewrite agencies_loop_done by exact Hd. unfold bind, log. simpl.
      match goal with
      | |- context [agencies_loop _ _ _ _ _ _ _ _ _ _ ?s0] =>
          destruct (IH (S idx) total results s0) as (r' & Hr & Hin & Hkeep & Hnew)
      end.
      exists r'. split; [exact Hr |]. split; [| split].
      * intros a [<- | Ha]; auto.
        unfold done in Hd.
        destruct (dict_get agency results) as [v|] eqn:Hg; try discriminate.
        destruct (Hkeep agency v Hg) as (v' & Hv' & _). congruence.
      * exact Hkeep.
      * intros k Hk.
        destruct (Hnew k Hk) as [H | H]; [left; exact H | right; right; exact H].
    + rewrite agencies_loop_todo by exact Hd. unfold bind.
      destruct (process_file idx total agency results st)
        as (uids & st1 & Hp & _).
      rewrite Hp.
      destruct (IH (S idx) total (dict_set agency uids results) st1)
        as (r' & Hr & Hin & Hkeep & Hnew).
      exists r'. split; [exact Hr |]. split; [| split].
      * intros a [<- | Ha]; auto.
        destruct (Hkeep agency uids (dict_get_set_same _ _ _)) as (v' & Hv' & _).
        congruence.
      * intros k v Hg. destruct (String.eqb_spec k agency) as [-> | Hne].
        -- destruct (Hkeep agency uids (dict_get_set_same _ _ _))
             as (v' & Hv' & _).
           exists v'. split; auto. intros Hv.
           unfold done in Hd. rewrite Hg in Hd.
           destruct v; [contradiction | discriminate].
        -- apply Hkeep. rewrite dict_get_set_other; auto.
      * intros k Hk. destruct (String.eqb_spec k agency) as [-> | Hne].
        -- right. now left.
        -- destruct (Hnew k Hk) as [H | H]; [| right; now right].
           left. rewrite dict_get_set_other in H; auto.
Qed.

Lemma loop_all_done agencies :
  forall idx total results (st : St),
    (forall a, In a agencies -> done a results = true) ->
    exists skipped,
      loop' idx total agencies results st =
        (Ok results,
         mkState (world st) (calls st) (logs st ++ skipped) (disk st) (proxy st)) /\
      List.length skipped = List.length agencies.
Proof.
  induction agencies as [|agency rest IH]; intros idx total results st Hall.
  - rewrite agencies_loop_nil. exists []. rewrite app_nil_r.
    destruct st; split; reflexivity.
  - rewrite agencies_loop_done by (apply Hall; now left).
    unfold bind, log. simpl.
    match goal with
    | |- context [agencies_loop _ _ _ _ _ _ _ _ _ _ ?s0] =>
        destruct (IH (S idx) total results s0) as (sk & Hr & Hlen)
    end.
    { intros a Ha. apply Hall. now right. }
    rewrite Hr. simpl. rewrite <- app_assoc. simpl.
    eexists. split; [reflexivity |]. simpl. now rewrite Hlen.
Qed.

End CampaignDisk.

(** X9. When the loop over the agencies ends, every listed agency has an
    entry; every entry that was there before is still there, unchanged if
    its list was not empty; and no entry was added for a name that is not
    in the list. *)
Theorem listed_agencies_get_entries {World Client : Type}
    (E : Oracles World Client) (limit_per_query max_hits : Z) (delay : Q)
    (start_date end_date : option string) (agencies : list string)
    (idx total : nat) (results : Dict) (st : State World Client) :
  exists results',
    fst (agencies_loop E limit_per_query max_hits delay start_date end_date
           idx total agencies results st) = Ok results' /\
    (forall a, In a agencies -> dict_get a results' <> None) /\
    (forall k v, dict_get k results = Some v ->
                 exists v', dict_get k results' = Some v' /\
                            (v <> [] -> v' = v)) /\
    (forall k, dict_get k results' <> None ->
               dict_get k results <> None \/ In k agencies).
Proof. apply loop_entries. Qed.

(** X10. When every listed agency already has a non-empty list, the loop
    does nothing but log one skip line per agency: no call is made, the
    result file is not written, and the results are returned as they
    were. *)
Theorem all_done_nothing_to_do {World Client : Type}
    (E : Oracles World Client) (limit_per_query max_hits : Z) (delay : Q)
    (start_date end_date : option string) (agencies : list string)
    (idx total : nat) (results : Dict) (st : State World Client) :
  (forall a, In a agencies -> done a results = true) ->
  exists skipped,
    agencies_loop E limit_per_query max_hits delay start_date end_date
      idx total agencies results st =
      (Ok results,
       mkState (world st) (calls st) (logs st ++ skipped) (disk st) (proxy st)) /\
    List.length skipped = List.length agencies.
Proof. apply loop_all_done. Qed.

(** X11. When every rewrite of the result file goes through, the file at
    the end of the loop holds the JSON text of the results the loop
    returns, unless no agency was processed, in which case results and
    file are those of the start. *)
Theorem result_file_matches_results {World Client : Type}
    (E : Oracles World Client) (limit_per_query max_hits : Z) (delay : Q)
    (start_date end_date : option string) (agencies : list string)
    (idx total : nat) (results : Dict) (st : State World Client) :
  writes_succeed E ->
  let run := agencies_loop E limit_per_query max_hits delay start_date end_date
               idx total agencies results st in
  exists results',
    fst run = Ok results' /\
    (disk (snd run) = Some (json_dumps results') \/
     (results' = results /\ disk (snd run) = disk st)).
Proof. intros Hw run. subst run. now apply loop_file. Qed.

(** X12. The only exception that leaves [run_all_newsagencies] is the
    ImportError of one of the two acquisitions of the client at the
    start; when it does, nothing was searched and nothing was written:
    every call made was a question to the session provider and the result
    file is as it was. *)
Theorem run_all_raises_only_import_error {World Client : Type}
    (E : Oracles World Client) (limit_per_query max_hits : Z) (delay : Q)
    (start_date end_date : option string) (results : Dict)
    (agencies : list string) (st : State World Client) (e : PyExn) :
  let run := run_all_newsagencies E limit_per_query max_hits delay
               start_date end_date results agencies st in
  fst run = Raise e ->
  (exists cause, e = ImportError_client cause) /\
  disk (snd run) = disk st /\
  exists new_calls,
    calls (snd run) = calls st ++ new_calls /\
    Forall (fun c => c = CProvider) new_calls.
Proof.
  intros run H. subst run. unfold run_all_newsagencies in *.
  destruct agencies as [|a rest]; [discriminate |].
  set (agencies := a :: rest) in *. clearbody agencies.
  assert (Hlazy : forall s0 : State World Client,
             let r := _get_impresso_client_lazy E s0 in
             disk (snd r) = disk s0 /\
             (exists nc, calls (snd r) = calls s0 ++ nc /\
                         Forall (fun c => c = CProvider) nc) /\
             (forall e0, fst r = Raise e0 ->
                         exists cause, e0 = ImportError_client cause)).
  { intros s0 r. subst r. split; [apply kd_lazy |].
    destruct (frames_lazy _ _ E (fun e0 => exists c, e0 = ImportError_client c)
                (fun e0 => ex_intro _ e0 eq_refl) s0)
      as [(nc & nl & Hc & _ & HP & _) Hex].
    split; eauto. }
  unfold time_time in *. unfold_monad. unfold with_proxy in *. simpl in H |- *.
  match type of H with
  | context [_get_impresso_client_lazy E ?s0] =>
      destruct (Hlazy s0) as (Hd1 & (nc1 & Hc1 & HP1) & Hx1);
      destruct (_get_impresso_client_lazy E s0) as [[c1|e1] s1]
  end; simpl in *.
  2: { inversion H; subst. split; [apply Hx1; reflexivity |].
       split; [exact Hd1 |]. exists nc1. auto. }
  destruct (clock E (world s1)) as [t1 w1]. simpl in *.
  match type of H with
  | context [_get_impresso_client_lazy E ?s0] =>
      destruct (Hlazy s0) as (Hd2 & (nc2 & Hc2 & HP2) & Hx2);
      destruct (_get_impresso_client_lazy E s0) as [[c2|e2] s2]
  end; simpl in *.
  2: { inversion H; subst. split; [apply Hx2; reflexivity |].
       split; [congruence |]. exists (nc1 ++ nc2).
       rewrite Hc2, Hc1, app_assoc. split; auto. apply Forall_app. auto. }
  destruct (clock E (world s2)) as [t2 w2]. simpl in *.
  match type of H with
  | context [agencies_loop ?E' ?lim ?mh ?d ?sd ?ed ?i ?n ?ags ?res ?s0] =>
      destruct (loop_total _ _ E' lim mh d sd ed ags i n res s0) as [r' Hr];
      destruct (agencies_loop E' lim mh d sd ed i n ags res s0) as [r0 s3]
  end.
  simpl in Hr. subst r0. simpl in H. discriminate.
Qed.

(* ================================================================== *)
(** ** Stripping, and the list of agencies *)

Section Strip.

Variable p : N -> bool.

Lemma lstrip_idem (s : pystr) : lstrip p (lstrip p s) = lstrip p s.
Proof.
  induction s as [|c s IH]; simpl; auto.
  destruct (p c) eqn:Hc; auto. simpl. now rewrite Hc.
Qed.

Lemma lstrip_length (s : pystr) : (List.length (lstrip p s) <= List.length s)%nat.
Proof.
  induction s as [|c s IH]; simpl; auto.
  destruct (p c); simpl; lia.
Qed.

(** A string that [lstrip] leaves alone is empty or starts outside [p]. *)
Lemma lstrip_fix (s : pystr) :
  lstrip p s = s <-> match s with [] => True | c :: _ => p c = false end.
Proof.
  destruct s as [|c s]; simpl; [tauto |].
  destruct (p c) eqn:Hc; split; auto; try discriminate.
  intros H. pose proof (lstrip_length s) as Hl. rewrite H in Hl. simpl in Hl. lia.
Qed.

Lemma lstrip_app_keep (x : pystr) (c : N) :
  p c = false -> lstrip p (x ++ [c]) = lstrip p x ++ [c].
Proof.
  intros Hc. induction x as [|d x IH]; simpl.
  - now rewrite Hc.
  - destruct (p d); auto.
Qed.

Lemma rstrip_keeps_head (u : pystr) :
  lstrip p u = u -> lstrip p (rstrip p u) = rstrip p u.
Proof.
  intros H. apply lstrip_fix in H. apply lstrip_fix.
  destruct u as [|c u]; [exact I |].
  unfold rstrip. simpl rev. rewrite (lstrip_app_keep _ _ H).
  rewrite rev_app_distr. simpl. exact H.
Qed.

Lemma strip_ends (s : pystr) :
  lstrip p (strip p s) = strip p s /\
  lstrip p (rev (strip p s)) = rev (strip p s).
Proof.
  unfold strip. split.
  - apply rstrip_keeps_head. apply lstrip_idem.
  - unfold rstrip. rewrite rev_involutive. apply lstrip_idem.
Qed.

Lemma strip_idem (s : pystr) : strip p (strip p s) = strip p s.
Proof.
  destruct (strip_ends s) as [H1 H2].
  unfold strip at 1. rewrite H1. unfold rstrip. rewrite H2.
  apply rev_involutive.
Qed.

(** A string with no character of [p] at all is left as it is. *)
Lemma strip_free (s : pystr) :
  Forall (fun c => p c = false) s -> strip p s = s.
Proof.
  intros H.
  assert (Hl : forall t, Forall (fun c => p c = false) t -> lstrip p t = t).
  { intros t Ht. apply lstrip_fix. destruct Ht; auto. }
  unfold strip, rstrip. rewrite (Hl s H), (Hl (rev s)).
  - apply rev_involutive.
  - apply Forall_rev. exact H.
Qed.

End Strip.

(** X13. Every name that line 282 keeps is not empty, does not start
    with [#] and has no white space at either end; the names come in the
    order of their lines; and reading the kept names again keeps all of
    them as they are. *)
Theorem read_agencies_keeps_clean_names (lines : list pystr) :
  Forall (fun a =>
            a <> [] /\ hd_error a <> Some (cp "#") /\ strip is_space a = a)
    (read_agencies lines) /\
  read_agencies (read_agencies lines) = read_agencies lines.
Proof.
  assert (H : Forall (fun a =>
                        a <> [] /\ hd_error a <> Some (cp "#") /\
                        strip is_space a = a) (read_agencies lines)).
  { unfold read_agencies. apply Forall_forall. intros a Ha.
    apply in_map_iff in Ha. destruct Ha as (line & <- & Hl).
    apply filter_In in Hl. destruct Hl as [_ Hl].
    split; [| split].
    - destruct (strip is_space line); [discriminate | discriminate].
    - destruct (strip is_space line) as [|c t]; [discriminate |].
      simpl. intros [= ->]. rewrite N.eqb_refl in Hl. discriminate.
    - apply strip_idem. }
  split; [exact H |].
  induction (read_agencies lines) as [|a l IH]; auto.
  inversion H as [|? ? (Hne & Hh & Hs) Hrest]; subst.
  specialize (IH Hrest).
  unfold read_agencies in *. cbn [filter]. rewrite Hs.
  destruct a as [|c t]; [contradiction |].
  cbn [hd_error] in Hh.
  destruct (c =? cp "#")%N eqn:Hc.
  - apply N.eqb_eq in Hc. subst c. contradiction.
  - cbn [negb map]. rewrite Hs. f_equal. exact IH.
Qed.

(* ================================================================== *)
(** ** Patterns: matching by residuals decides the denotation *)

Lemma matches_nil_nullable (r : regex) (s : pystr) :
  matches r s -> s = [] -> nullable r = true.
Proof.
  induction 1; intros E; simpl; auto; try discriminate.
  - apply app_eq_nil in E. destruct E as [-> ->].
    now rewrite IHmatches1, IHmatches2.
  - now rewrite IHmatches.
  - rewrite IHmatches; auto. apply orb_true_r.
Qed.

Lemma nullable_matches_nil (r : regex) : nullable r = true -> matches r [].
Proof.
  induction r; simpl; intros H; try discriminate.
  - constructor.
  - apply andb_true_iff in H. destruct H as [H1 H2].
    change (@nil N) with (@nil N ++ []). constructor; auto.
  - apply orb_true_iff in H. destruct H as [H|H];
      [apply MAltL | apply MAltR]; auto.
  - constructor.
Qed.

Lemma matches_deriv (r : regex) (s' : pystr) :
  matches r s' -> forall c s, s' = c :: s -> matches (deriv c r) s.
Proof.
  induction 1; intros c0 s0 E; simpl; try discriminate.
  - injection E as -> <-. rewrite N.eqb_refl. constructor.
  - injection E as -> <-. rewrite H. constructor.
  - destruct s1 as [|d s1]; simpl in E.
    + subst s2. rewrite (matches_nil_nullable _ _ H eq_refl).
      apply MAltR. now apply IHmatches2.
    + injection E as -> <-.
      assert (Hs : matches (Seq (deriv c0 r1) r2) (s1 ++ s2)).
      { constructor; auto. }
      destruct (nullable r1); [apply MAltL |]; exact Hs.
  - apply MAltL. auto.
  - apply MAltR. auto.
  - destruct s1 as [|d s1]; simpl in E.
    + apply (IHmatches2 _ _ E).
    + injection E as -> <-. constructor; auto.
Qed.

Lemma deriv_matches (r : regex) :
  forall c s, matches (deriv c r) s -> matches r (c :: s).
Proof.
  induction r; simpl; intros c0 s H.
  - inversion H.
  - inversion H.
  - destruct (c0 =? c)%N eqn:Hc; inversion H; subst.
    apply N.eqb_eq in Hc. subst. constructor.
  - destruct (in_class c0 ranges) eqn:Hc; inversion H; subst.
    now constructor.
  - assert (Hseq : forall t, matches (Seq (deriv c0 r1) r2) t ->
                             matches (Seq r1 r2) (c0 :: t)).
    { intros t Ht. inversion Ht; subst.
      change (c0 :: s1 ++ s2) with ((c0 :: s1) ++ s2). constructor; auto. }
    destruct (nullable r1) eqn:Hn; [| now apply Hseq].
    inversion H; subst; [now apply Hseq |].
    change (c0 :: s) with ([] ++ c0 :: s). constructor; auto.
    now apply nullable_matches_nil.
  - inversion H; subst; [apply MAltL | apply MAltR]; auto.
  - inversion H; subst.
    change (c0 :: s1 ++ s2) with ((c0 :: s1) ++ s2). constructor; auto.
Qed.

Lemma fullmatch_matches (s : pystr) :
  forall r, fullmatch r s = true <-> matches r s.
Proof.
  induction s as [|c s IH]; intros r; simpl.
  - split; [apply nullable_matches_nil |].
    intros H. now apply (matches_nil_nullable _ _ H).
  - rewrite IH. split; [apply deriv_matches |].
    intros H. now apply (matches_deriv _ _ H).
Qed.

Lemma matches_alphabet (r : regex) (s : pystr) :
  matches r s -> Forall (fun c => alphabet r c = true) s.
Proof.
  induction 1; simpl; auto.
  - constructor; auto. apply N.eqb_refl.
  - apply Forall_app. split.
    + eapply Forall_impl; [| exact IHmatches1]. intros a ->. reflexivity.
    + eapply Forall_impl; [| exact IHmatches2]. intros a ->.
      apply orb_true_r.
  - eapply Forall_impl; [| exact IHmatches]. intros a ->. reflexivity.
  - eapply Forall_impl; [| exact IHmatches]. intros a ->. apply orb_true_r.
  - apply Forall_app. split; auto.
Qed.

Lemma matches_seq_inv (r1 r2 : regex) (s : pystr) :
  matches (Seq r1 r2) s ->
  exists s1 s2, s = s1 ++ s2 /\ matches r1 s1 /\ matches r2 s2.
Proof. intros H. inversion H; subst. eauto. Qed.

Lemma matches_chr_inv (c : N) (s : pystr) : matches (Chr c) s -> s = [c].
Proof. intros H. now inversion H. Qed.

Lemma matches_class_inv (A : list (N * N)) (s : pystr) :
  matches (Class A) s -> exists c, s = [c] /\ in_class c A = true.
Proof. intros H. inversion H; subst. eauto. Qed.

Lemma matches_eps_inv (s : pystr) : matches Eps s -> s = [].
Proof. intros H. now inversion H. Qed.

Lemma star_class (A : list (N * N)) (s : pystr) :
  Forall (fun c => in_class c A = true) s -> matches (Star (Class A)) s.
Proof.
  induction 1 as [|c s Hc _ IH]; [constructor |].
  change (c :: s) with ([c] ++ s). constructor; auto. now constructor.
Qed.

(** [[A]{n,}] denotes the strings of at least [n] characters of [A]. *)
Lemma at_least_class (A : list (N * N)) (n : nat) :
  forall s, matches (at_least n (Class A)) s <->
            (n <= List.length s)%nat /\
            Forall (fun c => in_class c A = true) s.
Proof.
  induction n as [|n IH]; intros s; simpl.
  - split.
    + intros H. split; [lia |]. apply (matches_alphabet _ _ H).
    + intros [_ H]. now apply star_class.
  - split.
    + intros H. apply matches_seq_inv in H.
      destruct H as (s1 & s2 & -> & H1 & H2).
      apply matches_class_inv in H1. destruct H1 as (c & -> & Hc).
      apply IH in H2. destruct H2 as [Hl Hf]. simpl. split; [lia |].
      constructor; auto.
    + intros [Hl Hf]. destruct s as [|c s]; [simpl in Hl; lia |].
      inversion Hf; subst. change (c :: s) with ([c] ++ s).
      constructor; [now constructor |]. apply IH. simpl in Hl. split; [lia | auto].
Qed.

(* ================================================================== *)
(** ** Tokens *)

Ltac class_arith :=
  unfold in_class, is_space, token_class, hex_class, base64ish_class, cp,
    double_quote, single_quote, ZWSP, ZWNJ, BOM in *;
  cbn [existsb fst snd N_of_ascii N_of_digits N.add N.mul Pos.add Pos.mul
       Pos.succ] in *;
  repeat match goal with
         | H : _ = true |- _ =>
             rewrite ?orb_false_r, ?orb_true_iff, ?andb_true_iff, ?N.leb_le,
               ?N.eqb_eq in H
         end.

Lemma hex_in_base64ish (c : N) :
  in_class c hex_class = true -> in_class c base64ish_class = true.
Proof.
  intros H. class_arith.
  rewrite ?orb_true_iff, ?andb_true_iff, ?N.leb_le. lia.
Qed.

Lemma token_class_range (c : N) :
  in_class c token_class = true -> (45 <= c <= 122)%N.
Proof. intros H. class_arith. lia. Qed.

Lemma base64ish_in_token_class (c : N) :
  in_class c base64ish_class = true -> in_class c token_class = true.
Proof.
  intros H. unfold token_class, in_class in *. cbn [existsb].
  rewrite H. apply orb_true_r.
Qed.

Lemma range_not_space (c : N) : (45 <= c <= 122)%N -> is_space c = false.
Proof.
  intros H. apply not_true_is_false. intros Hs. class_arith. lia.
Qed.

Lemma literal_matches (l s : pystr) : matches (literal l) s <-> s = l.
Proof.
  revert s. induction l as [|c l IH]; intros s; simpl.
  - split; [apply matches_eps_inv | intros ->; constructor].
  - split.
    + intros H. apply matches_seq_inv in H.
      destruct H as (s1 & s2 & -> & H1 & H2).
      apply matches_chr_inv in H1. apply IH in H2. now subst.
    + intros ->. change (c :: l) with ([c] ++ l).
      constructor; [constructor | now apply IH].
Qed.

Lemma plus_class (A : list (N * N)) (s : pystr) :
  matches (Plus (Class A)) s <->
  s <> [] /\ Forall (fun c => in_class c A = true) s.
Proof.
  change (Plus (Class A)) with (at_least 1 (Class A)).
  rewrite at_least_class. destruct s; simpl; split; intros [H1 H2];
    split; auto; try lia; try discriminate. contradiction.
Qed.

Lemma jwt_matches (t : pystr) : matches JWT_REGEX t <-> is_jwt t.
Proof.
  unfold JWT_REGEX, is_jwt, base64ish. split.
  - intros H.
    apply matches_seq_inv in H. destruct H as (s0 & t1 & -> & H0 & H).
    apply literal_matches in H0. subst s0.
    apply matches_seq_inv in H. destruct H as (a & t2 & -> & Ha & H).
    apply matches_seq_inv in H. destruct H as (d1 & t3 & -> & Hd1 & H).
    apply matches_seq_inv in H. destruct H as (b & t4 & -> & Hb & H).
    apply matches_seq_inv in H. destruct H as (d2 & c & -> & Hd2 & Hc).
    apply matches_chr_inv in Hd1, Hd2. subst d1 d2.
    apply plus_class in Ha, Hb, Hc.
    exists a, b, c. simpl. tauto.
  - intros (a & b & c & -> & Ha & Hb & Hc & Fa & Fb & Fc).
    constructor; [now apply literal_matches |].
    constructor; [now apply plus_class |].
    change (cp "." :: b ++ cp "." :: c) with ([cp "."] ++ b ++ [cp "."] ++ c).
    constructor; [constructor |].
    constructor; [now apply plus_class |].
    constructor; [constructor | now apply plus_class].
Qed.

Lemma long_key_matches (t : pystr) :
  matches BASE64ISH_LONG_REGEX t <-> is_long_key t.
Proof. apply at_least_class. Qed.

Lemma hex_matches_long_key (t : pystr) :
  matches HEX_LONG_REGEX t -> is_long_key t.
Proof.
  intros H. apply at_least_class in H. destruct H as [Hl Hf].
  split; auto. eapply Forall_impl; [| exact Hf]. apply hex_in_base64ish.
Qed.

Lemma strip_nil (p : N -> bool) : strip p [] = [].
Proof. reflexivity. Qed.

Lemma plausible_forms (s : pystr) :
  _is_plausible_token (Some s) = true <->
  is_jwt (strip is_space s) \/ is_long_key (strip is_space s).
Proof.
  assert (Hnil : ~ (is_jwt [] \/ is_long_key [])).
  { intros [(a & b & c & H & _) | [H _]]; [discriminate | simpl in H; lia]. }
  unfold _is_plausible_token. destruct s as [|c0 s0].
  - rewrite strip_nil. split; [discriminate | tauto].
  - set (t := strip is_space (c0 :: s0)).
    rewrite <- jwt_matches, <- long_key_matches.
    destruct (fullmatch JWT_REGEX t) eqn:H1.
    { apply fullmatch_matches in H1. tauto. }
    destruct (fullmatch HEX_LONG_REGEX t) eqn:H2.
    { apply fullmatch_matches, hex_matches_long_key, long_key_matches in H2.
      tauto. }
    destruct (fullmatch BASE64ISH_LONG_REGEX t) eqn:H3.
    { apply fullmatch_matches in H3. tauto. }
    split; [discriminate |].
    intros [H|H]; apply fullmatch_matches in H; congruence.
Qed.

Lemma token_chars (t : pystr) :
  is_jwt t \/ is_long_key t ->
  t <> [] /\ Forall (fun c => in_class c token_class = true) t.
Proof.
  assert (Hb : forall x, base64ish x ->
                         Forall (fun c => in_class c token_class = true) x).
  { intros x Hx. eapply Forall_impl; [| exact Hx].
    apply base64ish_in_token_class. }
  intros [(a & b & c & -> & _ & _ & _ & Fa & Fb & Fc) | [Hl Hf]].
  - split; [discriminate |].
    repeat first [apply Forall_cons | apply Forall_app; split]; auto.
  - split; [intros ->; simpl in Hl; lia | auto].
Qed.

Lemma remove_char_free (c : N) (s : pystr) :
  Forall (fun x => x <> c) s -> remove_char c s = s.
Proof.
  unfold remove_char. induction 1 as [|x s Hx _ IH]; simpl; auto.
  apply N.eqb_neq in Hx. rewrite Hx. simpl. now rewrite IH.
Qed.

Lemma filter_all {A : Type} (f : A -> bool) (s : list A) :
  Forall (fun x => f x = true) s -> filter f s = s.
Proof.
  induction 1 as [|x s Hx _ IH]; simpl; auto. now rewrite Hx, IH.
Qed.

(** Cleaning leaves a string of token characters as it is. *)
Lemma clean_token_chars (t : pystr) :
  Forall (fun c => in_class c token_class = true) t ->
  _clean_token_artifacts (Some t) = Some t.
Proof.
  intros H.
  assert (Hr : Forall (fun c => (45 <= c <= 122)%N) t).
  { eapply Forall_impl; [| exact H]. apply token_class_range. }
  assert (Hne : forall k, (k < 45 \/ 122 < k)%N -> Forall (fun x => x <> k) t).
  { intros k Hk. eapply Forall_impl; [| exact Hr]. simpl. intros; lia. }
  assert (Hq : forall k, (k < 45 \/ 122 < k)%N ->
                         Forall (fun x => N.eqb k x = false) t).
  { intros k Hk. eapply Forall_impl; [| exact Hr]. simpl. intros a Ha.
    apply N.eqb_neq. lia. }
  assert (Hs : Forall (fun c => is_space c = false) t).
  { eapply Forall_impl; [| exact Hr]. apply range_not_space. }
  unfold _clean_token_artifacts, remove_zero_width.
  rewrite (strip_free _ _ Hs).
  rewrite (strip_free (N.eqb double_quote)) by (apply Hq; unfold double_quote; lia).
  rewrite (strip_free (N.eqb single_quote)) by (apply Hq; unfold single_quote; lia).
  assert (Hz : remove_char BOM (remove_char ZWNJ (remove_char ZWSP t)) = t).
  { rewrite (remove_char_free ZWSP t) by (apply Hne; unfold ZWSP; lia).
    rewrite (remove_char_free ZWNJ t) by (apply Hne; unfold ZWNJ; lia).
    apply remove_char_free. apply Hne. unfold BOM. lia. }
  rewrite !Hz.
  f_equal. apply filter_all. eapply Forall_impl; [| exact Hs].
  intros a ->. reflexivity.
Qed.

(** X14. A string is accepted as a token exactly when, white space at
    its ends apart, it is [eyJ] followed by three non-empty dot-separated
    segments of [A-Za-z0-9_-], or at least 64 characters of
    [A-Za-z0-9_-]; nothing ([None]) is never accepted. *)
Theorem plausible_token_is_jwt_or_long_key (tok : option pystr) :
  _is_plausible_token tok = true <->
  exists s, tok = Some s /\
            (is_jwt (strip is_space s) \/ is_long_key (strip is_space s)).
Proof.
  destruct tok as [s|].
  - rewrite plausible_forms. split.
    + intros H. exists s. auto.
    + intros (s' & [= <-] & H). exact H.
  - simpl. split; [discriminate | intros (s & H & _); discriminate].
Qed.

(** X15. The test against the pattern of long hexadecimal strings never
    decides: whatever it accepts, the pattern of long base64-like
    strings accepts as well. *)
Theorem hex_pattern_is_subsumed (t : pystr) :
  fullmatch HEX_LONG_REGEX t = true ->
  fullmatch BASE64ISH_LONG_REGEX t = true.
Proof.
  intros H. apply fullmatch_matches. apply long_key_matches.
  apply hex_matches_long_key. now apply fullmatch_matches.
Qed.

(** X16. What token cleaning returns contains no white space and none
    of the three zero-width characters; nothing ([None]) is returned for
    nothing only. *)
Theorem cleaned_token_has_no_blank (s : option pystr) :
  match _clean_token_artifacts s with
  | None => s = None
  | Some t =>
      Forall (fun c => is_space c = false /\
                       c <> ZWSP /\ c <> ZWNJ /\ c <> BOM) t
  end.
Proof.
  destruct s as [s|]; simpl; auto.
  apply Forall_forall. intros c Hc.
  apply filter_In in Hc. destruct Hc as [Hc Hs].
  apply negb_true_iff in Hs. split; auto.
  unfold remove_zero_width, remove_char in Hc.
  repeat (apply filter_In in Hc; destruct Hc as [Hc ?]).
  repeat match goal with
         | H : negb (_ =? _)%N = true |- _ =>
             apply negb_true_iff, N.eqb_neq in H
         end.
  auto.
Qed.

(** X17. Cleaning does not damage an acceptable token: it only takes the
    white space off its ends, and the result is accepted again. *)
Theorem cleaning_keeps_plausible_token (s : pystr) :
  _is_plausible_token (Some s) = true ->
  _clean_token_artifacts (Some s) = Some (strip is_space s) /\
  _is_plausible_token (_clean_token_artifacts (Some s)) = true.
Proof.
  intros H. apply plausible_forms in H.
  destruct (token_chars _ H) as [Hne Hf].
  assert (Hc : _clean_token_artifacts (Some s) = Some (strip is_space s)).
  { rewrite <- (clean_token_chars _ Hf).
    unfold _clean_token_artifacts. now rewrite strip_idem. }
  split; [exact Hc |]. rewrite Hc.
  apply plausible_forms. now rewrite strip_idem.
Qed.

(* ================================================================== *)
(** ** The helpers over a page *)

Section PageProperties.

Context {W Sel El Url Resp Exn : Type}.
Variable page : @Page W Sel El Url Resp Exn.

Local Abbreviation Ev := (@Event Sel El Url Resp Exn).

Lemma last_error_from_app (acc : option Exn) (a b : list Ev) :
  last_error_from acc (a ++ b) = last_error_from (last_error_from acc a) b.
Proof. unfold last_error_from. apply fold_left_app. Qed.

Lemma total_timeout_app (a b : list Ev) :
  total_timeout (a ++ b) = total_timeout a + total_timeout b.
Proof.
  induction a as [|ev a IH]; simpl; [reflexivity |].
  unfold total_timeout in *. simpl. rewrite IH. lia.
Qed.

(** The loop of [_first_selector], from any point of it. *)
Lemma first_selector_loop_spec (slice : Z) (selectors : list Sel) :
  forall last_err w tr out w' tr',
    first_selector_loop page slice selectors last_err w tr = (out, w', tr') ->
    exists evs,
      tr' = tr ++ evs /\
      match out with
      | Returns el =>
          exists pre sel post misses,
            selectors = pre ++ sel :: post /\
            evs = misses ++ [EWait sel slice (inr (Some el))] /\
            Forall2 (missed slice) pre misses
      | Raises x =>
          Forall2 (missed slice) selectors evs /\
          x = match last_error_from last_err evs with
              | Some e => Thrown e
              | None => PlaywrightTimeoutError "No selector matched"
              end
      end.
Proof.
  induction selectors as [|sel rest IH]; intros last_err w tr out w' tr' H;
    simpl in H.
  - exists []. rewrite app_nil_r.
    destruct last_err; injection H as <- <- <-; split; auto;
      (split; [constructor | reflexivity]).
  - destruct (wait_for_selector page w sel slice) as [o w1] eqn:Hw.
    assert (Hstep : forall le,
               first_selector_loop page slice rest le w1
                 (tr ++ [EWait sel slice o]) = (out, w', tr') ->
               (forall el, o <> inr (Some el)) ->
               le = last_error_from last_err [EWait sel slice o : Ev] ->
               exists evs,
                 tr' = tr ++ evs /\
                 match out with
                 | Returns el =>
                     exists pre sel0 post misses,
                       sel :: rest = pre ++ sel0 :: post /\
                       evs = misses ++ [EWait sel0 slice (inr (Some el))] /\
                       Forall2 (missed slice) pre misses
                 | Raises x =>
                     Forall2 (missed slice) (sel :: rest) evs /\
                     x = match last_error_from last_err evs with
                         | Some e => Thrown e
                         | None => PlaywrightTimeoutError "No selector matched"
                         end
                 end).
    { intros le Hl Hn Hle. apply IH in Hl.
      destruct Hl as (evs & -> & Hout).
      exists (EWait sel slice o :: evs). rewrite <- app_assoc. split; auto.
      destruct out as [el | x].
      - destruct Hout as (pre & sel0 & post & misses & -> & -> & Hf).
        exists (sel :: pre), sel0, post, (EWait sel slice o :: misses).
        repeat split; auto. constructor; auto. exists o; auto.
      - destruct Hout as [Hf ->].
        split; [constructor; auto; exists o; auto |].
        change (EWait sel slice o :: evs) with ([EWait sel slice o] ++ evs).
        rewrite last_error_from_app, <- Hle. reflexivity. }
    destruct o as [e | [el |]].
    + apply (Hstep _ H); [discriminate | reflexivity].
    + injection H as <- <- <-. exists [EWait sel slice (inr (Some el))].
      split; auto. exists [], sel, rest, []. repeat split; auto.
    + apply (Hstep _ H); [discriminate | reflexivity].
Qed.

Lemma first_selector_loop_length (slice : Z) (selectors : list Sel) :
  forall last_err w tr out w' tr',
    first_selector_loop page slice selectors last_err w tr = (out, w', tr') ->
    exists evs,
      tr' = tr ++ evs /\
      (List.length evs <= List.length selectors)%nat /\
      Forall (fun ev => event_timeout ev = slice) evs.
Proof.
  induction selectors as [|sel rest IH]; intros last_err w tr out w' tr' H;
    simpl in H.
  - injection H as <- <- <-. exists []. rewrite app_nil_r. auto.
  - destruct (wait_for_selector page w sel slice) as [o w1] eqn:Hw.
    assert (Hstep : forall le,
               first_selector_loop page slice rest le w1
                 (tr ++ [EWait sel slice o]) = (out, w', tr') ->
               exists evs,
                 tr' = tr ++ evs /\
                 (List.length evs <= S (List.length rest))%nat /\
                 Forall (fun ev => event_timeout ev = slice) evs).
    { intros le Hl. apply IH in Hl. destruct Hl as (evs & -> & Hlen & Hf).
      exists (EWait sel slice o :: evs). rewrite <- app_assoc.
      split; auto. split; [simpl; lia | constructor; auto]. }
    destruct o as [e | [el |]]; eauto.
    injection H as <- <- <-. exists [EWait sel slice (inr (Some el))].
    split; auto. split; [simpl; lia | constructor; auto].
Qed.

Lemma total_timeout_uniform (slice : Z) (evs : list Ev) :
  Forall (fun ev => event_timeout ev = slice) evs ->
  total_timeout evs = slice * Z.of_nat (List.length evs).
Proof.
  induction 1 as [|ev evs Hev _ IH]; [simpl; lia |].
  change (total_timeout (ev :: evs))
    with (event_timeout ev + total_timeout evs).
  rewrite IH, Hev. simpl List.length. lia.
Qed.

Lemma slice_budget (timeout_ms : Z) (selectors : list Sel) :
  1000 <= slice_timeout timeout_ms selectors /\
  slice_timeout timeout_ms selectors * Z.of_nat (List.length selectors)
  <= Z.max timeout_ms (1000 * Z.of_nat (List.length selectors)).
Proof.
  unfold slice_timeout. set (n := Z.of_nat (List.length selectors)).
  assert (Hn : 0 <= n) by (unfold n; lia).
  split; [lia |].
  destruct (Z.eq_dec n 0) as [-> | Hnz]; [lia |].
  replace (Z.max 1 n) with n by lia.
  pose proof (Z.mul_div_le timeout_ms n ltac:(lia)) as Hd.
  destruct (Z.max_spec 1000 (timeout_ms / n)) as [[_ ->] | [_ ->]]; lia.
Qed.

(** The loop of [_goto_with_retries], from any point of it. *)
Lemma goto_loop_spec (url : Url) (n : nat) :
  forall last_err w tr out w' tr',
    goto_loop page url n last_err w tr = (out, w', tr') ->
    exists fails final,
      tr' = tr ++ fails ++ [final] /\
      Forall (failed_goto url) fails /\
      (List.length fails <= n)%nat /\
      match out with
      | Returns resp =>
          final = (if (List.length fails <? n)%nat
                   then EGoto url domcontentloaded 45000 (inr resp)
                   else EGoto url load_event 60000 (inr resp))
      | Raises x =>
          List.length fails = n /\
          (exists e, final = EGoto url load_event 60000 (inl e)) /\
          x = match last_error_from last_err fails with
              | Some e => Thrown e
              | None => UnboundLocalError "e"
              end
      end.
Proof.
  induction n as [|n IH]; intros last_err w tr out w' tr' H; simpl in H.
  - unfold goto_final in H.
    destruct (goto page w url load_event 60000) as [o w1].
    exists [], (EGoto url load_event 60000 o).
    destruct o as [e | resp]; [destruct last_err |];
      injection H as <- <- <-;
      (split; [reflexivity |]); (split; [constructor |]);
      (split; [simpl; lia |]); simpl; eauto.
  - destruct (goto page w url domcontentloaded 45000) as [o w1].
    destruct o as [e | resp].
    + apply IH in H. destruct H as (fails & final & -> & Hf & Hlen & Hout).
      exists (EGoto url domcontentloaded 45000 (inl e) :: fails), final.
      split; [now rewrite <- app_assoc |].
      split; [constructor; auto; now exists e |].
      split; [simpl; lia |].
      destruct out as [resp | x].
      * simpl List.length.
        change (S (List.length fails) <? S n)%nat
          with (List.length fails <? n)%nat. exact Hout.
      * destruct Hout as (Hl & He & ->). simpl List.length.
        split; [lia |]. split; auto.
    + injection H as <- <- <-.
      exists [], (EGoto url domcontentloaded 45000 (inr resp)).
      split; [reflexivity |]. split; [constructor |].
      split; [simpl; lia |]. reflexivity.
Qed.

End PageProperties.

Lemma cleaned_no_space (s t : pystr) :
  _clean_token_artifacts (Some s) = Some t ->
  Forall (fun c => is_space c = false) t.
Proof.
  intros [= <-]. apply Forall_forall. intros c Hc.
  apply filter_In in Hc. destruct Hc as [_ Hs].
  now apply negb_true_iff in Hs.
Qed.

(** X18. When [_first_selector] returns an element, it is the one the
    page gave for the first selector, in the order of the list, whose wait
    gave one: the selectors before it were each waited for once, in order
    and with the same time slice, without an element, and the selectors
    after it were not waited for. *)
Theorem first_selector_returns_first_match
    {W Sel El Url Resp Exn : Type} (page : @Page W Sel El Url Resp Exn)
    (selectors : list Sel) (timeout_ms : Z) (w : W)
    (el : El) (w' : W) (tr : list (@Event Sel El Url Resp Exn)) :
  _first_selector page selectors timeout_ms w = (Returns el, w', tr) ->
  exists pre sel post misses,
    selectors = pre ++ sel :: post /\
    tr = misses ++
         [EWait sel (slice_timeout timeout_ms selectors) (inr (Some el))] /\
    Forall2 (missed (slice_timeout timeout_ms selectors)) pre misses.
Proof.
  intros H. unfold _first_selector in H.
  apply first_selector_loop_spec in H. destruct H as (evs & -> & H).
  exact H.
Qed.

(** X19. When [_first_selector] raises, every selector was waited for
    once, in order, none gave an element, and the exception is the one of
    the last wait that raised; with no wait that raised (no selector at
    all, or only waits that gave [None]) it is the time-out error of the
    function itself. *)
Theorem first_selector_raises_last_error
    {W Sel El Url Resp Exn : Type} (page : @Page W Sel El Url Resp Exn)
    (selectors : list Sel) (timeout_ms : Z) (w : W)
    (x : PageExn Exn) (w' : W) (tr : list (@Event Sel El Url Resp Exn)) :
  _first_selector page selectors timeout_ms w = (Raises x, w', tr) ->
  Forall2 (missed (slice_timeout timeout_ms selectors)) selectors tr /\
  x = match last_error tr with
      | Some e => Thrown e
      | None => PlaywrightTimeoutError "No selector matched"
      end.
Proof.
  intros H. unfold _first_selector in H.
  apply first_selector_loop_spec in H. destruct H as (evs & -> & H).
  exact H.
Qed.

(** X20. [_first_selector] waits at most once per selector, each time
    for the same slice of at least 1000 ms, and the slices it hands to the
    page add up to at most the larger of [timeout_ms] and 1000 ms per
    selector. *)
Theorem first_selector_time_budget
    {W Sel El Url Resp Exn : Type} (page : @Page W Sel El Url Resp Exn)
    (selectors : list Sel) (timeout_ms : Z) (w : W) :
  let tr := snd (_first_selector page selectors timeout_ms w) in
  let slice := slice_timeout timeout_ms selectors in
  (List.length tr <= List.length selectors)%nat /\
  Forall (fun ev => event_timeout ev = slice) tr /\
  1000 <= slice /\
  total_timeout tr
  <= Z.max timeout_ms (1000 * Z.of_nat (List.length selectors)).
Proof.
  intros tr slice. subst tr.
  destruct (_first_selector page selectors timeout_ms w) as [[out w'] tr]
    eqn:H.
  unfold _first_selector in H. apply first_selector_loop_length in H.
  destruct H as (evs & -> & Hlen & Hf). simpl.
  destruct (slice_budget timeout_ms selectors) as [H1 H2].
  fold slice in Hf, H1, H2.
  repeat split; auto.
  rewrite (total_timeout_uniform _ _ Hf).
  etransitivity; [| exact H2].
  apply Z.mul_le_mono_nonneg_l; lia.
Qed.

(** X21. When [_goto_with_retries] returns, it returns the response of
    the first navigation that did not raise; the navigations before it
    all waited for [domcontentloaded] with 45 s and raised, there are at
    most [attempts] of them, and only after [attempts] failures is the
    navigation one that waits for [load] with 60 s. *)
Theorem goto_returns_first_success
    {W Sel El Url Resp Exn : Type} (page : @Page W Sel El Url Resp Exn)
    (url : Url) (attempts : Z) (w : W)
    (resp : Resp) (w' : W) (tr : list (@Event Sel El Url Resp Exn)) :
  _goto_with_retries page url attempts w = (Returns resp, w', tr) ->
  exists fails,
    Forall (failed_goto url) fails /\
    (List.length fails <= Z.to_nat attempts)%nat /\
    tr = fails ++
         [if (List.length fails <? Z.to_nat attempts)%nat
          then EGoto url domcontentloaded 45000 (inr resp)
          else EGoto url load_event 60000 (inr resp)].
Proof.
  intros H. unfold _goto_with_retries in H.
  apply goto_loop_spec in H.
  destruct H as (fails & final & -> & Hf & Hlen & ->).
  exists fails. auto.
Qed.

(** X22. When [_goto_with_retries] raises, [attempts] navigations that
    waited for [domcontentloaded] and a last one that waited for [load]
    have all raised, and the exception is the one of the last
    [domcontentloaded] navigation: the error of the final navigation is
    dropped.  With [attempts <= 0] there is no such exception and the
    function raises [UnboundLocalError] for its variable [e]. *)
Theorem goto_raises_last_light_error
    {W Sel El Url Resp Exn : Type} (page : @Page W Sel El Url Resp Exn)
    (url : Url) (attempts : Z) (w : W)
    (x : PageExn Exn) (w' : W) (tr : list (@Event Sel El Url Resp Exn)) :
  _goto_with_retries page url attempts w = (Raises x, w', tr) ->
  (exists fails e,
     tr = fails ++ [EGoto url load_event 60000 (inl e)] /\
     Forall (failed_goto url) fails /\
     List.length fails = Z.to_nat attempts /\
     x = match last_error fails with
         | Some e' => Thrown e'
         | None => UnboundLocalError "e"
         end) /\
  (attempts <= 0 -> x = UnboundLocalError "e") /\
  (0 < attempts -> exists e', x = Thrown e').
Proof.
  intros H. unfold _goto_with_retries in H.
  apply goto_loop_spec in H.
  destruct H as (fails & final & -> & Hf & _ & Hlen & (e & ->) & ->).
  split; [exists fails, e; auto |]. split.
  - intros Ha. destruct fails; [reflexivity |]. simpl in Hlen. lia.
  - intros Ha.
    destruct (exists_last (l := fails)) as (pre & ev & ->).
    { intros ->. simpl in Hlen. lia. }
    apply Forall_app in Hf. destruct Hf as [_ Hev].
    inversion Hev as [|? ? (e' & ->) _]; subst.
    exists e'. rewrite last_error_from_app. reflexivity.
Qed.

(** X23. A token that [_read_clipboard_token] returns is itself, with
    nothing to strip, [eyJ] followed by three non-empty dot-separated
    segments of [A-Za-z0-9_-], or at least 64 characters of
    [A-Za-z0-9_-]; the page was asked once, and did not raise. *)
Theorem clipboard_token_is_well_formed
    {W Sel El Url Resp Exn : Type} (page : @Page W Sel El Url Resp Exn)
    (w : W) (tok : pystr) (w' : W)
    (tr : list (@Event Sel El Url Resp Exn)) :
  _read_clipboard_token page w = (Some tok, w', tr) ->
  (is_jwt tok \/ is_long_key tok) /\
  exists txt, tr = [EEvaluate (inr txt); EPrint "    Clipboard token found."] /\
              _clean_token_artifacts (Some (or_empty txt)) = Some tok.
Proof.
  unfold _read_clipboard_token. intros H.
  destruct (evaluate_clipboard page w) as [[e | txt] w1]; [discriminate |].
  destruct (_clean_token_artifacts (Some (or_empty txt))) as [t|] eqn:Hc;
    [| discriminate].
  destruct (_is_plausible_token (Some t)) eqn:Hp; [| discriminate].
  injection H as -> <- <-.
  apply plausible_forms in Hp.
  rewrite (strip_free _ _ (cleaned_no_space _ _ Hc)) in Hp.
  split; [exact Hp |]. exists txt. auto.
Qed.

(* ================================================================== *)
(** ** Further runs on the fixtures *)

Module MoreRuns.

Import Fixture.

Lemma sampled_uids_come_from_hits_witness :
  exists new,
    snd (world (snd (RecordedFixture.sample_with "agencyA" 1))) =
      snd (world (RecordedFixture.state0 0)) ++ new /\
    Forall (hit_of "agencyA" 20 new) ["JDG-1920-01-01"%string] /\
    (client_ok (@Instance RecordedFixture.World Fixture.Client 0) ->
     exists new_calls,
       calls (snd (RecordedFixture.sample_with "agencyA" 1)) =
         calls (RecordedFixture.state0 0) ++ new_calls /\
       Forall (fun a : Answer => In (fst a) new_calls) new).
Proof.
  apply (sampled_uids_come_from_hits RecordedFixture.oracles snd (Instance 0)
           "agencyA" None None 20 1 1%Q (RecordedFixture.state0 0)
           ["JDG-1920-01-01"%string]
           (snd (RecordedFixture.sample_with "agencyA" 1))).
  - apply recording_records.
  - apply instance_keeps_record.
  - vm_compute. reflexivity.
Defined.

Lemma negative_delay_samples_nothing_witness :
  (-1 < 0)%Q /\
  fst (sample_impresso_uids oracles (Instance 0) "agencyA" None None 20 20
         (-1)%Q (state0 0)) = Ok [].
Proof.
  split; [reflexivity |].
  destruct (sample_impresso_uids oracles (Instance 0) "agencyA" None None 20 20
              (-1)%Q (state0 0)) as [[l | e] st'] eqn:H.
  - rewrite (negative_delay_samples_nothing oracles (Instance 0) "agencyA"
               None None 20 20 (-1)%Q (state0 0) l st' eq_refl H).
    reflexivity.
  - vm_compute in H. discriminate.
Defined.

Lemma nonpositive_max_hits_one_uid_witness :
  0 <= 0 /\ (List.length ["JDG-1920-01-01"%string] <= 1)%nat.
Proof.
  split; [reflexivity |].
  apply (nonpositive_max_hits_one_uid oracles (Instance 0) "agencyA" None None
           20 0 1%Q (state0 0) ["JDG-1920-01-01"%string]
           (snd (sample_with "agencyA" 0))).
  - reflexivity.
  - vm_compute. reflexivity.
Defined.

Lemma sample_calls_have_known_shapes_witness :
  exists new_calls,
    calls (snd (sample_with "agencyA" 20)) = calls (state0 0) ++ new_calls /\
    Forall (sample_call_shape "agencyA" None None 20 1%Q) new_calls.
Proof.
  apply (sample_calls_have_known_shapes oracles (Instance 0) "agencyA"
           None None 20 20 1%Q (state0 0)).
  apply instance_client_ok.
Defined.

Lemma hint_reports_time_left_witness :
  exists hrs mins secs,
    logs (snd (hint_if_due (inject_Z 1000) (state0 0)))
      = [(INFO, MTimeToRecreation hrs mins secs)] /\
    hrs * 3600 + mins * 60 + secs = 26000.
Proof.
  assert (Hdue : (inject_Z CLIENT_REFRESH_HINT_INTERVAL_SECONDS
                    <= float_sub (inject_Z 1000)
                         (last_hint (proxy (state0 0))))%Q)
    by (vm_compute; discriminate).
  destruct (proj1 (hint_reports_time_left (inject_Z 1000) (state0 0)) Hdue)
    as (hrs & mins & secs & Hrun & Hsum & _).
  exists hrs, mins, secs. split; [| exact Hsum].
  rewrite Hrun. reflexivity.
Defined.

Lemma refresh_deferred_for_an_interval_witness :
  let st1 := snd (get_client oracles (state0 27000)) in
  fst (get_client oracles st1) = Ok (client (proxy st1)) /\
  calls (snd (get_client oracles st1)) = calls st1.
Proof.
  assert (Hdue : (inject_Z TTL
                    <= float_sub (inject_Z 27000)
                         (last_refresh (proxy (state0 27000))))%Q)
    by (vm_compute; discriminate).
  assert (Hnot : (float_sub (inject_Z 27001) (inject_Z 27000)
                    < inject_Z TTL)%Q)
    by (vm_compute; reflexivity).
  exact (refresh_deferred_for_an_interval oracles (state0 27000)
           (inject_Z 27000) (inject_Z 27001) 27001 27002
           eq_refl Hdue eq_refl Hnot).
Defined.

Lemma all_done_nothing_to_do_witness :
  exists skipped,
    agencies_loop oracles 20 20 1%Q None None 1 1 ["agencyA"%string] loaded
      (state0 0) =
      (Ok loaded, mkState 0 [] ([] ++ skipped) None (mkProxy 0 0%Q 0%Q)) /\
    List.length skipped = 1%nat.
Proof.
  apply (all_done_nothing_to_do oracles 20 20 1%Q None None
           ["agencyA"%string] 1 1 loaded (state0 0)).
  intros a [<- | []]. reflexivity.
Defined.

Lemma result_file_matches_results_witness :
  exists results',
    fst (agencies_loop oracles 20 1 1%Q None None 1 1 ["agencyB"%string] loaded
           (state0 0)) = Ok results' /\
    (disk (snd (agencies_loop oracles 20 1 1%Q None None 1 1
                  ["agencyB"%string] loaded (state0 0)))
       = Some (json_dumps results') \/
     (results' = loaded /\
      disk (snd (agencies_loop oracles 20 1 1%Q None None 1 1
                   ["agencyB"%string] loaded (state0 0)))
        = disk (state0 0))).
Proof.
  apply (result_file_matches_results oracles 20 1 1%Q None None
           ["agencyB"%string] 1 1 loaded (state0 0)).
  intros w. reflexivity.
Defined.

Lemma run_all_raises_only_import_error_witness :
  exists cause,
    ImportError_client (ProviderError "login failed") =
    ImportError_client cause.
Proof.
  apply (run_all_raises_only_import_error oracles_down 20 20 1%Q None None []
           ["agencyA"%string] (state0 0)
           (ImportError_client (ProviderError "login failed"))).
  vm_compute. reflexivity.
Defined.

Lemma hex_pattern_is_subsumed_witness :
  fullmatch HEX_LONG_REGEX (repeat (cp "a") 64) = true /\
  fullmatch BASE64ISH_LONG_REGEX (repeat (cp "a") 64) = true.
Proof.
  split; [vm_compute; reflexivity |].
  apply hex_pattern_is_subsumed. vm_compute. reflexivity.
Defined.

Import PageFixture.

Lemma cleaning_keeps_plausible_token_witness :
  _clean_token_artifacts (Some copied) = Some (strip is_space copied) /\
  _is_plausible_token (_clean_token_artifacts (Some copied)) = true.
Proof.
  apply cleaning_keeps_plausible_token. vm_compute. reflexivity.
Defined.

Lemma first_selector_returns_first_match_witness :
  exists pre sel post misses,
    selectors = pre ++ sel :: post /\
    snd (_first_selector page selectors 5000 O) =
      misses ++ [EWait sel (slice_timeout 5000 selectors) (inr (Some 7%nat))] /\
    Forall2 (missed (slice_timeout 5000 selectors)) pre misses.
Proof.
  apply (first_selector_returns_first_match page selectors 5000 O 7%nat 2%nat).
  vm_compute. reflexivity.
Defined.

Lemma first_selector_raises_last_error_witness :
  snd (fst (_first_selector page_down ["#user"; "#login"]%string 500 O)) = 2%nat /\
  Forall2 (missed (slice_timeout 500 ["#user"; "#login"]%string))
    ["#user"; "#login"]%string
    (snd (_first_selector page_down ["#user"; "#login"]%string 500 O)).
Proof.
  split; [reflexivity |].
  apply (first_selector_raises_last_error page_down ["#user"; "#login"]%string
           500 O (Thrown ("Timeout exceeded"%string, O)) 2%nat).
  vm_compute. reflexivity.
Defined.

Lemma goto_returns_first_success_witness :
  exists fails,
    Forall (failed_goto "https://impresso-project.ch/datalab/token"%string)
      fails /\
    (List.length fails <= Z.to_nat 3)%nat /\
    snd (_goto_with_retries page
           "https://impresso-project.ch/datalab/token"%string 3 O) =
    fails ++
      [if (List.length fails <? Z.to_nat 3)%nat
       then EGoto "https://impresso-project.ch/datalab/token"%string
              domcontentloaded 45000 (inr 200)
       else EGoto "https://impresso-project.ch/datalab/token"%string
              load_event 60000 (inr 200)].
Proof.
  apply (goto_returns_first_success page
           "https://impresso-project.ch/datalab/token"%string 3 O 200 3%nat).
  vm_compute. reflexivity.
Defined.

Lemma goto_raises_last_light_error_witness :
  fst (fst (_goto_with_retries page_down
              "https://impresso-project.ch/datalab/token"%string 3 O))
    = Raises (Thrown ("net::ERR_CONNECTION_RESET"%string, 2%nat)) /\
  exists e', Thrown ("net::ERR_CONNECTION_RESET"%string, 2%nat) = Thrown e'.
Proof.
  split; [reflexivity |].
  apply (goto_raises_last_light_error page_down
           "https://impresso-project.ch/datalab/token"%string 3 O
           (Thrown ("net::ERR_CONNECTION_RESET"%string, 2%nat)) 4%nat
           (snd (_goto_with_retries page_down
                   "https://impresso-project.ch/datalab/token"%string 3 O))).
  - vm_compute. reflexivity.
  - reflexivity.
Defined.

Lemma clipboard_token_is_well_formed_witness :
  is_jwt (repeat (cp "a") 64) \/ is_long_key (repeat (cp "a") 64).
Proof.
  apply (clipboard_token_is_well_formed page O (repeat (cp "a") 64) 1%nat
           (snd (_read_clipboard_token page O))).
  vm_compute. reflexivity.
Defined.

End MoreRuns.
